(** * QISE: the directed-graph model and the label engine

    A shallow embedding of [src/GraphModeling/models/Graph.py] and of the
    label-propagation engine that the test driver
    [src/LabelSetting/tests/LabelAlgorithmTest.py] exercises.

    Node identifiers are Python integers, modelled as [Z].  An edge list is
    a [list (Z * Z)]; a dictionary keyed by edges is iterated key by key in
    insertion order, which gives such a list too. *)

From stdpp Require Import base option list sorting strings gmap.
From Stdlib Require Import ZArith Lia.

Local Open Scope Z_scope.

(** ** numpy: zero matrices and integer indexing *)

Module np.

(** Cells hold the floats 0.0 and 1.0; they are modelled by the integers
    0 and 1. *)
Abbreviation ndarray := (list (list Z)).

(** [numpy.zeros((n, n))] *)
Definition zeros (n : nat) : ndarray := replicate n (replicate n 0).

(** Integer indexing along an axis of length [n]: an index in [0, n) is
    used as it is, an index in [-n, 0) counts from the end, and any other
    index raises [IndexError] (here [None]). *)
Definition index (n : nat) (i : Z) : option nat :=
  if decide (0 ≤ i < Z.of_nat n) then Some (Z.to_nat i)
  else if decide (- Z.of_nat n ≤ i < 0) then Some (Z.to_nat (Z.of_nat n + i))
  else None.

(** [m[i][j]] *)
Definition get (m : ndarray) (i j : Z) : option Z :=
  r ← index (length m) i;
  row ← m !! r;
  c ← index (length row) j;
  row !! c.

(** [m[i][j] = v] *)
Definition set (m : ndarray) (i j : Z) (v : Z) : option ndarray :=
  r ← index (length m) i;
  row ← m !! r;
  c ← index (length row) j;
  Some (<[r := <[c := v]> row]> m).

(** The cell at row [r] and column [c], both counted from 0. *)
Definition cell (m : ndarray) (r c : nat) : option Z :=
  row ← m !! r; row !! c.

(** The shape [(n, n)]. *)
Definition square (n : nat) (m : ndarray) : Prop :=
  length m = n ∧ Forall (λ row, length row = n) m.

End np.

(** ** networkx: [DiGraph] and [all_simple_paths] *)

Module nx.

(** [if x not in l: l.append(x)]: the keys of a Python dict keep the
    position of their first insertion. *)
Definition append_new (l : list Z) (x : Z) : list Z :=
  if decide (x ∈ l) then l else l ++ [x].

(** A directed graph without edge data: the nodes in insertion order, and
    for each node its successors in insertion order. *)
Record DiGraph := mkDiGraph {
  _node : list Z;
  _succ : gmap Z (list Z)
}.

(** The invariant of the class: the node list has no duplicate and is the
    key set of the successor map. *)
Definition wf (G : DiGraph) : Prop :=
  NoDup (_node G) ∧ ∀ n, n ∈ _node G ↔ is_Some (_succ G !! n).

Definition empty : DiGraph := mkDiGraph [] ∅.

Definition add_node (G : DiGraph) (n : Z) : DiGraph :=
  if decide (n ∈ _node G) then G
  else mkDiGraph (_node G ++ [n]) (<[n := []]> (_succ G)).

Definition add_nodes_from (G : DiGraph) (ns : list Z) : DiGraph :=
  foldl add_node G ns.

(** [add_edge] first adds the endpoints that are missing. *)
Definition add_edge (G : DiGraph) (e : Z * Z) : DiGraph :=
  let G' := add_node (add_node G e.1) e.2 in
  mkDiGraph (_node G') (alter (λ l, append_new l e.2) e.1 (_succ G')).

Definition add_edges_from (G : DiGraph) (es : list (Z * Z)) : DiGraph :=
  foldl add_edge G es.

(** [len(G)] *)
Definition number_of_nodes (G : DiGraph) : nat := length (_node G).

(** [G.edges(u)]: the targets of the edges leaving [u]. *)
Definition successors (G : DiGraph) (u : Z) : list Z :=
  default [] (_succ G !! u).

(** [G.edges()]: the edges origin by origin, the origins in the order of
    the nodes and the targets of an origin in the order of insertion. *)
Definition edges (G : DiGraph) : list (Z * Z) :=
  flat_map (λ u, (λ v, (u, v)) <$> successors G u) (_node G).

Inductive result (A : Type) :=
  | Ok (a : A)
  | NodeNotFound.
Global Arguments Ok {A} a.
Global Arguments NodeNotFound {A}.

(** The search of [_all_simple_edge_paths] for a single target, as the
    recursion which its explicit stack simulates.  [path] is the current
    path, [next_node] the head of the edge just taken, and [room] is
    [cutoff - len(path)]: the search goes below [next_node] only when
    [len(path) < cutoff] and the target is neither on the path nor
    [next_node] itself. *)
Fixpoint search (G : DiGraph) (target : Z) (room : nat)
    (path : list Z) (next_node : Z) : list (list Z) :=
  (if decide (next_node = target) then [path ++ [next_node]] else []) ++
  match room with
  | O => []
  | S room' =>
      if decide ((target ∉ path) ∧ (target ≠ next_node)) then
        flat_map (λ v,
          if decide (v ∈ path ++ [next_node]) then []
          else search G target room' (path ++ [next_node]) v)
          (successors G next_node)
      else []
  end.

(** [all_simple_paths(G, source, target)] is a generator function, as
    networkx has it from version 3.2 on: the call runs no statement of its
    body, not even the checks of the two nodes, and returns a generator
    object that holds the arguments. *)
Record generator := all_simple_paths {
  generator_G : DiGraph;
  generator_source : Z;
  generator_target : Z
}.

(** Advancing a generator of [all_simple_paths] to its end, as [list(g)] or
    a [for] loop does: the list of the paths it yields, or the exception it
    raises.  The body starts with the checks, so [NodeNotFound] is raised at
    the first advance, before any path is yielded.  A target that is not a
    node is an integer, not an iterable of nodes, and is reported as
    [NodeNotFound] too.  The cutoff is the default one, [len(G) - 1], and
    the path made of the source alone is yielded when the source is the
    target. *)
Definition iterate (g : generator) : result (list (list Z)) :=
  let G := generator_G g in
  if decide (generator_source g ∈ _node G) then
    if decide (generator_target g ∈ _node G) then
      Ok (search G (generator_target g) (number_of_nodes G - 1) []
            (generator_source g))
    else NodeNotFound
  else NodeNotFound.

End nx.

(** ** numpy.random, driven by an explicit stream of draws *)

Module rnd.

(** A computation reads the stream [tape] from position [pos] on; [None] is
    a raised [ValueError]. *)
Definition gen (A : Type) : Type := (nat → nat) → nat → option (A * nat).

Definition ret {A} (a : A) : gen A := λ _ pos, Some (a, pos).

Definition bind {A B} (m : gen A) (k : A → gen B) : gen B :=
  λ tape pos,
    match m tape pos with
    | Some (a, pos') => k a tape pos'
    | None => None
    end.

Definition raise {A} : gen A := λ _ _, None.

Definition draw : gen nat := λ tape pos, Some (tape pos, S pos).

(** [randint(low, high)]: an integer of the half-open range
    [[low, high)]; an empty range is an error. *)
Definition randint (low high : Z) : gen Z :=
  if decide (low < high) then
    bind draw (λ d, ret (low + Z.of_nat d `mod` (high - low)))
  else raise.

(** [k] successive picks without replacement. *)
Fixpoint sample (pop : list Z) (k : nat) : gen (list Z) :=
  match k with
  | O => ret []
  | S k' =>
      bind draw (λ d,
        let i := (d mod length pop)%nat in
        match pop !! i with
        | Some x => bind (sample (delete i pop) k') (λ rest, ret (x :: rest))
        | None => raise
        end)
  end.

(** [choice(pop, size, replace=False)] *)
Definition choice (pop : list Z) (size : Z) : gen (list Z) :=
  if decide (0 ≤ size ≤ Z.of_nat (length pop)) then sample pop (Z.to_nat size)
  else raise.

End rnd.

(** ** Graph *)

Module Graph.

Abbreviation node := Z.
Abbreviation edge := (Z * Z)%type.

(** [range(lo, hi)] *)
Definition range (lo hi : Z) : list Z := seqZ lo (hi - lo).

(** [if node not in nodes: nodes.append(node)] *)
Definition append_new (nodes : list Z) (n : Z) : list Z :=
  if decide (n ∈ nodes) then nodes else nodes ++ [n].

(** The inner loop [for node in edge] over the two components of the tuple. *)
Definition scan_edge (nodes : list Z) (e : edge) : list Z :=
  append_new (append_new nodes e.1) e.2.

(** The two nested loops of [get_nodes], before the sort. *)
Definition collect_nodes (edges : list edge) : list Z :=
  foldl scan_edge [] edges.

(** [Graph.get_nodes]: collect, then [nodes.sort()]. *)
Definition get_nodes (edges : list edge) : list Z :=
  merge_sort Z.le (collect_nodes edges).

Definition endpoint (edges : list edge) (n : Z) : Prop :=
  ∃ e, e ∈ edges ∧ (n = e.1 ∨ n = e.2).

(** [Graph._gen_zero_n_square_matrix] *)
Definition _gen_zero_n_square_matrix (edges : list edge) : np.ndarray :=
  np.zeros (length (get_nodes edges)).

(** The loop of [_initialize_connection_matrix]; an [IndexError] ends it. *)
Fixpoint mark_edges (m : np.ndarray) (edges : list edge) : option np.ndarray :=
  match edges with
  | [] => Some m
  | e :: edges' => m' ← np.set m (e.1 - 1) (e.2 - 1) 1; mark_edges m' edges'
  end.

(** [Graph._initialize_connection_matrix] *)
Definition _initialize_connection_matrix (edges : list edge) : option np.ndarray :=
  mark_edges (_gen_zero_n_square_matrix edges) edges.

(** [Graph._initialize_networkx_graph] *)
Definition _initialize_networkx_graph (edges : list edge) : nx.DiGraph :=
  nx.add_edges_from (nx.add_nodes_from nx.empty (get_nodes edges)) edges.

(** The members of a [Graph] object. *)
Record t := mk {
  edges : list edge;
  connection_matrix : np.ndarray;
  networkx_graph : nx.DiGraph
}.

(** [Graph.__init__]: the matrix first, then the networkx graph.  An
    exception of the matrix initialisation leaves no object. *)
Definition __init__ (edges : list edge) : option t :=
  m ← _initialize_connection_matrix edges;
  Some (mk edges m (_initialize_networkx_graph edges)).

(** The destination that [get_simple_paths] searches for: [None] and [0]
    are both falsy for [if not destination_node]. *)
Definition destination_of (self : t) (destination_node : option Z) : Z :=
  match destination_node with
  | None => Z.of_nat (length (get_nodes (edges self))) - 1
  | Some d =>
      if decide (d = 0) then Z.of_nat (length (get_nodes (edges self))) - 1
      else d
  end.

(** What [get_simple_paths] returns in [paths]: the list it starts from, or
    the generator object of networkx ("Returns a generator object instead of
    an array", as the source notes). *)
Inductive paths :=
  | paths_list (l : list (list Z))
  | paths_generator (g : nx.generator).

(** [Graph.get_simple_paths].  A graph object is truthy when it has at least
    one node.  The call itself raises nothing. *)
Definition get_simple_paths (self : t) (source_node : Z)
    (destination_node : option Z) : paths :=
  let destination_node := destination_of self destination_node in
  if decide (nx.number_of_nodes (networkx_graph self) ≠ 0%nat) then
    paths_generator
      (nx.all_simple_paths (networkx_graph self) source_node destination_node)
  else paths_list [].

(** What the caller gets from the returned object by iterating over it to
    the end, [list(paths)]: the paths, or the exception of the generator. *)
Definition iterate (p : paths) : nx.result (list (list Z)) :=
  match p with
  | paths_list l => nx.Ok l
  | paths_generator g => nx.iterate g
  end.

(** A sequence of nodes in which each one has an edge to the next. *)
Inductive walk (edges : list edge) : list Z → Prop :=
  | walk_one x : walk edges [x]
  | walk_step x y p :
      (x, y) ∈ edges → walk edges (y :: p) → walk edges (x :: y :: p).

(** A simple path of the graph from [s] to [t]: a sequence of nodes of the
    graph that starts at [s], ends at [t], repeats no node and follows the
    edges. *)
Definition simple_path (edges : list edge) (s t : Z) (p : list Z) : Prop :=
  Forall (λ x, x ∈ get_nodes edges) p ∧
  head p = Some s ∧ last p = Some t ∧ NoDup p ∧ walk edges p.

(** A dictionary from edges to resource vectors, in insertion order. *)
Abbreviation dict := (list ((Z * Z) * (Z * Z))).

Definition keys (d : dict) : list edge := d.*1.

(** [d[k] = v]: an existing key keeps its position. *)
Fixpoint dict_set (d : dict) (k : edge) (v : Z * Z) : dict :=
  match d with
  | [] => [(k, v)]
  | (k', v') :: d' =>
      if decide (k' = k) then (k, v) :: d' else (k', v') :: dict_set d' k v
  end.

(** [k in d] *)
Definition dict_mem (d : dict) (k : edge) : bool := bool_decide (k ∈ keys d).

(** An entry of the dictionary whose edge goes from a node to a greater
    one, both in [0, n), and carries the vector (0, 0). *)
Definition forward (n : Z) (kv : (Z * Z) * (Z * Z)) : Prop :=
  0 ≤ kv.1.1 ∧ kv.1.1 < kv.1.2 ∧ kv.1.2 < n ∧ kv.2 = (0, 0).

(** One round of the loop of [get_arbitrary_graph], for the node [i]. *)
Definition arbitrary_round (n : Z) (graphDict : dict) (i : Z) : rnd.gen dict :=
  rnd.bind (if decide (n - i > 1) then rnd.randint 1 (n - i) else rnd.ret 1)
    (λ N_oe,
  rnd.bind (if decide (i ≠ n - 1) then rnd.choice (range (i + 1) n) N_oe
            else rnd.ret [n])
    (λ delta_o,
  let graphDict := foldl (λ d j, dict_set d (i, j) (0, 0)) graphDict delta_o in
  let oneInNode := existsb (λ k, dict_mem graphDict (k, i)) (range 0 i) in
  if negb oneInNode && bool_decide (i ≠ 0) then
    rnd.bind (if decide (i > 1) then rnd.randint 0 (i - 1) else rnd.ret 0)
      (λ n_in, rnd.ret (dict_set graphDict (n_in, i) (0, 0)))
  else rnd.ret graphDict)).

Fixpoint arbitrary_rounds (n : Z) (graphDict : dict) (nodes : list Z)
    : rnd.gen dict :=
  match nodes with
  | [] => rnd.ret graphDict
  | i :: nodes' =>
      rnd.bind (arbitrary_round n graphDict i)
        (λ graphDict', arbitrary_rounds n graphDict' nodes')
  end.

(** The dictionary that [get_arbitrary_graph] builds. *)
Definition arbitrary_dict (n : Z) : rnd.gen dict :=
  arbitrary_rounds n [] (range 0 (n - 1)).

(** [Graph.get_arbitrary_graph]: the dictionary is handed to the
    constructor, which iterates over its keys. *)
Definition get_arbitrary_graph (n : Z) : rnd.gen t :=
  rnd.bind (arbitrary_dict n) (λ graphDict,
    match __init__ (keys graphDict) with
    | Some g => rnd.ret g
    | None => rnd.raise
    end).

(** [Graph.get_color_map], with the defaults [s = 0] and [t = -1] given by
    the caller.  In the [else] branch the statement [t - 1] computes a value
    and drops it: [t] stays as it was given. *)
Definition get_color_map (self : t) (n s t : Z) : list string :=
  let t := if decide (t = -1) then n - 1 else t in
  foldl (λ color_map i,
           color_map ++ [if decide (i = s) then "green"%string
                         else if decide (i = t) then "red"%string
                         else "blue"%string])
    [] (range 0 n).

(** What [print_graph] sends to the outside: the lines printed and the
    calls to networkx's drawing functions and to pyplot.  The two formatted
    lines are kept as the prefix and the view that is formatted; the
    position argument of the drawing calls is [circular_layout] of the
    graph drawn. *)
Inductive call :=
  | print (text : string)
  | print_nodes (prefix : string) (nodes : list Z)
  | print_edges (prefix : string) (edges : list edge)
  | draw_networkx (G : nx.DiGraph) (node_color : list string)
  | draw_networkx_edge_labels (G : nx.DiGraph) (edge_labels : dict)
  | savefig (picture_name : string)
  | show.

(** [Graph.print_graph]: the calls it makes, in order, when none of them
    raises.  [edge_labels] is [None] or a dictionary; an empty dictionary is
    falsy. *)
Definition print_graph (self : t) (picture_name : string)
    (edge_labels : option dict) (suppress_text_output : bool) : list call :=
  let G := networkx_graph self in
  (if negb suppress_text_output then
     [print "Nodes on Graph:"; print_nodes "|    " (nx._node G);
      print "Edges of Graph:"; print_edges "|    " (nx.edges G)]
   else []) ++
  [draw_networkx G
     (get_color_map self (Z.of_nat (nx.number_of_nodes G)) 0 (-1))] ++
  match edge_labels with
  | Some labels =>
      if bool_decide (labels ≠ []) && negb suppress_text_output
      then [draw_networkx_edge_labels G labels] else []
  | None => []
  end ++
  (if decide (picture_name ≠ EmptyString) then [savefig picture_name] else []) ++
  [show].

End Graph.

Import Graph.

(** ** The label engine

    The module [src/LabelSetting/Models/LabelAlgorithm.py] that the test
    driver imports is not among the sources; the engine below follows the
    specification, sections 3, 4.2 to 4.6, 6 and 7.  The method names are
    those the test driver calls. *)

Module LabelAlgorithm.

(** Modelled from the spec: the resource vector (weight, cost) of section 3,
    with component-wise addition, the product order and dominance. *)
Abbreviation vector := (Z * Z)%type.

(** Modelled from the spec: accessor of the first resource of a vector. *)
Definition weight (a : vector) : Z := a.1.

(** Modelled from the spec: accessor of the second resource of a vector. *)
Definition cost (a : vector) : Z := a.2.

(** Modelled from the spec: addition of resource vectors is component-wise. *)
Definition add (a b : vector) : vector := (a.1 + b.1, a.2 + b.2).

(** Modelled from the spec: A <= B iff A.weight <= B.weight and
    A.cost <= B.cost. *)
Definition le (a b : vector) : Prop := a.1 ≤ b.1 ∧ a.2 ≤ b.2.

(** Modelled from the spec: A dominates B iff A <= B and A <> B. *)
Definition dominates (a b : vector) : Prop := le a b ∧ a ≠ b.

(** Modelled from the spec: the order of the priority structure of
    section 4.4, weight ascending and then cost ascending. *)
Definition lex_lt (a b : vector) : Prop := a.1 < b.1 ∨ (a.1 = b.1 ∧ a.2 < b.2).

(** Modelled from the spec: the graph with one resource vector per edge, as
    the dictionary from edges to vectors that the tests build. *)
Abbreviation WCGraph := (list ((Z * Z) * (Z * Z))).

(** Modelled from the spec: [nodes()], the distinct endpoints of the edges. *)
Definition nodes (graph : WCGraph) : list Z := Graph.get_nodes (Graph.keys graph).

(** Modelled from the spec: [outgoingEdges(node)], the sequence of
    (toNode, ResourceVector). *)
Definition outgoingEdges (graph : WCGraph) (u : Z) : list (Z * vector) :=
  omap (λ kv : (Z * Z) * (Z * Z),
          if decide (kv.1.1 = u) then Some (kv.1.2, kv.2) else None) graph.

(** Modelled from the spec: a label is either the zero label of the source
    or the extension of its predecessor label by an edge, given by the node
    reached and the vector of the edge.  Nothing else is stored. *)
Inductive Label :=
  | Zero (source : Z)
  | Extend (pred : Label) (to : Z) (vec : vector).

(** Modelled from the spec: the resource vector that a label carries. *)
Fixpoint resource (l : Label) : vector :=
  match l with
  | Zero _ => (0, 0)
  | Extend pred _ vec => add (resource pred) vec
  end.

(** Modelled from the spec: the node that a label reaches. *)
Definition node_of (l : Label) : Z :=
  match l with
  | Zero source => source
  | Extend _ to _ => to
  end.

(** Modelled from the spec: the nodes met when following the predecessor
    links back to the zero label, last node first. *)
Fixpoint back_nodes (l : Label) : list Z :=
  match l with
  | Zero source => [source]
  | Extend pred to _ => to :: back_nodes pred
  end.

(** Modelled from the spec: [rebuild(label)] of section 4.6 follows the
    predecessor links, collects the nodes and reverses. *)
Definition rebuild (l : Label) : list Z := reverse (back_nodes l).

(** Modelled from the spec: a retained label with its treated flag. *)
Record entry := mk_entry { label : Label; treated : bool }.

(** Modelled from the spec: the label store of a node. *)
Abbreviation LabelStore := (list entry).

(** Modelled from the spec: the outcome of [tryInsert]. *)
Record insertion := mk_insertion {
  accepted : bool;
  evicted : list Label;
  store : LabelStore
}.

(** Modelled from the spec: labels are compared by structure. *)
Global Instance Label_eq_dec : EqDecision Label.
Proof. solve_decision. Defined.

(** Modelled from the spec: [efficientFrontier()], the current content. *)
Definition efficientFrontier (st : LabelStore) : list Label := label <$> st.

(** Modelled from the spec: [untreatedLabels()]. *)
Definition untreatedLabels (st : LabelStore) : list Label :=
  label <$> filter (λ e, treated e = false) st.

(** Modelled from the spec: [markTreated(label)]. *)
Definition markTreated (st : LabelStore) (l : Label) : LabelStore :=
  (λ e, if decide (label e = l) then mk_entry l true else e) <$> st.

(** Modelled from the spec: [tryInsert(label)] of section 4.2 under the
    weight budget; the label store class of [LabelAlgorithm.py] is missing.  A label over the budget is rejected whatever the store
    holds; a label that some retained label dominates or equals is rejected;
    otherwise the retained labels that it dominates are evicted and it is
    inserted, untreated. *)
Definition tryInsert (budget : Z) (st : LabelStore) (l : Label) : insertion :=
  if decide (budget < weight (resource l)) then mk_insertion false [] st
  else if decide (Exists (λ e, le (resource (label e)) (resource l)) st)
  then mk_insertion false [] st
  else
    mk_insertion true
      (label <$> filter (λ e, dominates (resource l) (resource (label e))) st)
      (filter (λ e, ¬ dominates (resource l) (resource (label e))) st
         ++ [mk_entry l false]).

(** Modelled from the spec: the label stores of a run, one per node; a node
    without an entry has the empty store. *)
Abbreviation stores := (gmap Z (list entry)).

(** Modelled from the spec: the store of a node. *)
Definition store_of (ss : stores) (u : Z) : LabelStore := default [] (ss !! u).

(** Modelled from the spec: [frontier(node)], the set of (weight, cost) of
    the labels retained at the node. *)
Definition frontier (ss : stores) (u : Z) : list vector :=
  resource <$> efficientFrontier (store_of ss u).

(** Modelled from the spec: [pathFor(node, frontierEntry)], the path of the
    retained label that carries the vector. *)
Definition pathFor (ss : stores) (u : Z) (x : vector) : option (list Z) :=
  rebuild <$> head (filter (λ l, resource l = x) (efficientFrontier (store_of ss u))).

(** Modelled from the spec: before propagation every store is empty except
    the one of the source, which holds exactly the zero label. *)
Definition initial (source : Z) : stores := {[ source := [mk_entry (Zero source) false] ]}.

(** Modelled from the spec: a label goes through [tryInsert] at the store
    of the node it reaches. *)
Definition insert_at (budget : Z) (ss : stores) (l : Label) : stores :=
  <[node_of l := store (tryInsert budget (store_of ss (node_of l)) l)]> ss.

(** Modelled from the spec: one extension, sections 4.3 and 4.4: the
    candidate is label + edge.vector; over the budget it is discarded,
    otherwise it goes through [tryInsert] at the target store.  The second
    component collects the accepted candidates. *)
Definition relax (budget : Z) (l : Label) (acc : stores * list Label)
    (e : Z * vector) : stores * list Label :=
  let candidate := Extend l e.1 e.2 in
  if decide (budget < weight (resource candidate)) then acc
  else
    let r := tryInsert budget (store_of acc.1 e.1) candidate in
    (<[e.1 := store r]> acc.1,
     if accepted r then acc.2 ++ [candidate] else acc.2).

(** Modelled from the spec: extend a label across every outgoing edge. *)
Definition extend (graph : WCGraph) (budget : Z) (ss : stores) (l : Label)
    : stores * list Label :=
  foldl (relax budget l) (ss, []) (outgoingEdges graph (node_of l)).

(** Modelled from the spec: a label is marked treated and extended. *)
Definition treat (graph : WCGraph) (budget : Z) (ss : stores) (l : Label)
    : stores * list Label :=
  extend graph budget (<[node_of l := markTreated (store_of ss (node_of l)) l]> ss) l.

(** Modelled from the spec: a node enters the worklist of dirty nodes
    unless it is already there. *)
Definition enqueue (worklist : list Z) (u : Z) : list Z :=
  if decide (u ∈ worklist) then worklist else worklist ++ [u].

(** Modelled from the spec: the untreated labels of a popped node are
    treated one after the other; the accepted candidates are collected. *)
Definition treat_all (graph : WCGraph) (budget : Z) (ss : stores)
    (ls : list Label) : stores * list Label :=
  foldl (λ acc l, let r := treat graph budget acc.1 l in (r.1, acc.2 ++ r.2))
        (ss, []) ls.

(** Modelled from the spec: one round of the correcting strategy of
    section 4.3: pop a dirty node, extend each of its untreated labels, and
    enqueue the target of every accepted candidate.  [None] when the
    worklist is empty. *)
Definition correcting_step (graph : WCGraph) (budget : Z)
    (state : stores * list Z) : option (stores * list Z) :=
  match state.2 with
  | [] => None
  | u :: worklist =>
      let r := treat_all graph budget state.1 (untreatedLabels (store_of state.1 u)) in
      Some (r.1, foldl enqueue worklist (node_of <$> r.2))
  end.

(** Modelled from the spec: the worklist loop, which ends when the worklist
    is empty.  [None] when the rounds allowed are used up before that. *)
Fixpoint correcting_loop (graph : WCGraph) (budget : Z) (fuel : nat)
    (state : stores * list Z) : option stores :=
  match correcting_step graph budget state with
  | None => Some state.1
  | Some state' =>
      match fuel with
      | O => None
      | S fuel' => correcting_loop graph budget fuel' state'
      end
  end.

(** Modelled from the spec: the content of the global priority structure
    of section 4.4, the untreated labels of all the nodes. *)
Definition untreated_all (graph : WCGraph) (ss : stores) : list Label :=
  flat_map (λ u, untreatedLabels (store_of ss u)) (nodes graph).

(** Modelled from the spec: the minimum of the priority structure for the
    lexicographic order on (weight, cost); the first one among equals. *)
Fixpoint extract_min (ls : list Label) : option Label :=
  match ls with
  | [] => None
  | l :: ls' =>
      match extract_min ls' with
      | None => Some l
      | Some m => if decide (lex_lt (resource m) (resource l)) then Some m else Some l
      end
  end.

(** Modelled from the spec: one round of the setting strategy: extract the
    minimum, mark it treated and extend it.  [None] when no untreated label
    is left. *)
Definition setting_step (graph : WCGraph) (budget : Z) (ss : stores)
    : option stores :=
  match extract_min (untreated_all graph ss) with
  | None => None
  | Some l => Some (treat graph budget ss l).1
  end.

(** Modelled from the spec: the loop of the setting strategy. *)
Fixpoint setting_loop (graph : WCGraph) (budget : Z) (fuel : nat)
    (ss : stores) : option stores :=
  match setting_step graph budget ss with
  | None => Some ss
  | Some ss' =>
      match fuel with
      | O => None
      | S fuel' => setting_loop graph budget fuel' ss'
      end
  end.

(** Modelled from the spec: the depth-first enumeration of section 4.5
    below the label [l], whose path is [visited].  Each edge to a node off
    the path gives a candidate; while the weight stays within the budget the
    candidate is inserted at its endpoint by [tryInsert] and explored in
    turn.  [room] bounds the depth by the number of nodes. *)
Fixpoint explore (graph : WCGraph) (budget : Z) (room : nat)
    (visited : list Z) (l : Label) (ss : stores) : stores :=
  match room with
  | O => ss
  | S room' =>
      foldl (λ ss e,
        if decide (e.1 ∈ visited) then ss
        else
          let candidate := Extend l e.1 e.2 in
          if decide (budget < weight (resource candidate)) then ss
          else
            explore graph budget room' (e.1 :: visited) candidate
              (<[e.1 := store (tryInsert budget (store_of ss e.1) candidate)]> ss))
        ss (outgoingEdges graph (node_of l))
  end.

(** Modelled from the spec: the three strategies, a closed variant. *)
Inductive strategy := Correcting | Setting | Exhaustive.

(** Modelled from the spec: the failures of section 7, and the end of the
    rounds allowed to the loops. *)
Inductive failure := InvalidBudget | UnknownNode | OutOfFuel.

(** Modelled from the spec: the engine object that the tests create, with
    the stores of its last run. *)
Record t := mk { node_labels : stores }.

(** Modelled from the spec: the checks made before propagation: a negative
    budget and a source outside the node universe are rejected. *)
Definition check (graph : WCGraph) (source : Z) (budget : Z) : option failure :=
  if decide (budget < 0) then Some InvalidBudget
  else if decide (source ∈ nodes graph) then None
  else Some UnknownNode.

(** Modelled from the spec: the propagation of a strategy from fresh
    stores. *)
Definition propagate (strat : strategy) (graph : WCGraph) (source : Z)
    (budget : Z) (fuel : nat) : option stores :=
  match strat with
  | Correcting => correcting_loop graph budget fuel (initial source, [source])
  | Setting => setting_loop graph budget fuel (initial source)
  | Exhaustive =>
      Some (explore graph budget (length (nodes graph)) [source] (Zero source)
              (initial source))
  end.

(** Modelled from the spec: [run(graph, source, weightBudget, strategy)]
    of section 6; the class [LabelAlgorithm] itself is missing.  The stores
    are created fresh; those of an earlier run are dropped. *)
Definition run (self : t) (strat : strategy) (graph : WCGraph) (source : Z)
    (budget : Z) (fuel : nat) : failure + t :=
  match check graph source budget with
  | Some f => inl f
  | None =>
      match propagate strat graph source budget fuel with
      | Some ss => inr (mk ss)
      | None => inl OutOfFuel
      end
  end.

(** Modelled from the spec: the correcting strategy of section 4.3, for
    the missing method [LabelAlgorithm.run_algorithm_v1]. *)
Definition run_algorithm_v1 (self : t) := run self Correcting.

(** Modelled from the spec: the setting strategy of section 4.4, for the
    missing method [LabelAlgorithm.run_algorithm_v2]. *)
Definition run_algorithm_v2 (self : t) := run self Setting.

(** Modelled from the spec: the exhaustive strategy of section 4.5, for
    the missing method [LabelAlgorithm.gen_all_possible_labels]. *)
Definition gen_all_possible_labels (self : t) := run self Exhaustive.

(** Modelled from the spec: the query [frontier(node)] of section 6 on the
    result of a run, with the check of section 7; the class
    [LabelAlgorithm] is missing.  A node outside the node universe of the
    graph is rejected with [UnknownNode]; a node of the universe that was
    not reached has the empty frontier. *)
Definition frontier_of (graph : WCGraph) (self : t) (u : Z)
    : failure + list vector :=
  if decide (u ∈ nodes graph) then inr (frontier (node_labels self) u)
  else inl UnknownNode.

(** *** Notions used to state what the engine computes *)

(** The vectors of a store are pairwise incomparable. *)
Definition antichain (xs : list vector) : Prop :=
  ∀ x y, x ∈ xs → y ∈ xs → le x y → x = y.

(** Some label retained at [u] has a vector below [x]. *)
Definition covered (ss : stores) (u : Z) (x : vector) : Prop :=
  Exists (λ e, le (resource (label e)) x) (store_of ss u).

(** The chain of a label follows edges of the graph from the zero label
    of the source. *)
Fixpoint valid (graph : WCGraph) (source : Z) (l : Label) : Prop :=
  match l with
  | Zero s => s = source
  | Extend pred to vec => valid graph source pred ∧ ((node_of pred, to), vec) ∈ graph
  end.

(** Every prefix of the chain respects the budget. *)
Fixpoint within (budget : Z) (l : Label) : Prop :=
  weight (resource l) ≤ budget ∧
  match l with
  | Zero _ => True
  | Extend pred _ _ => within budget pred
  end.

(** The path of the label repeats no node. *)
Definition simple (l : Label) : Prop := NoDup (back_nodes l).

(** The label and its predecessors, the label first. *)
Fixpoint prefixes (l : Label) : list Label :=
  l :: match l with
       | Zero _ => []
       | Extend pred _ _ => prefixes pred
       end.

(** The vectors reachable at [u] along simple paths within the budget. *)
Definition feasible (graph : WCGraph) (source budget u : Z) (x : vector) : Prop :=
  ∃ l, valid graph source l ∧ simple l ∧ within budget l ∧
       node_of l = u ∧ resource l = x.

(** No edge carries a negative resource. *)
Definition nonnegative (graph : WCGraph) : Prop :=
  Forall (λ kv : (Z * Z) * (Z * Z), 0 ≤ kv.2.1 ∧ 0 ≤ kv.2.2) graph.

(** The label and all its predecessors are covered at their nodes. *)
Fixpoint chain_covered (ss : stores) (l : Label) : Prop :=
  covered ss (node_of l) (resource l) ∧
  match l with
  | Zero _ => True
  | Extend pred _ _ => chain_covered ss pred
  end.

(** The predecessor of the label, if it has one, is in the list. *)
Definition pred_in (T : list Label) (l : Label) : Prop :=
  match l with
  | Zero _ => True
  | Extend pred _ _ => pred ∈ T
  end.

(** The labels treated so far, the latest first: each one was treated once,
    after its predecessor. *)
Inductive history : list Label → Prop :=
  | history_nil : history []
  | history_cons l T : history T → pred_in T l → l ∉ T → history (l :: T).

(** What holds of a label retained at the node [u]. *)
Definition good (graph : WCGraph) (source budget : Z) (ss : stores)
    (T : list Label) (u : Z) (e : entry) : Prop :=
  valid graph source (label e) ∧ node_of (label e) = u ∧
  within budget (label e) ∧ simple (label e) ∧
  chain_covered ss (label e) ∧ pred_in T (label e) ∧
  (treated e = false → label e ∉ T).

(** The invariant of the propagation, [T] being the labels treated. *)
Record invariant (graph : WCGraph) (source budget : Z) (ss : stores)
    (T : list Label) : Prop := {
  inv_good : ∀ u e, e ∈ store_of ss u → good graph source budget ss T u e;
  inv_antichain : ∀ u, antichain (frontier ss u);
  inv_NoDup : ∀ u, NoDup (frontier ss u);
  inv_history : history T;
  inv_treated : ∀ l, l ∈ T → valid graph source l ∧ simple l;
  inv_source : covered ss source (0, 0)
}.

(** Every extension within the budget of a treated retained label, other
    than [l0], is covered at its target. *)
Definition closed_except (graph : WCGraph) (budget : Z) (l0 : option Label)
    (ss : stores) : Prop :=
  ∀ u e, e ∈ store_of ss u → treated e = true → Some (label e) ≠ l0 →
    ∀ v vec, (v, vec) ∈ outgoingEdges graph u →
      weight (add (resource (label e)) vec) ≤ budget →
      covered ss v (add (resource (label e)) vec).

(** The simple paths below a label, to the depth [room]. *)
Fixpoint descend (graph : WCGraph) (room : nat) (l : Label) : list Label :=
  match room with
  | O => []
  | S room' =>
      flat_map (λ e : Z * vector,
        if decide (e.1 ∈ back_nodes l) then []
        else Extend l e.1 e.2 :: descend graph room' (Extend l e.1 e.2))
        (outgoingEdges graph (node_of l))
  end.

(** All the simple paths from the source. *)
Definition simple_labels (graph : WCGraph) (source : Z) : list Label :=
  Zero source :: descend graph (length (nodes graph)) (Zero source).

(** What a finished run has computed at every node: an antichain of
    feasible vectors below which every feasible vector lies. *)
Definition efficient (graph : WCGraph) (source budget : Z) (ss : stores) : Prop :=
  ∀ u,
    antichain (frontier ss u) ∧
    (∀ x, x ∈ frontier ss u → feasible graph source budget u x) ∧
    (∀ x, feasible graph source budget u x → covered ss u x).

(** Every untreated retained label sits at a node of the worklist. *)
Definition dirty_listed (ss : stores) (worklist : list Z) : Prop :=
  ∀ u e, e ∈ store_of ss u → treated e = false → u ∈ worklist.

(** The rounds that the correcting loop may still need, for [N] simple
    paths, [n] nodes, [k] labels treated and a worklist of length [w]. *)
Definition potential (N n k w : nat) : nat := ((N - k) * S n + w)%nat.

(** The label may be treated: it is a simple path within the budget
    whose chain is covered, it was not treated yet, and its predecessor
    was. *)
Definition ready (graph : WCGraph) (source budget : Z) (ss : stores)
    (T : list Label) (l : Label) : Prop :=
  valid graph source l ∧ within budget l ∧ simple l ∧
  chain_covered ss l ∧ pred_in T l ∧ l ∉ T.

(** What holds of the stores during the exhaustive enumeration: the
    retained labels are simple paths within the budget, each store is an
    antichain, and the zero vector is covered at the source. *)
Definition sound (graph : WCGraph) (source budget : Z) (ss : stores) : Prop :=
  (∀ u e, e ∈ store_of ss u →
     valid graph source (label e) ∧ node_of (label e) = u ∧
     within budget (label e) ∧ simple (label e)) ∧
  (∀ u, antichain (frontier ss u)) ∧
  covered ss source (0, 0).

(** A property of label stores holds of the store of every node. *)
Definition everywhere (Q : LabelStore → Prop) (ss : stores) : Prop :=
  ∀ u, Q (store_of ss u).

End LabelAlgorithm.

(** ** Facts about [get_nodes] *)

Section get_nodes_facts.

Lemma elem_of_append_new nodes n x :
  x ∈ append_new nodes n ↔ x ∈ nodes ∨ x = n.
Proof.
  unfold append_new. case_decide as Hin.
  - split; [by left | intros [?| ->]; done].
  - rewrite elem_of_app, list_elem_of_singleton. done.
Qed.

Lemma NoDup_append_new nodes n : NoDup nodes → NoDup (append_new nodes n).
Proof.
  intros Hnd. unfold append_new. case_decide as Hin; [done|].
  apply NoDup_app. split_and!; [done| |apply NoDup_singleton].
  intros x Hx ->%list_elem_of_singleton. done.
Qed.

Lemma elem_of_scan_edge nodes e x :
  x ∈ scan_edge nodes e ↔ x ∈ nodes ∨ x = e.1 ∨ x = e.2.
Proof. unfold scan_edge. rewrite !elem_of_append_new. tauto. Qed.

Lemma NoDup_scan_edge nodes e : NoDup nodes → NoDup (scan_edge nodes e).
Proof. intros. by do 2 apply NoDup_append_new. Qed.

Lemma elem_of_foldl_scan edges : ∀ acc x,
  x ∈ foldl scan_edge acc edges ↔ x ∈ acc ∨ endpoint edges x.
Proof.
  induction edges as [|e edges IH]; intros acc x; simpl.
  - split; [by left|]. intros [?|(e & He & _)]; [done|]. by apply elem_of_nil in He.
  - rewrite IH, elem_of_scan_edge. split.
    + intros [[?|Hx]|(e' & He' & Hx)].
      * by left.
      * right. exists e. split; [left|done].
      * right. exists e'. split; [by right|done].
    + intros [?|(e' & He' & Hx)]; [by left; left|].
      apply elem_of_cons in He' as [->|He'].
      * left; right; done.
      * right. by exists e'.
Qed.

Lemma NoDup_foldl_scan edges : ∀ acc,
  NoDup acc → NoDup (foldl scan_edge acc edges).
Proof.
  induction edges as [|e edges IH]; intros acc Hacc; simpl; [done|].
  by apply IH, NoDup_scan_edge.
Qed.

Lemma elem_of_collect_nodes edges x :
  x ∈ collect_nodes edges ↔ endpoint edges x.
Proof.
  unfold collect_nodes. rewrite elem_of_foldl_scan.
  split; [intros [H|H]; [by apply elem_of_nil in H|done] | by right].
Qed.

Lemma elem_of_get_nodes edges x : x ∈ get_nodes edges ↔ endpoint edges x.
Proof.
  unfold get_nodes. rewrite merge_sort_Permutation. apply elem_of_collect_nodes.
Qed.

Lemma NoDup_get_nodes edges : NoDup (get_nodes edges).
Proof.
  unfold get_nodes. rewrite merge_sort_Permutation.
  apply NoDup_foldl_scan, NoDup_nil_2.
Qed.

Lemma get_nodes_nil_iff edges : get_nodes edges = [] ↔ edges = [].
Proof.
  split; [|by intros ->].
  destruct edges as [|e edges]; [done|]. intros Hnil.
  assert (e.1 ∈ get_nodes (e :: edges)) as Hin.
  { apply elem_of_get_nodes. exists e. split; [left|by left]. }
  rewrite Hnil in Hin. by apply elem_of_nil in Hin.
Qed.

End get_nodes_facts.

(** C5. [Graph.get_nodes edges] lists exactly the node identifiers that are
    the origin or the target of some edge of the list: it has no duplicate,
    so each such identifier appears exactly once, and it is in ascending
    order. *)
Theorem get_nodes_distinct_endpoints (edges : list edge) :
  NoDup (get_nodes edges) ∧
  (∀ n, n ∈ get_nodes edges ↔ endpoint edges n) ∧
  Sorted Z.le (get_nodes edges).
Proof.
  split_and!.
  - apply NoDup_get_nodes.
  - intros n. apply elem_of_get_nodes.
  - apply (Sorted_merge_sort Z.le).
Qed.

(** ** The connection matrix *)

Section connection_matrix_facts.

Lemma square_zeros n : np.square n (np.zeros n).
Proof.
  split; [apply length_replicate|].
  apply Forall_replicate, length_replicate.
Qed.

Lemma index_lt n i r : np.index n i = Some r → (r < n)%nat.
Proof.
  unfold np.index. repeat case_decide; intros; simplify_eq; lia.
Qed.

Lemma index_in_range n i :
  - Z.of_nat n ≤ i < Z.of_nat n → is_Some (np.index n i).
Proof. intros Hi. unfold np.index. repeat case_decide; eauto; lia. Qed.

Lemma index_minus_one n :
  (0 < n)%nat → np.index n (0 - 1) = Some (n - 1)%nat.
Proof.
  intros Hn. unfold np.index. repeat case_decide; try lia. f_equal. lia.
Qed.

Lemma get_cell m i j r c :
  np.square (length m) m →
  np.index (length m) i = Some r → np.index (length m) j = Some c →
  np.get m i j = np.cell m r c.
Proof.
  intros [_ Hrows] Hi Hj. unfold np.get, np.cell. rewrite Hi. simpl.
  destruct (m !! r) as [row|] eqn:Hrow; simpl; [|done].
  rewrite (proj1 (Forall_lookup _ _) Hrows r row Hrow), Hj. done.
Qed.

Lemma set_spec n m i j v m' :
  np.square n m → np.set m i j v = Some m' →
  np.square n m' ∧
  ∃ r c, np.index n i = Some r ∧ np.index n j = Some c ∧
    np.cell m' r c = Some v ∧
    ∀ r' c', (r', c') ≠ (r, c) → np.cell m' r' c' = np.cell m r' c'.
Proof.
  intros [Hlen Hrows] Hset. unfold np.set in Hset. rewrite Hlen in Hset.
  destruct (np.index n i) as [r|] eqn:Hr; simpl in Hset; [|done].
  destruct (m !! r) as [row|] eqn:Hrow; simpl in Hset; [|done].
  pose proof (proj1 (Forall_lookup _ _) Hrows r row Hrow) as Hrowlen.
  simpl in Hrowlen. rewrite Hrowlen in Hset.
  destruct (np.index n j) as [c|] eqn:Hc; simpl in Hset; [|done].
  injection Hset as <-.
  pose proof (index_lt _ _ _ Hr) as Hrn. pose proof (index_lt _ _ _ Hc) as Hcn.
  split.
  - split; [by rewrite length_insert|].
    apply Forall_insert; [done|]. by rewrite length_insert.
  - exists r, c. split_and!; [done|done| |].
    + unfold np.cell. rewrite list_lookup_insert_eq by lia. simpl.
      apply list_lookup_insert_eq. lia.
    + intros r' c' Hne. unfold np.cell.
      destruct (decide (r' = r)) as [->|Hrr].
      * rewrite list_lookup_insert_eq by lia. rewrite Hrow. simpl.
        apply list_lookup_insert_ne. congruence.
      * by rewrite list_lookup_insert_ne.
Qed.

(** A written 1 is never erased: the loop only writes 1. *)
Lemma mark_edges_spec n edges : ∀ m M,
  np.square n m → mark_edges m edges = Some M →
  np.square n M ∧
  (∀ r c, np.cell m r c = Some 1 → np.cell M r c = Some 1) ∧
  (∀ a b, (a, b) ∈ edges →
     ∃ r c, np.index n (a - 1) = Some r ∧ np.index n (b - 1) = Some c ∧
       np.cell M r c = Some 1).
Proof.
  induction edges as [|e edges IH]; intros m M Hsq Hrun; simpl in Hrun.
  - simplify_eq. split_and!; [done|done|]. intros a b Hin. by apply elem_of_nil in Hin.
  - destruct (np.set m (e.1 - 1) (e.2 - 1) 1) as [m'|] eqn:Hset; simpl in Hrun; [|done].
    destruct (set_spec _ _ _ _ _ _ Hsq Hset) as (Hsq' & r & c & Hr & Hc & Hrc & Hother).
    destruct (IH _ _ Hsq' Hrun) as (HsqM & Hkeep & Hedges).
    split_and!; [done| |].
    + intros r' c' Hone. apply Hkeep.
      destruct (decide ((r', c') = (r, c))) as [[= -> ->]|Hne]; [done|].
      by rewrite Hother.
    + intros a b [<-|Hin]%elem_of_cons.
      * exists r, c. simpl in *. split_and!; [done|done|]. by apply Hkeep.
      * by apply Hedges.
Qed.

Lemma mark_edges_total n edges : ∀ m,
  np.square n m →
  Forall (λ e : edge, - Z.of_nat n ≤ e.1 - 1 < Z.of_nat n ∧
                      - Z.of_nat n ≤ e.2 - 1 < Z.of_nat n) edges →
  is_Some (mark_edges m edges).
Proof.
  induction edges as [|e edges IH]; intros m Hsq Hall; simpl; [eauto|].
  apply Forall_cons in Hall as [[H1 H2] Hall].
  assert (is_Some (np.set m (e.1 - 1) (e.2 - 1) 1)) as [m' Hset].
  { destruct Hsq as [Hlen Hrows]. unfold np.set. rewrite Hlen.
    destruct (index_in_range n _ H1) as [r Hr]. rewrite Hr. simpl.
    destruct (lookup_lt_is_Some_2 m r) as [row Hrow].
    { rewrite Hlen. by eapply index_lt. }
    rewrite Hrow. simpl.
    rewrite (proj1 (Forall_lookup _ _) Hrows r row Hrow).
    destruct (index_in_range n _ H2) as [c Hc]. rewrite Hc. simpl. eauto. }
  rewrite Hset. simpl. apply IH; [|done].
  by destruct (set_spec _ _ _ _ _ _ Hsq Hset).
Qed.

Lemma endpoint_nodes_pos edges x :
  endpoint edges x → (0 < length (get_nodes edges))%nat.
Proof.
  intros Hx%elem_of_get_nodes.
  destruct (get_nodes edges); [by apply elem_of_nil in Hx|simpl; lia].
Qed.

End connection_matrix_facts.

(** C9. Whenever [_initialize_connection_matrix] builds a matrix, the cell
    [connection_matrix[a-1][b-1]] reads 1 for every edge [(a, b)] of the
    list.  For the node identifier 0 the index [-1] is accepted and denotes
    the last row or column, the one of index [n - 1] for [n] nodes.  So on a
    graph whose identifiers are [0 .. n-1] the matrix is built, the edges
    leaving node 0 are marked in its last row and the edges entering node 0
    in its last column. *)
Theorem connection_matrix_zero_wraps (edges : list edge) :
  let n := length (get_nodes edges) in
  (∀ M, _initialize_connection_matrix edges = Some M →
     ∀ a b, (a, b) ∈ edges → np.get M (a - 1) (b - 1) = Some 1) ∧
  (endpoint edges 0 → np.index n (0 - 1) = Some (n - 1)%nat) ∧
  (Forall (λ x, 0 ≤ x < Z.of_nat n) (get_nodes edges) →
     ∃ M, _initialize_connection_matrix edges = Some M ∧
       (∀ b, (0, b) ∈ edges →
          ∃ c, np.index n (b - 1) = Some c ∧ np.cell M (n - 1) c = Some 1) ∧
       (∀ a, (a, 0) ∈ edges →
          ∃ r, np.index n (a - 1) = Some r ∧ np.cell M r (n - 1) = Some 1)).
Proof.
  intros n.
  assert (∀ M, _initialize_connection_matrix edges = Some M →
    np.square n M ∧ ∀ a b, (a, b) ∈ edges →
      ∃ r c, np.index n (a - 1) = Some r ∧ np.index n (b - 1) = Some c ∧
        np.cell M r c = Some 1) as Hspec.
  { intros M HM.
    destruct (mark_edges_spec n edges _ M (square_zeros n) HM) as (? & _ & ?).
    done. }
  assert (∀ a b, (a, b) ∈ edges → (0 < n)%nat) as Hpos.
  { intros a b Hin. apply (endpoint_nodes_pos edges a).
    exists (a, b). split; [done|by left]. }
  split_and!.
  - intros M HM a b Hin.
    destruct (Hspec M HM) as [Hsq Hcells].
    destruct (Hcells a b Hin) as (r & c & Hr & Hc & Hone).
    pose proof Hsq as [Hlen _]. rewrite <- Hone.
    apply get_cell; rewrite Hlen; done.
  - intros H0. apply index_minus_one. by eapply endpoint_nodes_pos.
  - intros Hbased.
    destruct (mark_edges_total n edges (np.zeros n) (square_zeros n)) as [M HM].
    { apply Forall_forall. intros [a b] Hin. simpl.
      assert (a ∈ get_nodes edges) as Ha.
      { apply elem_of_get_nodes. exists (a, b). split; [done|by left]. }
      assert (b ∈ get_nodes edges) as Hb.
      { apply elem_of_get_nodes. exists (a, b). split; [done|by right]. }
      pose proof (proj1 (Forall_forall _ _) Hbased a Ha).
      pose proof (proj1 (Forall_forall _ _) Hbased b Hb).
      simpl in *. lia. }
    exists M. split; [done|].
    destruct (Hspec M HM) as [_ Hcells]. split.
    + intros b Hin. destruct (Hcells 0 b Hin) as (r & c & Hr & Hc & Hone).
      rewrite index_minus_one in Hr by (by eapply Hpos).
      simplify_eq. eauto.
    + intros a Hin. destruct (Hcells a 0 Hin) as (r & c & Hr & Hc & Hone).
      rewrite index_minus_one in Hc by (by eapply Hpos).
      simplify_eq. eauto.
Qed.

(** The three parts at the edge list [(0,1); (1,2)]: node 0 is marked in
    row 2, the last of the three. *)
Lemma connection_matrix_zero_wraps_witness :
  np.index 3 (0 - 1) = Some 2%nat ∧
  ∃ M, _initialize_connection_matrix [(0, 1); (1, 2)] = Some M ∧
    np.get M (0 - 1) (1 - 1) = Some 1 ∧ np.cell M 2 0 = Some 1.
Proof.
  destruct (connection_matrix_zero_wraps [(0, 1); (1, 2)]) as (Hget & Hidx & Hbased).
  split.
  - apply Hidx. exists (0, 1). split; [left|by left].
  - destruct Hbased as (M & HM & Hrow & _).
    { vm_compute. repeat constructor; discriminate. }
    exists M. split_and!; [done| |].
    + apply (Hget M HM). left.
    + destruct (Hrow 1) as (c & Hc & Hone); [left|].
      vm_compute in Hc. by simplify_eq.
Defined.

(** ** The networkx graph of an edge list *)

Section networkx_facts.

Lemma nx_empty_wf : nx.wf nx.empty.
Proof.
  split; [apply NoDup_nil_2|]. intros n. simpl. split.
  - intros H. by apply elem_of_nil in H.
  - rewrite lookup_empty. by intros [? ?].
Qed.

Lemma nx_add_node_spec G n :
  nx.wf G →
  nx.wf (nx.add_node G n) ∧
  (∀ x, x ∈ nx._node (nx.add_node G n) ↔ x ∈ nx._node G ∨ x = n) ∧
  (∀ u, nx.successors (nx.add_node G n) u = nx.successors G u).
Proof.
  intros [Hnd Hdom]. unfold nx.add_node. case_decide as Hin.
  - split_and!; [done| |done]. intros x. split; [by left|]. by intros [?| ->].
  - assert (nx._succ G !! n = None) as Hnone.
    { apply eq_None_not_Some. by rewrite <- Hdom. }
    split_and!.
    + split; simpl.
      * apply NoDup_app. split_and!; [done| |apply NoDup_singleton].
        intros x Hx ->%list_elem_of_singleton. done.
      * intros x. rewrite elem_of_app, list_elem_of_singleton, lookup_insert_is_Some, Hdom.
        destruct (decide (n = x)); intuition congruence.
    + intros x. simpl. by rewrite elem_of_app, list_elem_of_singleton.
    + intros u. unfold nx.successors. simpl.
      destruct (decide (n = u)) as [->|Hne].
      * by rewrite lookup_insert_eq, Hnone.
      * by rewrite lookup_insert_ne.
Qed.

Lemma nx_append_new_elem l x y : y ∈ nx.append_new l x ↔ y ∈ l ∨ y = x.
Proof.
  unfold nx.append_new. case_decide.
  - split; [by left|]. by intros [?| ->].
  - by rewrite elem_of_app, list_elem_of_singleton.
Qed.

Lemma nx_add_edge_spec G e :
  nx.wf G →
  nx.wf (nx.add_edge G e) ∧
  (∀ x, x ∈ nx._node (nx.add_edge G e) ↔ x ∈ nx._node G ∨ x = e.1 ∨ x = e.2) ∧
  (∀ u v, v ∈ nx.successors (nx.add_edge G e) u ↔
     v ∈ nx.successors G u ∨ (u = e.1 ∧ v = e.2)).
Proof.
  intros Hwf.
  destruct (nx_add_node_spec G e.1 Hwf) as (Hwf1 & Hn1 & Hs1).
  destruct (nx_add_node_spec _ e.2 Hwf1) as ([Hnd2 Hdom2] & Hn2 & Hs2).
  unfold nx.add_edge. set (G2 := nx.add_node (nx.add_node G e.1) e.2) in *.
  split_and!.
  - split; simpl; [done|]. intros n. rewrite Hdom2.
    rewrite lookup_alter. case_decide; [subst|done].
    by rewrite fmap_is_Some.
  - intros x. simpl. rewrite Hn2, Hn1. tauto.
  - intros u v. unfold nx.successors at 1. simpl.
    rewrite <- Hs1, <- Hs2. unfold nx.successors.
    rewrite lookup_alter. case_decide as Hu.
    + subst u.
      assert (is_Some (nx._succ G2 !! e.1)) as [l Hl].
      { apply Hdom2, Hn2. left. apply Hn1. by right. }
      rewrite Hl. simpl. rewrite nx_append_new_elem. intuition congruence.
    + intuition congruence.
Qed.

Lemma nx_add_nodes_from_spec ns : ∀ G,
  nx.wf G →
  nx.wf (nx.add_nodes_from G ns) ∧
  (∀ x, x ∈ nx._node (nx.add_nodes_from G ns) ↔ x ∈ nx._node G ∨ x ∈ ns) ∧
  (∀ u, nx.successors (nx.add_nodes_from G ns) u = nx.successors G u).
Proof.
  unfold nx.add_nodes_from.
  induction ns as [|n ns IH]; intros G Hwf; simpl.
  - split_and!; [done| |done]. intros x. rewrite elem_of_nil. tauto.
  - destruct (nx_add_node_spec G n Hwf) as (Hwf1 & Hn1 & Hs1).
    destruct (IH _ Hwf1) as (Hwf2 & Hn2 & Hs2).
    split_and!; [done| |].
    + intros x. rewrite Hn2, Hn1, elem_of_cons. tauto.
    + intros u. by rewrite Hs2, Hs1.
Qed.

Lemma nx_add_edges_from_spec es : ∀ G,
  nx.wf G →
  nx.wf (nx.add_edges_from G es) ∧
  (∀ x, x ∈ nx._node (nx.add_edges_from G es) ↔
     x ∈ nx._node G ∨ endpoint es x) ∧
  (∀ u v, v ∈ nx.successors (nx.add_edges_from G es) u ↔
     v ∈ nx.successors G u ∨ (u, v) ∈ es).
Proof.
  unfold nx.add_edges_from.
  induction es as [|e es IH]; intros G Hwf; simpl.
  - split_and!; [done| |].
    + intros x. split; [by left|]. intros [?|(e & He & _)]; [done|].
      by apply elem_of_nil in He.
    + intros u v. rewrite elem_of_nil. tauto.
  - destruct (nx_add_edge_spec G e Hwf) as (Hwf1 & Hn1 & Hs1).
    destruct (IH _ Hwf1) as (Hwf2 & Hn2 & Hs2).
    split_and!; [done| |].
    + intros x. rewrite Hn2, Hn1. split.
      * intros [[?|Hx]|(e' & He' & Hx)]; [by left| |].
        -- right. exists e. split; [left|done].
        -- right. exists e'. split; [by right|done].
      * intros [?|(e' & [->|He']%elem_of_cons & Hx)]; [by left; left| |].
        -- by left; right.
        -- right. by exists e'.
    + intros u v. rewrite Hs2, Hs1, elem_of_cons. destruct e as [a b]. simpl.
      split; [intros [[?|[-> ->]]|?]|intros [?|[[= -> ->]|?]]]; tauto.
Qed.

(** The graph that the constructor builds. *)
Lemma networkx_graph_spec edges :
  let G := _initialize_networkx_graph edges in
  nx.wf G ∧
  (∀ x, x ∈ nx._node G ↔ x ∈ get_nodes edges) ∧
  nx.number_of_nodes G = length (get_nodes edges) ∧
  (∀ u v, v ∈ nx.successors G u ↔ (u, v) ∈ edges).
Proof.
  intros G. unfold G, _initialize_networkx_graph.
  destruct (nx_add_nodes_from_spec (get_nodes edges) nx.empty nx_empty_wf)
    as (Hwf1 & Hn1 & Hs1).
  destruct (nx_add_edges_from_spec edges _ Hwf1) as (Hwf2 & Hn2 & Hs2).
  assert (∀ x, x ∈ nx._node (nx.add_edges_from
            (nx.add_nodes_from nx.empty (get_nodes edges)) edges)
          ↔ x ∈ get_nodes edges) as Hnodes.
  { intros x. rewrite Hn2, Hn1. simpl. rewrite elem_of_nil, elem_of_get_nodes. tauto. }
  split_and!; [done|done| |].
  - unfold nx.number_of_nodes. apply Permutation_length.
    apply NoDup_Permutation; [apply Hwf2|apply NoDup_get_nodes|done].
  - intros u v. rewrite Hs2, Hs1. unfold nx.successors. simpl.
    rewrite lookup_empty. simpl. rewrite elem_of_nil. tauto.
Qed.

End networkx_facts.

(** ** The search for simple paths *)

Section search_facts.

Context (G : nx.DiGraph) (edges : list edge).
Hypothesis Hsucc : ∀ u v, v ∈ nx.successors G u ↔ (u, v) ∈ edges.

(** Every path that the search yields extends the current path by a walk
    from [next_node] to the target. *)
Lemma search_sound target room : ∀ path u q,
  NoDup (path ++ [u]) →
  q ∈ nx.search G target room path u →
  ∃ p', q = path ++ u :: p' ∧ NoDup q ∧ walk edges (u :: p') ∧
        last (u :: p') = Some target.
Proof.
  induction room as [|room IH]; intros path u q Hnd Hq; simpl in Hq.
  - rewrite app_nil_r in Hq. case_decide as Hu; [|by apply elem_of_nil in Hq].
    apply list_elem_of_singleton in Hq as ->. subst u.
    exists []. split_and!; [done|done|constructor|done].
  - apply elem_of_app in Hq as [Hq|Hq].
    + case_decide as Hu; [|by apply elem_of_nil in Hq].
      apply list_elem_of_singleton in Hq as ->. subst u.
      exists []. split_and!; [done|done|constructor|done].
    + case_decide as Hgo; [|by apply elem_of_nil in Hq].
      apply list_elem_of_In, in_flat_map in Hq as (v & Hv & Hq).
      apply list_elem_of_In in Hv, Hq.
      case_decide as Hvis; [by apply elem_of_nil in Hq|].
      destruct (IH (path ++ [u]) v q) as (p' & -> & Hndq & Hwalk & Hlast).
      { apply NoDup_app. split_and!; [done| |apply NoDup_singleton].
        intros x Hx ->%list_elem_of_singleton. done. }
      { done. }
      exists (v :: p'). split_and!.
      * by rewrite <- app_assoc.
      * done.
      * constructor; [by apply Hsucc|done].
      * done.
Qed.

(** Every such extension within the room left is yielded. *)
Lemma search_complete target : ∀ p' room path u,
  NoDup (path ++ u :: p') → walk edges (u :: p') →
  last (u :: p') = Some target → (length p' ≤ room)%nat →
  path ++ u :: p' ∈ nx.search G target room path u.
Proof.
  induction p' as [|v p' IH]; intros room path u Hnd Hwalk Hlast Hroom.
  - simpl in Hlast. injection Hlast as ->.
    destruct room; simpl; rewrite decide_True by done; apply elem_of_app; left; left.
  - destruct room as [|room]; [simpl in Hroom; lia|]. simpl.
    assert (target ∈ v :: p') as Htp.
    { change (last (u :: v :: p')) with (last (v :: p')) in Hlast.
      apply last_Some in Hlast as [l' ->]. apply elem_of_app. right. left. }
    apply NoDup_app in Hnd as (Hnd1 & Hdisj & Hnd2).
    apply NoDup_cons in Hnd2 as [Hu Hnd2].
    apply elem_of_app. right.
    rewrite decide_True.
    2:{ split.
        - intros Ht. apply (Hdisj _ Ht). by right.
        - intros ->. done. }
    apply list_elem_of_In, in_flat_map. exists v.
    inversion Hwalk as [|? ? ? Hedge Hwalk']; subst.
    split; [by apply list_elem_of_In, Hsucc|].
    apply list_elem_of_In.
    rewrite decide_False.
    2:{ intros [Hv| ->%list_elem_of_singleton]%elem_of_app.
        - apply (Hdisj _ Hv). right. left.
        - apply Hu. left. }
    replace (path ++ u :: v :: p') with ((path ++ [u]) ++ v :: p')
      by (by rewrite <- app_assoc).
    apply IH.
    + rewrite <- app_assoc. simpl. apply NoDup_app. split_and!; [done|done|].
      by apply NoDup_cons.
    + done.
    + done.
    + simpl in Hroom. lia.
Qed.

End search_facts.

(** ** get_simple_paths *)

Section get_simple_paths_facts.

Lemma init_members edges self :
  __init__ edges = Some self →
  Graph.edges self = edges ∧
  networkx_graph self = _initialize_networkx_graph edges.
Proof.
  unfold __init__. intros Hinit.
  destruct (_initialize_connection_matrix edges); simpl in Hinit; [|done].
  by injection Hinit as <-.
Qed.

Lemma walk_nodes edges p :
  walk edges p → ∀ u, head p = Some u → u ∈ get_nodes edges →
  Forall (λ x, x ∈ get_nodes edges) p.
Proof.
  induction 1 as [x|x y p Hedge Hwalk IH]; intros u Hhead Hu;
    simpl in Hhead; injection Hhead as ->.
  - by repeat constructor.
  - constructor; [done|]. apply (IH y); [done|].
    apply elem_of_get_nodes. exists (u, y). split; [done|by right].
Qed.

Lemma simple_path_length edges s t p :
  simple_path edges s t p → (length p ≤ length (get_nodes edges))%nat.
Proof.
  intros (Hnodes & _ & _ & Hnd & _).
  apply submseteq_length, NoDup_submseteq; [done|].
  intros x Hx. by apply (proj1 (Forall_forall _ _) Hnodes).
Qed.

Lemma simple_path_ends edges s t p :
  simple_path edges s t p → s ∈ get_nodes edges ∧ t ∈ get_nodes edges.
Proof.
  intros (Hnodes & Hhead & Hlast & _).
  rewrite Forall_forall in Hnodes. split; apply Hnodes.
  - destruct p; simplify_eq/=. left.
  - apply last_Some in Hlast as [l' ->]. apply elem_of_app. right. left.
Qed.

(** What the library call returns on the graph of a constructed object. *)
Lemma all_simple_paths_spec edges source target :
  match nx.iterate (nx.all_simple_paths (_initialize_networkx_graph edges)
                      source target) with
  | nx.Ok paths => ∀ p, p ∈ paths ↔ simple_path edges source target p
  | nx.NodeNotFound =>
      (source ∉ get_nodes edges ∨ target ∉ get_nodes edges) ∧
      ∀ p, ¬ simple_path edges source target p
  end.
Proof.
  destruct (networkx_graph_spec edges) as (Hwf & Hnodes & Hlen & Hsucc).
  unfold nx.iterate. simpl.
  case_decide as Hs; [case_decide as Ht|].
  - intros p. split.
    + intros Hp.
      destruct (search_sound _ edges Hsucc target _ [] source p
                  (NoDup_singleton _) Hp) as (p' & -> & Hnd & Hwalk & Hlast).
      split_and!; [|done|done|done|done].
      apply (walk_nodes edges _ Hwalk source); [done|]. by apply Hnodes.
    + intros Hp. pose proof (simple_path_length _ _ _ _ Hp) as Hlenp.
      destruct Hp as (_ & Hhead & Hlast & Hnd & Hwalk).
      destruct p as [|u p']; simplify_eq/=.
      apply (search_complete _ edges Hsucc target p' _ [] source); [done..|].
      rewrite Hlen. lia.
  - split; [right; by rewrite <- Hnodes|].
    intros p [_ Hin]%simple_path_ends. by apply Ht, Hnodes.
  - split; [left; by rewrite <- Hnodes|].
    intros p [Hin _]%simple_path_ends. by apply Hs, Hnodes.
Qed.

End get_simple_paths_facts.

(** X17. On a constructed graph, the paths that the object returned by
    [get_simple_paths(source_node, destination_node)] yields are exactly
    the simple paths of the graph from [source_node] to the destination
    searched for, which is [destination_node] itself when it is neither
    [None] nor 0 and [len(get_nodes(edges)) - 1] otherwise: each one is a
    sequence of nodes that starts at the source, ends at that destination,
    repeats no node and follows edges, and every such sequence is yielded.
    When the iteration fails instead there is no such path at all. *)
Theorem get_simple_paths_exact (edges : list edge) (self : Graph.t)
    (source_node : Z) (destination_node : option Z) :
  __init__ edges = Some self →
  match iterate (get_simple_paths self source_node destination_node) with
  | nx.Ok paths =>
      ∀ p, p ∈ paths ↔
        simple_path edges source_node (destination_of self destination_node) p
  | nx.NodeNotFound =>
      ∀ p, ¬ simple_path edges source_node (destination_of self destination_node) p
  end.
Proof.
  intros [Hedges HG]%init_members. unfold get_simple_paths. rewrite HG.
  case_decide as Hnonempty; simpl.
  - pose proof (all_simple_paths_spec edges source_node
                  (destination_of self destination_node)) as Hspec.
    destruct (nx.iterate _); [done|]. by destruct Hspec.
  - intros p. split; [intros Hp; by apply elem_of_nil in Hp|].
    intros [Hs _]%simple_path_ends.
    destruct (networkx_graph_spec edges) as (_ & _ & Hlen & _).
    rewrite Hlen in Hnonempty.
    destruct (get_nodes edges); [by apply elem_of_nil in Hs|].
    simpl in Hnonempty. lia.
Qed.

(** A triangle: the two paths from node 0 to node 2. *)
Lemma get_simple_paths_exact_witness :
  ∃ self, __init__ [(0, 1); (1, 2); (0, 2)] = Some self ∧
    iterate (get_simple_paths self 0 (Some 2)) = nx.Ok [[0; 1; 2]; [0; 2]] ∧
    simple_path [(0, 1); (1, 2); (0, 2)] 0 2 [0; 1; 2].
Proof.
  destruct (__init__ [(0, 1); (1, 2); (0, 2)]) as [self|] eqn:Hinit;
    [|vm_compute in Hinit; discriminate].
  exists self. split; [reflexivity|].
  pose proof (get_simple_paths_exact _ self 0 (Some 2) Hinit) as Hexact.
  assert (iterate (get_simple_paths self 0 (Some 2))
            = nx.Ok [[0; 1; 2]; [0; 2]]) as Hrun.
  { vm_compute in Hinit. injection Hinit as <-. vm_compute. reflexivity. }
  rewrite Hrun in Hexact. split; [done|].
  replace (destination_of self (Some 2)) with 2 in Hexact by reflexivity.
  apply Hexact. left.
Defined.

(** C6 fails on the code when the destination is node 0, which the test
    [if not destination_node] takes for a missing destination.  On the
    edges (1, 0) and (0, 2) the object returned by [get_simple_paths(1, 0)]
    yields the one path [1, 0, 2], which ends at node 2 and not at the
    destination 0, and it does not yield [1, 0], the simple path of the
    graph from node 1 to node 0. *)
Lemma get_simple_paths_misses_destination_zero :
  ∃ self, __init__ [(1, 0); (0, 2)] = Some self ∧
    iterate (get_simple_paths self 1 (Some 0)) = nx.Ok [[1; 0; 2]] ∧
    last [1; 0; 2] ≠ Some 0 ∧
    simple_path [(1, 0); (0, 2)] 1 0 [1; 0] ∧
    [1; 0] ∉ [[1; 0; 2]].
Proof.
  destruct (__init__ [(1, 0); (0, 2)]) as [self|] eqn:Hinit;
    [|vm_compute in Hinit; discriminate].
  exists self. split; [reflexivity|].
  vm_compute in Hinit. injection Hinit as <-. split_and!.
  - vm_compute. reflexivity.
  - discriminate.
  - replace (get_nodes [(1, 0); (0, 2)]) with [0; 1; 2]
      by (vm_compute; reflexivity).
    unfold simple_path. split_and!.
    + repeat constructor.
    + reflexivity.
    + reflexivity.
    + repeat constructor; intros Hin;
        repeat (apply elem_of_cons in Hin as [?|Hin]; [discriminate|]);
        by apply elem_of_nil in Hin.
    + constructor; [left|constructor].
  - intros Hin. apply list_elem_of_singleton in Hin. discriminate.
Qed.

(** C7, as the code has it.  [get_simple_paths] never fails at the call.
    On a graph with at least one edge it returns the generator object of
    networkx, which has examined no node yet; on a graph without edges it
    returns the empty list.  The typed failure [NodeNotFound] comes later,
    when the returned generator is iterated, and before any path is
    yielded: it is raised when [source_node] is not a node of the graph, and
    when a [destination_node] other than 0 is not a node of the graph.  The
    engine, as the specification describes it, does reject at the call: a
    run with a valid budget from a source outside the node universe ends
    with [UnknownNode] before any propagation, whatever the strategy, and
    so does the query of the frontier of a node outside the universe. *)
Theorem get_simple_paths_unknown_node (edges : list edge) (self : Graph.t)
    (source_node : Z) :
  __init__ edges = Some self →
  (edges ≠ [] →
     ∀ destination_node,
       get_simple_paths self source_node destination_node =
         paths_generator
           (nx.all_simple_paths (networkx_graph self) source_node
              (destination_of self destination_node))) ∧
  (edges ≠ [] → source_node ∉ get_nodes edges →
     ∀ destination_node,
       iterate (get_simple_paths self source_node destination_node)
         = nx.NodeNotFound) ∧
  (edges ≠ [] →
     ∀ d, d ≠ 0 → d ∉ get_nodes edges →
       iterate (get_simple_paths self source_node (Some d))
         = nx.NodeNotFound) ∧
  (edges = [] →
     ∀ destination_node,
       get_simple_paths self source_node destination_node = paths_list []) ∧
  (∀ (engine : LabelAlgorithm.t) strat graph budget fuel,
     0 ≤ budget → source_node ∉ LabelAlgorithm.nodes graph →
     LabelAlgorithm.run engine strat graph source_node budget fuel
       = inl LabelAlgorithm.UnknownNode) ∧
  (∀ (engine : LabelAlgorithm.t) graph,
     source_node ∉ LabelAlgorithm.nodes graph →
     LabelAlgorithm.frontier_of graph engine source_node
       = inl LabelAlgorithm.UnknownNode).
Proof.
  intros [Hedges HG]%init_members.
  destruct (networkx_graph_spec edges) as (_ & Hnodes & Hlen & _).
  assert (edges ≠ [] →
          nx.number_of_nodes (_initialize_networkx_graph edges) ≠ 0%nat) as Hne.
  { intros Hne. rewrite Hlen. intros Hz. apply Hne, get_nodes_nil_iff.
    by apply length_zero_iff_nil. }
  split_and!.
  - intros Hedge destination_node. unfold get_simple_paths. rewrite HG.
    by rewrite decide_True by auto.
  - intros Hedge Hs destination_node. unfold get_simple_paths. rewrite HG.
    rewrite decide_True by auto. unfold iterate, nx.iterate. simpl.
    rewrite decide_False; [done|]. by rewrite Hnodes.
  - intros Hedge d Hd0 Hd. unfold get_simple_paths. rewrite HG.
    rewrite decide_True by auto. unfold iterate, nx.iterate. simpl.
    unfold destination_of. rewrite (decide_False (P := d = 0)) by done.
    case_decide; [|done]. rewrite decide_False; [done|]. by rewrite Hnodes.
  - intros -> destination_node. unfold get_simple_paths. rewrite HG.
    rewrite decide_False; [done|]. vm_compute. lia.
  - intros engine strat graph budget fuel Hbudget Hs.
    unfold LabelAlgorithm.run, LabelAlgorithm.check.
    rewrite decide_False by lia. by rewrite decide_False.
  - intros engine graph Hs. unfold LabelAlgorithm.frontier_of.
    by rewrite decide_False.
Qed.

(** On the edge list [(1,2); (1,3)] the call with the source 7 returns a
    generator, and the source 7 and the destination 9 are both rejected
    when it is iterated; the engine rejects the source 7 on that graph. *)
Lemma get_simple_paths_unknown_node_witness :
  ∃ self, __init__ [(1, 2); (1, 3)] = Some self ∧
    get_simple_paths self 7 (Some 2) =
      paths_generator (nx.all_simple_paths (networkx_graph self) 7 2) ∧
    iterate (get_simple_paths self 7 (Some 2)) = nx.NodeNotFound ∧
    iterate (get_simple_paths self 1 (Some 9)) = nx.NodeNotFound ∧
    LabelAlgorithm.run (LabelAlgorithm.mk ∅) LabelAlgorithm.Setting
      [((1, 2), (1, 1)); ((1, 3), (2, 1))] 7 5 10
      = inl LabelAlgorithm.UnknownNode.
Proof.
  destruct (__init__ [(1, 2); (1, 3)]) as [self|] eqn:Hinit;
    [|vm_compute in Hinit; discriminate].
  exists self. split; [reflexivity|].
  destruct (get_simple_paths_unknown_node _ self 7 Hinit)
    as (Hcall & Hsrc & _ & _ & Hrun & _).
  destruct (get_simple_paths_unknown_node _ self 1 Hinit)
    as (_ & _ & Hdst & _).
  assert ((7 ∉ [1; 2; 3]) ∧ (9 ∉ [1; 2; 3])) as [H7 H9].
  { split; intros Hin;
      repeat (apply elem_of_cons in Hin as [?|Hin]; [discriminate|]);
      by apply elem_of_nil in Hin. }
  split_and!.
  - apply (Hcall ltac:(discriminate) (Some 2)).
  - apply Hsrc; [discriminate|]. by vm_compute.
  - apply Hdst; [discriminate|lia|]. by vm_compute.
  - apply Hrun; [lia|]. by vm_compute.
Defined.

(** C7 fails as stated.  On the edge list [(1,2); (1,3)] the source 7 is
    outside the node universe and the call is not rejected: it returns a
    generator, and the failure comes only when the generator is iterated.
    The graph without edges has no node, so the source 0 is outside its
    node universe, and the call returns the empty list of paths.  On the
    edge list [(1,2); (1,3)] the destination 0, which is not a node, is not
    rejected at all: the paths to node 2 are yielded. *)
Lemma get_simple_paths_unknown_node_counterexample :
  (∃ self g, __init__ [(1, 2); (1, 3)] = Some self ∧
     (7 ∉ get_nodes (Graph.edges self)) ∧
     get_simple_paths self 7 (Some 2) = paths_generator g ∧
     nx.iterate g = nx.NodeNotFound) ∧
  (∃ self, __init__ [] = Some self ∧ (0 ∉ get_nodes (Graph.edges self)) ∧
     get_simple_paths self 0 None = paths_list []) ∧
  (∃ self, __init__ [(1, 2); (1, 3)] = Some self ∧
     (0 ∉ get_nodes (Graph.edges self)) ∧
     iterate (get_simple_paths self 1 (Some 0)) = nx.Ok [[1; 2]]).
Proof.
  split_and!.
  - destruct (__init__ [(1, 2); (1, 3)]) as [self|] eqn:Hinit;
      [|vm_compute in Hinit; discriminate].
    exists self. eexists. split; [reflexivity|].
    vm_compute in Hinit. injection Hinit as <-. split_and!.
    + vm_compute. intros Hin.
      repeat (apply elem_of_cons in Hin as [?|Hin]; [discriminate|]).
      by apply elem_of_nil in Hin.
    + vm_compute. reflexivity.
    + vm_compute. reflexivity.
  - eexists. split; [reflexivity|]. split; [|reflexivity].
    simpl. vm_compute. intros Hin. by apply elem_of_nil in Hin.
  - destruct (__init__ [(1, 2); (1, 3)]) as [self|] eqn:Hinit;
      [|vm_compute in Hinit; discriminate].
    exists self. split; [reflexivity|].
    vm_compute in Hinit. injection Hinit as <-. split.
    + vm_compute. intros Hin.
      repeat (apply elem_of_cons in Hin as [?|Hin]; [discriminate|]).
      by apply elem_of_nil in Hin.
    + vm_compute. reflexivity.
Qed.

(** C8. With [destination_node = 0] the search is made for the node
    [len(get_nodes(edges)) - 1], exactly as with [destination_node = None]:
    the same object is returned, and every path that it yields ends at that
    node.  A destination other than 0 is searched for as it is given. *)
Theorem get_simple_paths_zero_destination (self : Graph.t) (source_node : Z) :
  let last_node := Z.of_nat (length (get_nodes (Graph.edges self))) - 1 in
  destination_of self (Some 0) = last_node ∧
  get_simple_paths self source_node (Some 0) =
    get_simple_paths self source_node None ∧
  get_simple_paths self source_node (Some 0) =
    (if decide (nx.number_of_nodes (networkx_graph self) ≠ 0%nat)
     then paths_generator
            (nx.all_simple_paths (networkx_graph self) source_node last_node)
     else paths_list []) ∧
  (∀ paths p,
     iterate (get_simple_paths self source_node (Some 0)) = nx.Ok paths →
     p ∈ paths → last p = Some last_node) ∧
  (∀ d, d ≠ 0 →
     destination_of self (Some d) = d ∧
     get_simple_paths self source_node (Some d) =
       (if decide (nx.number_of_nodes (networkx_graph self) ≠ 0%nat)
        then paths_generator
               (nx.all_simple_paths (networkx_graph self) source_node d)
        else paths_list [])).
Proof.
  intros last_node. split_and!; try reflexivity.
  - intros paths p Hrun Hp. unfold get_simple_paths in Hrun.
    change (destination_of self (Some 0)) with last_node in Hrun.
    case_decide; [|simpl in Hrun; simplify_eq; by apply elem_of_nil in Hp].
    unfold iterate, nx.iterate in Hrun. simpl in Hrun.
    repeat case_decide; simplify_eq.
    clear -Hp. revert Hp.
    generalize (nx.number_of_nodes (networkx_graph self) - 1)%nat.
    generalize (@nil Z) at 1 as path. generalize source_node as u.
    intros u path room. revert path u.
    induction room as [|room IH]; intros path u Hp; simpl in Hp.
    + rewrite app_nil_r in Hp. case_decide; [|by apply elem_of_nil in Hp].
      apply list_elem_of_singleton in Hp as ->. subst. apply last_snoc.
    + apply elem_of_app in Hp as [Hp|Hp].
      * case_decide; [|by apply elem_of_nil in Hp].
        apply list_elem_of_singleton in Hp as ->. subst. apply last_snoc.
      * case_decide; [|by apply elem_of_nil in Hp].
        apply list_elem_of_In, in_flat_map in Hp as (v & _ & Hp).
        apply list_elem_of_In in Hp.
        case_decide; [by apply elem_of_nil in Hp|]. by eapply IH.
  - intros d Hd. unfold get_simple_paths, destination_of.
    by rewrite (decide_False (P := d = 0)).
Qed.

(** The first test graph has the nodes 0 to 6: asking for node 0 gives the
    paths to node 6. *)
Lemma get_simple_paths_zero_destination_witness :
  ∃ self, __init__ [(0, 1); (1, 2); (0, 3); (1, 3); (1, 4); (2, 4); (3, 4);
                    (0, 2); (2, 3); (3, 5); (5, 6)] = Some self ∧
    iterate (get_simple_paths self 0 (Some 0)) =
      nx.Ok [[0; 1; 2; 3; 5; 6]; [0; 1; 3; 5; 6]; [0; 3; 5; 6]; [0; 2; 3; 5; 6]] ∧
    last [0; 3; 5; 6] = Some (Z.of_nat (length (get_nodes (Graph.edges self))) - 1).
Proof.
  destruct (__init__ [(0, 1); (1, 2); (0, 3); (1, 3); (1, 4); (2, 4); (3, 4);
                      (0, 2); (2, 3); (3, 5); (5, 6)]) as [self|] eqn:Hinit;
    [|vm_compute in Hinit; discriminate].
  exists self. split; [reflexivity|].
  destruct (get_simple_paths_zero_destination self 0) as (_ & _ & _ & Hlast & _).
  assert (iterate (get_simple_paths self 0 (Some 0)) =
    nx.Ok [[0; 1; 2; 3; 5; 6]; [0; 1; 3; 5; 6]; [0; 3; 5; 6]; [0; 2; 3; 5; 6]])
    as Hrun.
  { vm_compute in Hinit. injection Hinit as <-. vm_compute. reflexivity. }
  split; [done|].
  apply (Hlast _ _ Hrun). right. right. left.
Defined.

(** ** get_arbitrary_graph *)

Section arbitrary_graph_facts.

Lemma bind_ok {A B} (m : rnd.gen A) (k : A → rnd.gen B) tape pos a pos' :
  m tape pos = Some (a, pos') → rnd.bind m k tape pos = k a tape pos'.
Proof. intros Hm. unfold rnd.bind. by rewrite Hm. Qed.

Lemma randint_ok low high tape pos :
  low < high →
  ∃ v, rnd.randint low high tape pos = Some (v, S pos) ∧ low ≤ v < high.
Proof.
  intros Hlt. unfold rnd.randint. rewrite decide_True by done.
  eexists. split; [reflexivity|].
  pose proof (Z.mod_pos_bound (Z.of_nat (tape pos)) (high - low)). lia.
Qed.

Lemma sample_ok k : ∀ pop tape pos,
  (k ≤ length pop)%nat →
  ∃ l pos', rnd.sample pop k tape pos = Some (l, pos') ∧
    length l = k ∧ (∀ x, x ∈ l → x ∈ pop).
Proof.
  induction k as [|k IH]; intros pop tape pos Hk; simpl.
  - exists [], pos. split_and!; [done|done|]. intros x Hx. by apply elem_of_nil in Hx.
  - unfold rnd.bind at 1. simpl.
    set (i := (tape pos mod length pop)%nat).
    assert (i < length pop)%nat as Hi by (apply Nat.mod_upper_bound; lia).
    destruct (lookup_lt_is_Some_2 pop i Hi) as [x Hx]. rewrite Hx.
    destruct (IH (delete i pop) tape (S pos)) as (l & pos' & Hrun & Hlen & Hsub).
    { rewrite length_delete by eauto. lia. }
    exists (x :: l), pos'. split_and!.
    + by rewrite (bind_ok _ _ _ _ _ _ Hrun).
    + simpl. by rewrite Hlen.
    + intros y [->|Hy]%elem_of_cons.
      * by eapply list_elem_of_lookup_2.
      * apply Hsub in Hy. by eapply list_elem_of_delete_inv.
Qed.

Lemma choice_ok pop size tape pos :
  0 ≤ size ≤ Z.of_nat (length pop) →
  ∃ l pos', rnd.choice pop size tape pos = Some (l, pos') ∧
    Z.of_nat (length l) = size ∧ (∀ x, x ∈ l → x ∈ pop).
Proof.
  intros Hsize. unfold rnd.choice. rewrite decide_True by done.
  destruct (sample_ok (Z.to_nat size) pop tape pos) as (l & pos' & Hrun & Hlen & Hsub);
    [lia|].
  exists l, pos'. split_and!; [done|lia|done].
Qed.

(** The two library calls can return every value that their contract
    allows: some stream of draws gives it. *)
Lemma randint_reaches low high v tape pos :
  low ≤ v < high → tape pos = Z.to_nat (v - low) →
  rnd.randint low high tape pos = Some (v, S pos).
Proof.
  intros Hv Htape. unfold rnd.randint. rewrite decide_True by lia.
  unfold rnd.bind, rnd.draw, rnd.ret. rewrite Htape. do 2 f_equal.
  rewrite Z2Nat.id by lia. rewrite Z.mod_small by lia. lia.
Qed.

Lemma sample_reaches l : ∀ pop pos,
  NoDup pop → NoDup l → (∀ x, x ∈ l → x ∈ pop) →
  ∃ tape, ∀ tape',
    (∀ i, (pos ≤ i < pos + length l)%nat → tape' i = tape i) →
    rnd.sample pop (length l) tape' pos = Some (l, (pos + length l)%nat).
Proof.
  induction l as [|x l IH]; intros pop pos Hpop Hl Hsub.
  - exists (λ _, 0%nat). intros tape' _. simpl. unfold rnd.ret.
    by rewrite Nat.add_0_r.
  - apply NoDup_cons in Hl as [Hx Hl].
    destruct (proj1 (list_elem_of_lookup pop x)) as [i Hi]; [apply Hsub; left|].
    pose proof (lookup_lt_Some _ _ _ Hi) as Hlt.
    assert (NoDup (delete i pop)) as Hpop'.
    { eapply sublist_NoDup; [exact Hpop|apply sublist_delete]. }
    assert (∀ y, y ∈ l → y ∈ delete i pop) as Hsub'.
    { intros y Hy.
      destruct (proj1 (list_elem_of_lookup pop y)) as [j Hj];
        [apply Hsub; by right|].
      assert (j ≠ i) as Hne.
      { intros ->. rewrite Hi in Hj. injection Hj as ->. done. }
      apply list_elem_of_lookup.
      destruct (decide (j < i)%nat).
      - exists j. by rewrite list_lookup_delete_lt.
      - exists (pred j). rewrite list_lookup_delete_ge by lia.
        by replace (S (pred j)) with j by lia. }
    destruct (IH (delete i pop) (S pos) Hpop' Hl Hsub') as [tape Htape].
    exists (λ j, if decide (j = pos) then i else tape j).
    intros tape' Hagree. simpl. unfold rnd.bind at 1, rnd.draw.
    rewrite (Hagree pos) by (simpl; lia). rewrite decide_True by done.
    rewrite Nat.mod_small by done. rewrite Hi.
    unfold rnd.bind, rnd.ret. rewrite (Htape tape').
    + do 2 f_equal. simpl. lia.
    + intros j Hj. rewrite Hagree by (simpl; lia).
      by rewrite decide_False by lia.
Qed.

Lemma elem_of_range lo hi x : x ∈ range lo hi ↔ lo ≤ x < hi.
Proof.
  unfold range. rewrite list_elem_of_lookup. split.
  - intros [i Hi]. apply lookup_seqZ in Hi. lia.
  - intros Hx. exists (Z.to_nat (x - lo)). apply lookup_seqZ. lia.
Qed.

Lemma keys_dict_set d k v k' :
  k' ∈ keys (dict_set d k v) ↔ k' ∈ keys d ∨ k' = k.
Proof.
  unfold keys. induction d as [|[k0 v0] d IH]; simpl.
  - rewrite list_elem_of_singleton, elem_of_nil. tauto.
  - case_decide; simpl; rewrite !elem_of_cons; [subst|rewrite IH]; tauto.
Qed.

Lemma Forall_dict_set (P : (Z * Z) * (Z * Z) → Prop) d k v :
  Forall P d → P (k, v) → Forall P (dict_set d k v).
Proof.
  intros Hd Hkv. induction Hd as [|[k0 v0] d H0 Hd IH]; simpl.
  - by repeat constructor.
  - case_decide; constructor; done.
Qed.

Lemma foldl_dict_set_spec n i js : ∀ d,
  Forall (forward n) d → 0 ≤ i → (∀ j, j ∈ js → i < j < n) →
  let d' := foldl (λ d j, dict_set d (i, j) (0, 0)) d js in
  Forall (forward n) d' ∧
  ∀ k, k ∈ keys d' ↔ k ∈ keys d ∨ ∃ j, j ∈ js ∧ k = (i, j).
Proof.
  induction js as [|j js IH]; intros d Hd Hi Hjs; simpl.
  - split; [done|]. intros k. split; [by left|].
    intros [?|(j & Hj & _)]; [done|]. by apply elem_of_nil in Hj.
  - destruct (IH (dict_set d (i, j) (0, 0))) as [Hfw Hkeys].
    + apply Forall_dict_set; [done|]. unfold forward. simpl.
      pose proof (Hjs j ltac:(left)). split_and!; [lia..|done].
    + done.
    + intros j' Hj'. apply Hjs. by right.
    + split; [done|]. intros k. rewrite Hkeys, keys_dict_set. split.
      * intros [[?| ->]|(j' & Hj' & ->)]; [by left| |].
        -- right. exists j. split; [left|done].
        -- right. exists j'. split; [by right|done].
      * intros [?|(j' & [->|Hj']%elem_of_cons & ->)]; [by left; left| |].
        -- by left; right.
        -- right. by exists j'.
Qed.

(** One round succeeds whatever is drawn; it keeps the edges already there
    and adds at least one edge leaving [i], all of them forward. *)
Lemma arbitrary_round_ok n d i tape pos :
  Forall (forward n) d → 0 ≤ i ≤ n - 2 →
  ∃ d' pos', arbitrary_round n d i tape pos = Some (d', pos') ∧
    Forall (forward n) d' ∧
    (∀ k, k ∈ keys d → k ∈ keys d') ∧
    (∃ j, (i, j) ∈ keys d').
Proof.
  intros Hd Hi. unfold arbitrary_round.
  rewrite decide_True by lia.
  destruct (randint_ok 1 (n - i) tape pos) as (N_oe & HN & HNr); [lia|].
  rewrite (bind_ok _ _ _ _ _ _ HN).
  rewrite decide_True by lia.
  destruct (choice_ok (range (i + 1) n) N_oe tape (S pos))
    as (delta_o & pos1 & Hch & Hlen & Hsub).
  { unfold range. rewrite length_seqZ. lia. }
  rewrite (bind_ok _ _ _ _ _ _ Hch). cbv zeta.
  destruct (foldl_dict_set_spec n i delta_o d Hd) as [Hfw Hkeys]; [lia| |].
  { intros j Hj%Hsub%elem_of_range. lia. }
  set (d1 := foldl (λ d j, dict_set d (i, j) (0, 0)) d delta_o) in *.
  assert (∃ j, (i, j) ∈ keys d1) as [j Hj].
  { destruct delta_o as [|j delta_o]; [simpl in Hlen; lia|].
    exists j. apply Hkeys. right. exists j. split; [left|done]. }
  assert (∀ k, k ∈ keys d → k ∈ keys d1) as Hkeep.
  { intros k Hk. apply Hkeys. by left. }
  destruct (negb _ && bool_decide (i ≠ 0)) eqn:Hbranch.
  - apply andb_true_iff in Hbranch as [_ Hi0%bool_decide_eq_true].
    assert (∃ n_in pos2,
      (if decide (i > 1) then rnd.randint 0 (i - 1) else rnd.ret 0) tape pos1
        = Some (n_in, pos2) ∧ 0 ≤ n_in < i) as (n_in & pos2 & Hin & Hr).
    { case_decide.
      - destruct (randint_ok 0 (i - 1) tape pos1) as (v & Hv & Hvr); [lia|].
        exists v, (S pos1). split; [done|lia].
      - exists 0, pos1. split; [done|lia]. }
    rewrite (bind_ok _ _ _ _ _ _ Hin).
    exists (dict_set d1 (n_in, i) (0, 0)), pos2. split_and!.
    + done.
    + apply Forall_dict_set; [done|]. unfold forward. simpl.
      split_and!; [lia..|done].
    + intros k Hk. apply keys_dict_set. left. by apply Hkeep.
    + exists j. apply keys_dict_set. by left.
  - exists d1, pos1. split_and!; [done|done|done|by exists j].
Qed.

Lemma arbitrary_rounds_ok n nodes : ∀ d tape pos,
  Forall (forward n) d → Forall (λ i, 0 ≤ i ≤ n - 2) nodes →
  ∃ d' pos', arbitrary_rounds n d nodes tape pos = Some (d', pos') ∧
    Forall (forward n) d' ∧
    (∀ k, k ∈ keys d → k ∈ keys d') ∧
    (∀ i, i ∈ nodes → ∃ j, (i, j) ∈ keys d').
Proof.
  induction nodes as [|i nodes IH]; intros d tape pos Hd Hnodes; simpl.
  - exists d, pos. split_and!; [done|done|done|].
    intros i Hi. by apply elem_of_nil in Hi.
  - apply Forall_cons in Hnodes as [Hi Hnodes].
    destruct (arbitrary_round_ok n d i tape pos Hd Hi)
      as (d1 & pos1 & Hrun1 & Hfw1 & Hkeep1 & Hout1).
    destruct (IH d1 tape pos1 Hfw1 Hnodes)
      as (d2 & pos2 & Hrun2 & Hfw2 & Hkeep2 & Hout2).
    exists d2, pos2. split_and!.
    + by rewrite (bind_ok _ _ _ _ _ _ Hrun1).
    + done.
    + auto.
    + intros i' [->|Hi']%elem_of_cons; [|by apply Hout2].
      destruct Hout1 as [j Hj]. exists j. by apply Hkeep2.
Qed.

Lemma arbitrary_dict_ok n tape pos :
  ∃ d pos', arbitrary_dict n tape pos = Some (d, pos') ∧
    Forall (forward n) d ∧
    (∀ i, 0 ≤ i < n - 1 → ∃ j, (i, j) ∈ keys d).
Proof.
  destruct (arbitrary_rounds_ok n (range 0 (n - 1)) [] tape pos)
    as (d & pos' & Hrun & Hfw & _ & Hout).
  { constructor. }
  { apply Forall_forall. intros i Hi%elem_of_range. lia. }
  exists d, pos'. split_and!; [done|done|].
  intros i Hi. apply Hout, elem_of_range. lia.
Qed.

Lemma elem_of_keys (d : dict) k : k ∈ keys d ↔ ∃ v, (k, v) ∈ d.
Proof.
  unfold keys. rewrite list_elem_of_fmap. split.
  - intros ([k' v] & -> & Hin). by exists v.
  - intros [v Hin]. by exists (k, v).
Qed.

(** With forward edges only, and an edge leaving each node but the last,
    the nodes are exactly [0 .. n-1]. *)
Lemma forward_nodes n (d : dict) :
  2 ≤ n → Forall (forward n) d →
  (∀ i, 0 ≤ i < n - 1 → ∃ j, (i, j) ∈ keys d) →
  (∀ x, x ∈ get_nodes (keys d) ↔ 0 ≤ x < n) ∧
  length (get_nodes (keys d)) = Z.to_nat n.
Proof.
  intros Hn Hfw Hout.
  assert (∀ a b, (a, b) ∈ keys d → 0 ≤ a ∧ a < b ∧ b < n) as Hkey.
  { intros a b [v Hin]%elem_of_keys.
    destruct (proj1 (Forall_forall _ _) Hfw _ Hin) as (? & ? & ? & _). done. }
  assert (∀ x, x ∈ get_nodes (keys d) ↔ 0 ≤ x < n) as Hnodes.
  { intros x. rewrite elem_of_get_nodes. split.
    - intros ([a b] & Hin & Hx). apply Hkey in Hin. simpl in Hx. lia.
    - intros Hx. destruct (decide (x < n - 1)) as [Hlt|Hlast].
      + destruct (Hout x) as [j Hj]; [lia|]. exists (x, j). split; [done|by left].
      + destruct (Hout (n - 2)) as [j Hj]; [lia|]. exists (n - 2, j).
        split; [done|]. right. simpl. apply Hkey in Hj. lia. }
  split; [done|].
  rewrite <- (length_seqZ 0 n). apply Permutation_length.
  apply NoDup_Permutation; [apply NoDup_get_nodes|apply NoDup_seqZ|].
  intros x. rewrite Hnodes, <- (elem_of_range 0 n x). unfold range.
  by rewrite Z.sub_0_r.
Qed.

Lemma forward_init n (d : dict) :
  2 ≤ n → Forall (forward n) d →
  (∀ i, 0 ≤ i < n - 1 → ∃ j, (i, j) ∈ keys d) →
  ∃ g, __init__ (keys d) = Some g ∧ Graph.edges g = keys d.
Proof.
  intros Hn Hfw Hout.
  destruct (forward_nodes n d Hn Hfw Hout) as [Hnodes Hlen].
  unfold __init__, _initialize_connection_matrix, _gen_zero_n_square_matrix.
  destruct (mark_edges_total (length (get_nodes (keys d))) (keys d)
              (np.zeros _) (square_zeros _)) as [M HM].
  { apply Forall_forall. intros [a b] [v Hin]%elem_of_keys.
    destruct (proj1 (Forall_forall _ _) Hfw _ Hin) as (? & ? & ? & _).
    simpl in *. lia. }
  rewrite HM. simpl. eauto.
Qed.

Lemma increasing_NoDup (p : list Z) : StronglySorted Z.lt p → NoDup p.
Proof.
  induction 1 as [|x p _ IH Hall]; constructor; [|done].
  intros Hx. apply (proj1 (Forall_forall _ _) Hall) in Hx. lia.
Qed.

(** A walk along forward edges is strictly increasing. *)
Lemma forward_walk_increasing (edges : list edge) p :
  (∀ a b, (a, b) ∈ edges → a < b) →
  walk edges p → StronglySorted Z.lt p.
Proof.
  intros Hfw. induction 1 as [x|x y p Hedge Hwalk IH].
  - by repeat constructor.
  - constructor; [done|]. apply Hfw in Hedge.
    inversion IH as [|? ? _ Hall]; subst. constructor; [done|].
    eapply Forall_impl; [done|]. simpl. lia.
Qed.

End arbitrary_graph_facts.

(** C10. For every [n >= 2] and every stream of random draws,
    [get_arbitrary_graph(n)] builds its dictionary and its graph without
    error; every edge [(i, j)] of the dictionary has [i < j] and carries the
    vector (0, 0), so no walk of the graph visits a node twice: the graph
    has no cycle. *)
Theorem get_arbitrary_graph_forward (n : Z) (tape : nat → nat) (pos : nat) :
  2 ≤ n →
  ∃ graphDict g pos',
    arbitrary_dict n tape pos = Some (graphDict, pos') ∧
    get_arbitrary_graph n tape pos = Some (g, pos') ∧
    Graph.edges g = keys graphDict ∧
    (∀ i j v, ((i, j), v) ∈ graphDict → i < j ∧ v = (0, 0)) ∧
    (∀ p, walk (Graph.edges g) p → NoDup p).
Proof.
  intros Hn.
  destruct (arbitrary_dict_ok n tape pos) as (d & pos' & Hrun & Hfw & Hout).
  destruct (forward_init n d Hn Hfw Hout) as (g & Hinit & Hedges).
  exists d, g, pos'. split_and!.
  - done.
  - unfold get_arbitrary_graph. rewrite (bind_ok _ _ _ _ _ _ Hrun).
    by rewrite Hinit.
  - done.
  - intros i j v Hin.
    destruct (proj1 (Forall_forall _ _) Hfw _ Hin) as (? & ? & ? & ?). done.
  - intros p Hwalk. rewrite Hedges in Hwalk.
    apply increasing_NoDup.
    apply (forward_walk_increasing (keys d)); [|done].
    intros a b [v Hin]%elem_of_keys.
    by destruct (proj1 (Forall_forall _ _) Hfw _ Hin) as (? & ? & ? & ?).
Qed.

(** Three nodes, every draw equal to 0: the chain 0 -> 1 -> 2. *)
Lemma get_arbitrary_graph_forward_witness :
  arbitrary_dict 3 (λ _, 0%nat) 0%nat = Some ([((0, 1), (0, 0)); ((1, 2), (0, 0))], 4%nat) ∧
  ∃ graphDict g pos',
    arbitrary_dict 3 (λ _, 0%nat) 0%nat = Some (graphDict, pos') ∧
    get_arbitrary_graph 3 (λ _, 0%nat) 0%nat = Some (g, pos') ∧
    Graph.edges g = keys graphDict ∧
    (∀ i j v, ((i, j), v) ∈ graphDict → i < j ∧ v = (0, 0)) ∧
    (∀ p, walk (Graph.edges g) p → NoDup p).
Proof.
  split; [vm_compute; reflexivity|].
  apply (get_arbitrary_graph_forward 3 (λ _, 0%nat) 0%nat). lia.
Defined.

(** * Further properties of the graph model *)

(** ** More on [get_nodes] *)

Section get_nodes_more.

Lemma Sorted_get_nodes edges : Sorted Z.le (get_nodes edges).
Proof. apply (Sorted_merge_sort Z.le). Qed.

(** A sorted list without duplicates is determined by its members. *)
Lemma sorted_members_eq (l1 l2 : list Z) :
  Sorted Z.le l1 → Sorted Z.le l2 → NoDup l1 → NoDup l2 →
  (∀ x, x ∈ l1 ↔ x ∈ l2) → l1 = l2.
Proof.
  intros Hs1 Hs2 Hnd1 Hnd2 Hmem.
  apply (Sorted_unique Z.le); [done|done|].
  by apply NoDup_Permutation.
Qed.

Lemma length_append_new nodes n :
  (length (append_new nodes n) ≤ S (length nodes))%nat.
Proof.
  unfold append_new. case_decide; [lia|]. rewrite length_app. simpl. lia.
Qed.

Lemma length_foldl_scan edges : ∀ acc,
  (length (foldl scan_edge acc edges) ≤ length acc + 2 * length edges)%nat.
Proof.
  induction edges as [|e edges IH]; intros acc; simpl; [lia|].
  etrans; [apply IH|]. unfold scan_edge.
  pose proof (length_append_new (append_new acc e.1) e.2).
  pose proof (length_append_new acc e.1). lia.
Qed.

End get_nodes_more.

(** X1. [Graph.get_nodes] depends only on the set of the endpoints: two
    edge lists with the same endpoints give the same list of nodes, whatever
    the order, the direction or the repetition of their edges. *)
Theorem get_nodes_canonical (edges1 edges2 : list edge) :
  (∀ x, endpoint edges1 x ↔ endpoint edges2 x) →
  get_nodes edges1 = get_nodes edges2.
Proof.
  intros Hsame. apply sorted_members_eq.
  - apply Sorted_get_nodes.
  - apply Sorted_get_nodes.
  - apply NoDup_get_nodes.
  - apply NoDup_get_nodes.
  - intros x. by rewrite !elem_of_get_nodes.
Qed.

Lemma get_nodes_canonical_witness :
  get_nodes [(2, 1); (0, 1)] = get_nodes [(1, 0); (1, 2); (0, 2); (1, 0)] ∧
  get_nodes [(2, 1); (0, 1)] = [0; 1; 2].
Proof.
  split; [|vm_compute; reflexivity].
  apply (get_nodes_canonical [(2, 1); (0, 1)] [(1, 0); (1, 2); (0, 2); (1, 0)]).
  intros x. rewrite <- !elem_of_get_nodes.
  replace (get_nodes [(2, 1); (0, 1)]) with [0; 1; 2] by (vm_compute; reflexivity).
  by replace (get_nodes [(1, 0); (1, 2); (0, 2); (1, 0)]) with [0; 1; 2]
    by (vm_compute; reflexivity).
Defined.

(** X2. [Graph.get_nodes] returns the empty list exactly for the empty
    edge list; otherwise it has at least one node and at most two nodes for
    each edge. *)
Theorem get_nodes_size (edges : list edge) :
  (get_nodes edges = [] ↔ edges = []) ∧
  (length (get_nodes edges) ≤ 2 * length edges)%nat ∧
  (edges ≠ [] → (1 ≤ length (get_nodes edges))%nat).
Proof.
  split_and!.
  - apply get_nodes_nil_iff.
  - unfold get_nodes. rewrite merge_sort_Permutation.
    pose proof (length_foldl_scan edges []) as Hlen. simpl in Hlen. done.
  - intros Hne. destruct (get_nodes edges) eqn:Hnodes; [|simpl; lia].
    by apply get_nodes_nil_iff in Hnodes.
Qed.

(** ** More on the networkx graph of a constructed object *)

Section networkx_more.

Lemma nx_add_node_present G n : n ∈ nx._node G → nx.add_node G n = G.
Proof. intros Hin. unfold nx.add_node. by rewrite decide_True. Qed.

Lemma nx_add_node_fresh G n :
  n ∉ nx._node G → nx._node (nx.add_node G n) = nx._node G ++ [n].
Proof. intros Hin. unfold nx.add_node. by rewrite decide_False. Qed.

Lemma nx_add_nodes_from_nodes ns : ∀ G,
  NoDup (nx._node G ++ ns) →
  nx._node (nx.add_nodes_from G ns) = nx._node G ++ ns.
Proof.
  unfold nx.add_nodes_from.
  induction ns as [|n ns IH]; intros G Hnd; simpl.
  - by rewrite app_nil_r.
  - assert (n ∉ nx._node G) as Hfresh.
    { apply NoDup_app in Hnd as (_ & Hdisj & _). intros Hin.
      apply (Hdisj _ Hin). left. }
    rewrite IH; rewrite nx_add_node_fresh by done.
    + by rewrite <- app_assoc.
    + by rewrite <- app_assoc.
Qed.

Lemma nx_add_edge_present G e :
  nx.wf G → e.1 ∈ nx._node G → e.2 ∈ nx._node G →
  nx._node (nx.add_edge G e) = nx._node G ∧
  ∀ u, nx.successors (nx.add_edge G e) u =
       if decide (u = e.1) then nx.append_new (nx.successors G u) e.2
       else nx.successors G u.
Proof.
  intros [_ Hdom] H1 H2. unfold nx.add_edge.
  rewrite (nx_add_node_present G e.1 H1), (nx_add_node_present G e.2 H2).
  split; [done|]. intros u. unfold nx.successors. simpl.
  rewrite lookup_alter. case_decide as Hu.
  - subst u. rewrite decide_True by done.
    destruct (proj1 (Hdom e.1) H1) as [l Hl]. by rewrite Hl.
  - by rewrite decide_False by done.
Qed.

Lemma nx_add_edges_from_present es : ∀ G,
  nx.wf G → (∀ x, endpoint es x → x ∈ nx._node G) →
  nx._node (nx.add_edges_from G es) = nx._node G ∧
  ∀ u, nx.successors (nx.add_edges_from G es) u =
       foldl nx.append_new (nx.successors G u) (filter (λ e, e.1 = u) es).*2.
Proof.
  unfold nx.add_edges_from.
  induction es as [|e es IH]; intros G Hwf Hends; simpl; [done|].
  assert (e.1 ∈ nx._node G) as H1.
  { apply Hends. exists e. split; [left|by left]. }
  assert (e.2 ∈ nx._node G) as H2.
  { apply Hends. exists e. split; [left|by right]. }
  destruct (nx_add_edge_present G e Hwf H1 H2) as [Hnodes Hsucc].
  destruct (nx_add_edge_spec G e Hwf) as (Hwf' & _ & _).
  destruct (IH (nx.add_edge G e) Hwf') as [Hnodes' Hsucc'].
  { intros x (e' & He' & Hx). rewrite Hnodes. apply Hends.
    exists e'. split; [by right|done]. }
  split; [by rewrite Hnodes'|].
  intros u. rewrite Hsucc', Hsucc. rewrite filter_cons.
  case_decide as Hu.
  - subst u. by rewrite decide_True by done.
  - by rewrite decide_False by (intros Heq; by apply Hu).
Qed.

Lemma NoDup_foldl_nx_append_new l : ∀ acc,
  NoDup acc → NoDup (foldl nx.append_new acc l).
Proof.
  induction l as [|x l IH]; intros acc Hacc; simpl; [done|].
  apply IH. by apply (NoDup_append_new acc x).
Qed.

(** What the constructor leaves in the networkx graph, as lists. *)
Lemma networkx_graph_lists edges :
  let G := _initialize_networkx_graph edges in
  nx._node G = get_nodes edges ∧
  ∀ u, nx.successors G u =
       foldl nx.append_new [] (filter (λ e, e.1 = u) edges).*2.
Proof.
  intros G. unfold G, _initialize_networkx_graph.
  destruct (nx_add_nodes_from_spec (get_nodes edges) nx.empty nx_empty_wf)
    as (Hwf1 & _ & Hs1).
  pose proof (nx_add_nodes_from_nodes (get_nodes edges) nx.empty) as Hn1.
  simpl in Hn1. specialize (Hn1 (NoDup_get_nodes edges)).
  destruct (nx_add_edges_from_present edges _ Hwf1) as [Hn2 Hs2].
  { intros x Hx. rewrite Hn1. by apply elem_of_get_nodes. }
  split; [by rewrite Hn2|].
  intros u. rewrite Hs2, Hs1. done.
Qed.

Lemma NoDup_successors edges u :
  NoDup (nx.successors (_initialize_networkx_graph edges) u).
Proof.
  destruct (networkx_graph_lists edges) as [_ Hsucc]. rewrite Hsucc.
  apply NoDup_foldl_nx_append_new, NoDup_nil_2.
Qed.

(** Lists built branch by branch have no duplicate when the branches have
    none and do not overlap. *)
Lemma NoDup_flat_map {A B} (f : A → list B) (l : list A) :
  NoDup l → (∀ x, x ∈ l → NoDup (f x)) →
  (∀ x y z, x ∈ l → y ∈ l → z ∈ f x → z ∈ f y → x = y) →
  NoDup (flat_map f l).
Proof.
  induction 1 as [|a l Ha Hnd IH]; intros Heach Hdisj; simpl;
    [apply NoDup_nil_2|].
  apply NoDup_app. split_and!.
  - apply Heach. left.
  - intros z Hz Hin. apply list_elem_of_In, in_flat_map in Hin as (y & Hy & Hzy).
    apply list_elem_of_In in Hy, Hzy.
    assert (a = y) as -> by (apply (Hdisj a y z); [left|by right|done|done]).
    done.
  - apply IH.
    + intros x Hx. apply Heach. by right.
    + intros x y z Hx Hy. apply Hdisj; by right.
Qed.

Lemma elem_of_nx_edges G u v :
  (u, v) ∈ nx.edges G ↔ u ∈ nx._node G ∧ v ∈ nx.successors G u.
Proof.
  unfold nx.edges. rewrite list_elem_of_In, in_flat_map. split.
  - intros (x & Hx & Hin). apply list_elem_of_In in Hx, Hin.
    apply list_elem_of_fmap in Hin as (y & [= -> ->] & Hy). done.
  - intros [Hu Hv]. exists u. split; [by apply list_elem_of_In|].
    apply list_elem_of_In, list_elem_of_fmap. by exists v.
Qed.

End networkx_more.

(** X3. The node list of the networkx graph that the constructor builds is
    the list [get_nodes(edges)] itself: [G.nodes()] enumerates the nodes in
    ascending order of their identifiers, whatever the order of the edges,
    and [len(G)] is the number of distinct endpoints. *)
Theorem networkx_nodes_ascending (edges : list edge) :
  nx._node (_initialize_networkx_graph edges) = get_nodes edges ∧
  Sorted Z.le (nx._node (_initialize_networkx_graph edges)) ∧
  nx.number_of_nodes (_initialize_networkx_graph edges) =
    length (get_nodes edges).
Proof.
  destruct (networkx_graph_lists edges) as [Hnodes _].
  unfold nx.number_of_nodes. rewrite Hnodes.
  split_and!; [done|apply Sorted_get_nodes|done].
Qed.

(** X4. In the networkx graph of the constructor, the successors of a node
    are the targets of its edges in the order of their first appearance in
    the edge list, each one once: an edge repeated in the list is one edge
    of the graph.  [G.edges()] has no duplicate and holds exactly the edges
    of the list. *)
Theorem networkx_edges_once (edges : list edge) :
  let G := _initialize_networkx_graph edges in
  (∀ u, nx.successors G u =
        foldl nx.append_new [] (filter (λ e, e.1 = u) edges).*2) ∧
  (∀ u, NoDup (nx.successors G u)) ∧
  NoDup (nx.edges G) ∧
  (∀ e, e ∈ nx.edges G ↔ e ∈ edges) ∧
  (length (nx.edges G) ≤ length edges)%nat.
Proof.
  intros G.
  destruct (networkx_graph_lists edges) as [Hnodes Hsucc].
  destruct (networkx_graph_spec edges) as (_ & Hmem & _ & Hedge).
  assert (NoDup (nx.edges G)) as Hnd.
  { unfold nx.edges. apply NoDup_flat_map.
    - fold G in Hnodes. rewrite Hnodes. apply NoDup_get_nodes.
    - intros u _. apply NoDup_fmap_2; [|apply NoDup_successors].
      intros v1 v2 [= ->]. done.
    - intros x y z _ _ (v1 & -> & _)%list_elem_of_fmap
        (v2 & [= -> _] & _)%list_elem_of_fmap. done. }
  assert (∀ e, e ∈ nx.edges G ↔ e ∈ edges) as Hsame.
  { intros [u v]. rewrite elem_of_nx_edges. fold G in Hedge, Hmem.
    rewrite Hedge, Hmem, elem_of_get_nodes. split; [tauto|].
    intros Hin. split; [|done]. exists (u, v). split; [done|by left]. }
  split_and!; [done|apply NoDup_successors|done|done|].
  apply submseteq_length, NoDup_submseteq; [done|]. intros e. apply Hsame.
Qed.

(** ** More on the connection matrix *)

Section connection_matrix_more.

Lemma index_Some_range n i r :
  np.index n i = Some r → - Z.of_nat n ≤ i < Z.of_nat n.
Proof. unfold np.index. repeat case_decide; intros; simplify_eq; lia. Qed.

(** On identifiers that are all in [1 .. n], or all in [0 .. n-1], the
    index [x - 1] tells the identifiers apart. *)
Lemma index_pred_inj n x y :
  (1 ≤ x ≤ Z.of_nat n ∧ 1 ≤ y ≤ Z.of_nat n) ∨
  (0 ≤ x < Z.of_nat n ∧ 0 ≤ y < Z.of_nat n) →
  is_Some (np.index n (x - 1)) →
  np.index n (x - 1) = np.index n (y - 1) → x = y.
Proof.
  unfold np.index. intros Hrange [r Hr] Heq. rewrite Hr in Heq.
  repeat case_decide; simplify_eq; lia.
Qed.

Lemma cell_zeros n r c :
  (r < n)%nat → (c < n)%nat → np.cell (np.zeros n) r c = Some 0.
Proof.
  intros Hr Hc. unfold np.cell, np.zeros.
  rewrite lookup_replicate_2 by done. simpl. by rewrite lookup_replicate_2.
Qed.

(** The loop stops at the first edge with an index out of the bounds. *)
Lemma mark_edges_in_range n edges : ∀ m M,
  np.square n m → mark_edges m edges = Some M →
  Forall (λ e : edge, - Z.of_nat n ≤ e.1 - 1 < Z.of_nat n ∧
                      - Z.of_nat n ≤ e.2 - 1 < Z.of_nat n) edges.
Proof.
  induction edges as [|e edges IH]; intros m M Hsq Hrun; simpl in Hrun;
    [constructor|].
  destruct (np.set m (e.1 - 1) (e.2 - 1) 1) as [m'|] eqn:Hset;
    simpl in Hrun; [|done].
  destruct (set_spec _ _ _ _ _ _ Hsq Hset) as (Hsq' & r & c & Hr & Hc & _).
  constructor; [|by eapply IH].
  split; by eapply index_Some_range.
Qed.

(** A cell that no edge is sent to keeps its value. *)
Lemma mark_edges_other n edges r c : ∀ m M,
  np.square n m → mark_edges m edges = Some M →
  ¬ Exists (λ e : edge, np.index n (e.1 - 1) = Some r ∧
                        np.index n (e.2 - 1) = Some c) edges →
  np.cell M r c = np.cell m r c.
Proof.
  induction edges as [|e edges IH]; intros m M Hsq Hrun Hno; simpl in Hrun.
  - by simplify_eq.
  - destruct (np.set m (e.1 - 1) (e.2 - 1) 1) as [m'|] eqn:Hset;
      simpl in Hrun; [|done].
    destruct (set_spec _ _ _ _ _ _ Hsq Hset)
      as (Hsq' & r0 & c0 & Hr & Hc & _ & Hother).
    rewrite (IH m' M Hsq' Hrun).
    + apply Hother. intros [= -> ->]. apply Hno. by left.
    + intros Hex. apply Hno. by right.
Qed.

(** The content of the matrix, cell by cell. *)
Lemma connection_matrix_cells edges M :
  let n := length (get_nodes edges) in
  _initialize_connection_matrix edges = Some M →
  np.square n M ∧
  ∀ r c, (r < n)%nat → (c < n)%nat →
    np.cell M r c =
      Some (if decide (Exists (λ e : edge,
                         np.index n (e.1 - 1) = Some r ∧
                         np.index n (e.2 - 1) = Some c) edges)
            then 1 else 0).
Proof.
  intros n HM. unfold _initialize_connection_matrix in HM.
  unfold _gen_zero_n_square_matrix in HM. fold n in HM.
  destruct (mark_edges_spec n edges _ M (square_zeros n) HM)
    as (Hsq & _ & Hone).
  split; [done|]. intros r c Hr Hc. case_decide as Hex.
  - apply Exists_exists in Hex as ([a b] & Hin & Ha & Hb). simpl in *.
    destruct (Hone a b Hin) as (r' & c' & Hr' & Hc' & Hcell).
    by simplify_eq.
  - rewrite (mark_edges_other n edges r c _ M (square_zeros n) HM Hex).
    by apply cell_zeros.
Qed.

(** Two square matrices with the same cells are the same matrix. *)
Lemma square_ext n (M1 M2 : np.ndarray) :
  np.square n M1 → np.square n M2 →
  (∀ r c, (r < n)%nat → (c < n)%nat → np.cell M1 r c = np.cell M2 r c) →
  M1 = M2.
Proof.
  intros [Hlen1 Hrows1] [Hlen2 Hrows2] Hcells.
  apply list_eq. intros r.
  destruct (decide (r < n)%nat) as [Hr|Hr].
  - destruct (lookup_lt_is_Some_2 M1 r) as [row1 Hrow1]; [lia|].
    destruct (lookup_lt_is_Some_2 M2 r) as [row2 Hrow2]; [lia|].
    rewrite Hrow1, Hrow2. f_equal.
    pose proof (proj1 (Forall_lookup _ _) Hrows1 r row1 Hrow1) as Hl1.
    pose proof (proj1 (Forall_lookup _ _) Hrows2 r row2 Hrow2) as Hl2.
    simpl in Hl1, Hl2. apply list_eq. intros c.
    destruct (decide (c < n)%nat) as [Hc|Hc].
    + specialize (Hcells r c Hr Hc). unfold np.cell in Hcells.
      by rewrite Hrow1, Hrow2 in Hcells.
    + rewrite !lookup_ge_None_2 by lia. done.
  - rewrite !lookup_ge_None_2 by lia. done.
Qed.

Lemma same_edges_same_nodes (edges1 edges2 : list edge) :
  (∀ e, e ∈ edges1 ↔ e ∈ edges2) → get_nodes edges1 = get_nodes edges2.
Proof.
  intros Hsame. apply sorted_members_eq.
  - apply Sorted_get_nodes.
  - apply Sorted_get_nodes.
  - apply NoDup_get_nodes.
  - apply NoDup_get_nodes.
  - intros x. rewrite !elem_of_get_nodes.
    split; intros (e & He & Hx); exists e; (split; [by apply Hsame|done]).
Qed.

End connection_matrix_more.

(** X5. The constructor succeeds exactly when every node identifier [x] of
    the edge list satisfies [1 - n <= x <= n], where [n] is the number of
    distinct identifiers: otherwise the index [x - 1] is out of the bounds
    of the n-by-n matrix, numpy raises [IndexError] and no object is
    built. *)
Theorem init_succeeds_iff (edges : list edge) :
  let n := Z.of_nat (length (get_nodes edges)) in
  is_Some (__init__ edges) ↔ ∀ x, endpoint edges x → 1 - n ≤ x ≤ n.
Proof.
  intros n. unfold __init__. split.
  - intros [self Hself] x ([a b] & Hin & Hx).
    destruct (_initialize_connection_matrix edges) as [M|] eqn:HM;
      simpl in Hself; [|done].
    pose proof (mark_edges_in_range _ edges _ M (square_zeros _) HM) as Hall.
    pose proof (proj1 (Forall_forall _ _) Hall _ Hin) as Hab. simpl in *.
    unfold n. destruct Hx; subst x; lia.
  - intros Hall.
    destruct (mark_edges_total (length (get_nodes edges)) edges
                (np.zeros _) (square_zeros _)) as [M HM].
    { apply Forall_forall. intros [a b] Hin. simpl.
      assert (1 - n ≤ a ≤ n) by (apply Hall; exists (a, b); split; [done|by left]).
      assert (1 - n ≤ b ≤ n) by (apply Hall; exists (a, b); split; [done|by right]).
      unfold n in *. lia. }
    unfold _initialize_connection_matrix, _gen_zero_n_square_matrix.
    rewrite HM. simpl. eauto.
Qed.

(** The single edge (5, 6) has two nodes and the index 4: no object. *)
Lemma init_succeeds_iff_witness :
  __init__ [(5, 6)] = None ∧ ¬ (∀ x, endpoint [(5, 6)] x → 1 - 2 ≤ x ≤ 2).
Proof.
  split; [vm_compute; reflexivity|].
  intros Hall. pose proof (proj2 (init_succeeds_iff [(5, 6)])) as Hiff.
  destruct Hiff as [self Hself]; [exact Hall|].
  vm_compute in Hself. discriminate.
Defined.

(** X6. When the connection matrix is built it is an n-by-n matrix of zeros
    and ones, and the cell of row [r] and column [c] holds 1 exactly when
    some edge [(a, b)] of the list has [a - 1] indexing row [r] and [b - 1]
    indexing column [c]: nothing else is ever written. *)
Theorem connection_matrix_exact (edges : list edge) (M : np.ndarray) :
  let n := length (get_nodes edges) in
  _initialize_connection_matrix edges = Some M →
  np.square n M ∧
  ∀ r c, (r < n)%nat → (c < n)%nat →
    (np.cell M r c = Some 1 ∨ np.cell M r c = Some 0) ∧
    (np.cell M r c = Some 1 ↔
       ∃ a b, (a, b) ∈ edges ∧ np.index n (a - 1) = Some r ∧
              np.index n (b - 1) = Some c).
Proof.
  intros n HM. destruct (connection_matrix_cells edges M HM) as [Hsq Hcells].
  split; [done|]. intros r c Hr Hc. fold n in Hcells.
  rewrite (Hcells r c Hr Hc). case_decide as Hex.
  - split; [by left|]. split; [|done]. intros _.
    apply Exists_exists in Hex as ([a b] & Hin & Ha & Hb). by exists a, b.
  - split; [by right|]. split; [done|].
    intros (a & b & Hin & Ha & Hb). destruct Hex.
    apply Exists_exists. by exists (a, b).
Qed.

(** The example of the docstring: the edges (1, 2) and (1, 3). *)
Lemma connection_matrix_exact_witness :
  _initialize_connection_matrix [(1, 2); (1, 3)] =
    Some [[0; 1; 1]; [0; 0; 0]; [0; 0; 0]] ∧
  np.square 3 [[0; 1; 1]; [0; 0; 0]; [0; 0; 0]].
Proof.
  split; [vm_compute; reflexivity|].
  apply (connection_matrix_exact [(1, 2); (1, 3)]
           [[0; 1; 1]; [0; 0; 0]; [0; 0; 0]]).
  vm_compute. reflexivity.
Defined.

(** X7. When the node identifiers are all in [1 .. n], as in the docstring
    of [_initialize_connection_matrix], or all in [0 .. n-1], the matrix is
    built and it is the adjacency matrix read through the index [x - 1]:
    for two nodes [a] and [b], [connection_matrix[a-1][b-1]] is 1 when
    [(a, b)] is an edge and 0 when it is not. *)
Theorem connection_matrix_adjacency (edges : list edge) :
  let n := length (get_nodes edges) in
  (∀ x, x ∈ get_nodes edges → 1 ≤ x ≤ Z.of_nat n) ∨
  (∀ x, x ∈ get_nodes edges → 0 ≤ x < Z.of_nat n) →
  ∃ M, _initialize_connection_matrix edges = Some M ∧
    ∀ a b, a ∈ get_nodes edges → b ∈ get_nodes edges →
      np.get M (a - 1) (b - 1) = Some (if decide ((a, b) ∈ edges) then 1 else 0).
Proof.
  intros n Hids.
  assert (∀ x, x ∈ get_nodes edges →
            - Z.of_nat n ≤ x - 1 < Z.of_nat n) as Hrange.
  { intros x Hx. destruct Hids as [H|H]; specialize (H x Hx); lia. }
  assert (∀ a b, (a, b) ∈ edges → a ∈ get_nodes edges ∧ b ∈ get_nodes edges)
    as Hends.
  { intros a b Hin. split; apply elem_of_get_nodes; exists (a, b);
      (split; [done|]); [by left|by right]. }
  destruct (mark_edges_total n edges (np.zeros n) (square_zeros n)) as [M HM].
  { apply Forall_forall. intros [a b] Hin. simpl.
    destruct (Hends a b Hin). split; by apply Hrange. }
  exists M. split; [done|]. intros a b Ha Hb.
  destruct (connection_matrix_cells edges M HM) as [Hsq Hcells]. fold n in Hcells.
  destruct (index_in_range n _ (Hrange a Ha)) as [r Hr].
  destruct (index_in_range n _ (Hrange b Hb)) as [c Hc].
  pose proof Hsq as [Hlen _].
  rewrite (get_cell M (a - 1) (b - 1) r c) by (by rewrite ?Hlen).
  rewrite Hcells by (by eapply index_lt).
  do 2 f_equal.
  assert (∀ x y, x ∈ get_nodes edges → y ∈ get_nodes edges →
            np.index n (x - 1) = np.index n (y - 1) → x = y) as Hinj.
  { intros x y Hx Hy Heq. apply (index_pred_inj n x y); [| |done].
    - destruct Hids as [H|H]; [left|right];
        (split; [by apply H|by apply H]).
    - apply index_in_range. by apply Hrange. }
  case_decide as Hex; case_decide as Hedge; try done.
  - apply Exists_exists in Hex as ([a' b'] & Hin & Ha' & Hb'). simpl in *.
    destruct (Hends a' b' Hin) as [Hna Hnb].
    assert (a' = a) as -> by (apply Hinj; [done|done|congruence]).
    assert (b' = b) as -> by (apply Hinj; [done|done|congruence]).
    done.
  - destruct Hex. apply Exists_exists. by exists (a, b).
Qed.

(** The example of the docstring once more, read by node identifiers. *)
Lemma connection_matrix_adjacency_witness :
  ∃ M, _initialize_connection_matrix [(1, 2); (1, 3)] = Some M ∧
    np.get M (1 - 1) (3 - 1) = Some 1 ∧ np.get M (3 - 1) (1 - 1) = Some 0.
Proof.
  destruct (connection_matrix_adjacency [(1, 2); (1, 3)]) as (M & HM & Hget).
  { left. intros x Hx. vm_compute in Hx.
    repeat (apply elem_of_cons in Hx as [->|Hx]; [simpl; lia|]).
    by apply elem_of_nil in Hx. }
  assert (∀ x, x ∈ [1; 2; 3] → x ∈ get_nodes [(1, 2); (1, 3)]) as Hnodes.
  { intros x Hx. by vm_compute. }
  exists M. split; [done|]. split.
  - rewrite (Hget 1 3) by (apply Hnodes; set_solver). by vm_compute.
  - rewrite (Hget 3 1) by (apply Hnodes; set_solver). by vm_compute.
Defined.

(** X8. The connection matrix depends only on the set of the edges: two
    edge lists with the same edges, in any order and with any repetition,
    either both fail or give the same matrix. *)
Theorem connection_matrix_canonical (edges1 edges2 : list edge) :
  (∀ e, e ∈ edges1 ↔ e ∈ edges2) →
  _initialize_connection_matrix edges1 = _initialize_connection_matrix edges2.
Proof.
  intros Hsame. pose proof (same_edges_same_nodes _ _ Hsame) as Hnodes.
  assert (∀ es1 es2 M1, (∀ e, e ∈ es1 ↔ e ∈ es2) →
            get_nodes es1 = get_nodes es2 →
            _initialize_connection_matrix es1 = Some M1 →
            ∃ M2, _initialize_connection_matrix es2 = Some M2) as Htotal.
  { intros es1 es2 M1 Hs Hn HM1.
    unfold _initialize_connection_matrix, _gen_zero_n_square_matrix in *.
    rewrite <- Hn.
    pose proof (mark_edges_in_range _ es1 _ M1 (square_zeros _) HM1) as Hall.
    apply (mark_edges_total _ es2 _ (square_zeros _)).
    apply Forall_forall. intros e He.
    apply (proj1 (Forall_forall _ _) Hall e). by apply Hs. }
  destruct (_initialize_connection_matrix edges1) as [M1|] eqn:HM1;
    destruct (_initialize_connection_matrix edges2) as [M2|] eqn:HM2.
  - f_equal.
    destruct (connection_matrix_cells edges1 M1 HM1) as [Hsq1 Hc1].
    destruct (connection_matrix_cells edges2 M2 HM2) as [Hsq2 Hc2].
    rewrite <- Hnodes in Hsq2, Hc2.
    apply (square_ext _ _ _ Hsq1 Hsq2). intros r c Hr Hc.
    rewrite Hc1, Hc2 by done. do 2 f_equal.
    repeat case_decide; try done.
    + rename select (¬ _) into Hno. destruct Hno.
      rename select (Exists _ edges1) into Hex.
      apply Exists_exists in Hex as (e & He & HP).
      apply Exists_exists. exists e. split; [by apply Hsame|done].
    + rename select (¬ _) into Hno. destruct Hno.
      rename select (Exists _ edges2) into Hex.
      apply Exists_exists in Hex as (e & He & HP).
      apply Exists_exists. exists e. split; [by apply Hsame|done].
  - destruct (Htotal edges1 edges2 M1 Hsame Hnodes HM1) as [M2 HM2'].
    congruence.
  - destruct (Htotal edges2 edges1 M2) as [M1 HM1']; [|done|done|congruence].
    intros e. by rewrite Hsame.
  - done.
Qed.

(** The edges of the docstring, reversed in order and with one repeated. *)
Lemma connection_matrix_canonical_witness :
  _initialize_connection_matrix [(1, 3); (1, 2); (1, 3)] =
    Some [[0; 1; 1]; [0; 0; 0]; [0; 0; 0]].
Proof.
  rewrite (connection_matrix_canonical [(1, 3); (1, 2); (1, 3)] [(1, 2); (1, 3)]).
  - vm_compute. reflexivity.
  - intros e. rewrite !elem_of_cons, !elem_of_nil. tauto.
Defined.

(** ** The colours of the nodes *)

Section color_map_facts.

Lemma foldl_snoc_fmap {A B} (f : A → B) (l : list A) : ∀ acc,
  foldl (λ acc i, acc ++ [f i]) acc l = acc ++ (f <$> l).
Proof.
  induction l as [|x l IH]; intros acc; simpl.
  - by rewrite app_nil_r.
  - rewrite IH. by rewrite <- app_assoc.
Qed.

(** The loop of [get_color_map] colours the indices one by one. *)
Lemma get_color_map_fmap self n s t :
  get_color_map self n s t =
    (λ i, if decide (i = s) then "green"%string
          else if decide (i = (if decide (t = -1) then n - 1 else t))
               then "red"%string else "blue"%string) <$> range 0 n.
Proof. unfold get_color_map. cbv zeta. by rewrite foldl_snoc_fmap. Qed.

Lemma lookup_range_0 n i :
  0 ≤ i < n → range 0 n !! Z.to_nat i = Some i.
Proof.
  intros Hi. unfold range. apply lookup_seqZ. lia.
Qed.

Lemma length_get_color_map self n s t :
  length (get_color_map self n s t) = Z.to_nat n.
Proof.
  rewrite get_color_map_fmap, length_fmap. unfold range.
  rewrite length_seqZ. f_equal. lia.
Qed.

Lemma lookup_get_color_map self n s t i :
  0 ≤ i < n →
  get_color_map self n s t !! Z.to_nat i =
    Some (if decide (i = s) then "green"%string
          else if decide (i = (if decide (t = -1) then n - 1 else t))
               then "red"%string else "blue"%string).
Proof.
  intros Hi. rewrite get_color_map_fmap.
  by rewrite list_lookup_fmap, lookup_range_0 by done.
Qed.

Lemma increasing_get_nodes edges : StronglySorted Z.lt (get_nodes edges).
Proof.
  pose proof (NoDup_get_nodes edges) as Hnd.
  pose proof (Sorted_StronglySorted Z.le _ (Sorted_get_nodes edges)) as Hs.
  induction Hs as [|x l Hs IH Hall]; [constructor|].
  apply NoDup_cons in Hnd as [Hx Hnd].
  constructor; [by apply IH|].
  apply Forall_forall. intros y Hy.
  pose proof (proj1 (Forall_forall _ _) Hall y Hy) as Hle. simpl in Hle.
  assert (x ≠ y) by (by intros ->). lia.
Qed.

Lemma increasing_lookup (l : list Z) :
  StronglySorted Z.lt l →
  ∀ i j x y, l !! i = Some x → l !! j = Some y → (i < j)%nat → x < y.
Proof.
  induction 1 as [|a l Hs IH Hall]; intros i j x y Hi Hj Hij;
    [by rewrite lookup_nil in Hi|].
  destruct j as [|j]; [lia|]. simpl in Hj.
  destruct i as [|i]; simpl in Hi.
  - injection Hi as ->.
    apply (proj1 (Forall_forall _ _) Hall). by eapply list_elem_of_lookup_2.
  - apply (IH i j); [done|done|lia].
Qed.

(** In a strictly increasing list the first place holds the least member
    and the last place the greatest. *)
Lemma increasing_first (l : list Z) i x :
  StronglySorted Z.lt l → l !! i = Some x →
  (i = 0%nat ↔ Forall (λ y, x ≤ y) l).
Proof.
  intros Hs Hi. split.
  - intros ->. apply Forall_forall. intros y [j Hj]%list_elem_of_lookup.
    destruct j as [|j]; [simplify_eq; lia|].
    pose proof (increasing_lookup l Hs 0 (S j) x y Hi Hj). lia.
  - intros Hall. destruct i as [|i]; [done|].
    destruct (lookup_lt_is_Some_2 l 0) as [y Hy].
    { apply lookup_lt_Some in Hi. lia. }
    pose proof (increasing_lookup l Hs 0 (S i) y x Hy Hi).
    pose proof (proj1 (Forall_forall _ _) Hall y
                  (list_elem_of_lookup_2 _ _ _ Hy)).
    simpl in *. lia.
Qed.

Lemma increasing_last (l : list Z) i x :
  StronglySorted Z.lt l → l !! i = Some x →
  (i = (length l - 1)%nat ↔ Forall (λ y, y ≤ x) l).
Proof.
  intros Hs Hi. pose proof (lookup_lt_Some _ _ _ Hi) as Hlt. split.
  - intros ->. apply Forall_forall. intros y [j Hj]%list_elem_of_lookup.
    pose proof (lookup_lt_Some _ _ _ Hj) as Hjlt.
    destruct (decide (j = (length l - 1)%nat)) as [->|Hne];
      [simplify_eq; lia|].
    pose proof (increasing_lookup l Hs j (length l - 1) y x Hj Hi). lia.
  - intros Hall.
    destruct (decide (i = (length l - 1)%nat)) as [|Hne]; [done|].
    destruct (lookup_lt_is_Some_2 l (length l - 1)) as [y Hy]; [lia|].
    pose proof (increasing_lookup l Hs i (length l - 1) x y Hi Hy).
    pose proof (proj1 (Forall_forall _ _) Hall y
                  (list_elem_of_lookup_2 _ _ _ Hy)).
    simpl in *. lia.
Qed.

End color_map_facts.

(** X9. [get_color_map(n, s, t)] returns one colour for each index of
    [range(0, n)] (none for [n <= 0]): the index [s] is green; the index
    [t], or [n - 1] when [t] is -1, is red unless it is [s]; every other
    index is blue.  A [t] other than -1 is used as it is given: the
    statement [t - 1] of the source changes nothing. *)
Theorem get_color_map_by_index (self : Graph.t) (n s t : Z) :
  length (get_color_map self n s t) = Z.to_nat n ∧
  ∀ i, 0 ≤ i < n →
    get_color_map self n s t !! Z.to_nat i =
      Some (if decide (i = s) then "green"%string
            else if decide (i = (if decide (t = -1) then n - 1 else t))
                 then "red"%string else "blue"%string).
Proof.
  split; [apply length_get_color_map|].
  intros i Hi. by apply lookup_get_color_map.
Qed.

(** Five nodes, source 0 and destination 3: the index 3 is red, not the
    index 2. *)
Lemma get_color_map_by_index_witness :
  get_color_map (Graph.mk [] [] nx.empty) 5 0 3 !! 3%nat = Some "red"%string ∧
  length (get_color_map (Graph.mk [] [] nx.empty) 5 0 3) = 5%nat.
Proof.
  destruct (get_color_map_by_index (Graph.mk [] [] nx.empty) 5 0 3)
    as [Hlen Hcol].
  split; [|done]. exact (Hcol 3 ltac:(lia)).
Defined.

(** X10. [print_graph] draws a constructed graph with one colour for each
    node of [G.nodes()], which lists the identifiers in ascending order:
    the node with the least identifier is green, the node with the greatest
    identifier is red unless it is the only node, and every other node is
    blue, whatever the arguments of the call. *)
Theorem print_graph_colors (edges : list edge) (self : Graph.t)
    (picture_name : string) (edge_labels : option dict)
    (suppress_text_output : bool) :
  __init__ edges = Some self →
  ∃ node_color,
    draw_networkx (networkx_graph self) node_color
      ∈ print_graph self picture_name edge_labels suppress_text_output ∧
    nx._node (networkx_graph self) = get_nodes edges ∧
    length node_color = length (get_nodes edges) ∧
    ∀ i x, get_nodes edges !! i = Some x →
      node_color !! i =
        Some (if decide (Forall (λ y, x ≤ y) (get_nodes edges))
              then "green"%string
              else if decide (Forall (λ y, y ≤ x) (get_nodes edges))
                   then "red"%string else "blue"%string).
Proof.
  intros [Hedges HG]%init_members.
  destruct (networkx_graph_lists edges) as [Hnodes _].
  set (k := length (get_nodes edges)).
  exists (get_color_map self (Z.of_nat k) 0 (-1)).
  assert (nx.number_of_nodes (networkx_graph self) = k) as Hk.
  { unfold nx.number_of_nodes. by rewrite HG, Hnodes. }
  pose proof (length_get_color_map self (Z.of_nat k) 0 (-1)) as Hlen.
  pose proof (lookup_get_color_map self (Z.of_nat k) 0 (-1)) as Hcol.
  split_and!.
  - unfold print_graph. cbv zeta. rewrite Hk.
    apply elem_of_app. right. apply elem_of_app. left. left.
  - by rewrite HG.
  - rewrite Hlen. lia.
  - intros i x Hi. pose proof (lookup_lt_Some _ _ _ Hi) as Hlt. fold k in Hlt.
    specialize (Hcol (Z.of_nat i) ltac:(lia)). rewrite Nat2Z.id in Hcol.
    rewrite Hcol. f_equal.
    assert (Z.of_nat i = 0 ↔ Forall (λ y, x ≤ y) (get_nodes edges)) as Hfirst.
    { rewrite <- (increasing_first _ i x (increasing_get_nodes edges) Hi). lia. }
    assert (Z.of_nat i = Z.of_nat k - 1 ↔ Forall (λ y, y ≤ x) (get_nodes edges))
      as Hlast.
    { rewrite <- (increasing_last _ i x (increasing_get_nodes edges) Hi).
      fold k. lia. }
    rewrite (decide_True (P := -1 = -1)) by done.
    repeat case_decide; try done; tauto.
Qed.

(** The edges (3, 1) and (1, 2): the nodes are drawn in the order 1, 2, 3,
    node 1 green and node 3 red, although node 3 is the origin of the first
    edge. *)
Lemma print_graph_colors_witness :
  ∃ self node_color,
    __init__ [(3, 1); (1, 2)] = Some self ∧
    draw_networkx (networkx_graph self) node_color
      ∈ print_graph self "graph.png" None false ∧
    nx._node (networkx_graph self) = [1; 2; 3] ∧
    node_color !! 0%nat = Some "green"%string ∧
    node_color !! 2%nat = Some "red"%string.
Proof.
  destruct (__init__ [(3, 1); (1, 2)]) as [self|] eqn:Hinit;
    [|vm_compute in Hinit; discriminate].
  destruct (print_graph_colors _ self "graph.png" None false Hinit)
    as (node_color & Hdraw & Hnodes & Hlen & Hcol).
  exists self, node_color. split_and!; [done|done|done| |].
  - by rewrite (Hcol 0%nat 1).
  - by rewrite (Hcol 2%nat 3).
Defined.

(** ** More on [get_simple_paths] *)

Section get_simple_paths_more.

(** Every path that the search yields starts with the current path and the
    node just reached. *)
Lemma search_prefix G target room : ∀ path u q,
  q ∈ nx.search G target room path u → ∃ p', q = path ++ u :: p'.
Proof.
  induction room as [|room IH]; intros path u q Hq; simpl in Hq.
  - rewrite app_nil_r in Hq. case_decide; [|by apply elem_of_nil in Hq].
    apply list_elem_of_singleton in Hq as ->. by exists [].
  - apply elem_of_app in Hq as [Hq|Hq].
    + case_decide; [|by apply elem_of_nil in Hq].
      apply list_elem_of_singleton in Hq as ->. by exists [].
    + case_decide; [|by apply elem_of_nil in Hq].
      apply list_elem_of_In, in_flat_map in Hq as (v & _ & Hq).
      apply list_elem_of_In in Hq.
      case_decide; [by apply elem_of_nil in Hq|].
      destruct (IH _ _ _ Hq) as [p' ->]. exists (v :: p').
      by rewrite <- app_assoc.
Qed.

(** No path is yielded twice when no node lists a successor twice. *)
Lemma search_NoDup G target :
  (∀ u, NoDup (nx.successors G u)) →
  ∀ room path u, NoDup (nx.search G target room path u).
Proof.
  intros Hsucc. induction room as [|room IH]; intros path u; simpl.
  - rewrite app_nil_r. case_decide; [apply NoDup_singleton|apply NoDup_nil_2].
  - destruct (decide (u = target)) as [->|Hne].
    + rewrite (decide_False (P := _ ∧ _)) by tauto.
      rewrite app_nil_r. apply NoDup_singleton.
    + simpl. case_decide; [|apply NoDup_nil_2].
      apply NoDup_flat_map; [apply Hsucc| |].
      * intros v _. case_decide; [apply NoDup_nil_2|apply IH].
      * intros x y z _ _ Hx Hy.
        destruct (decide (x ∈ path ++ [u])); [by apply elem_of_nil in Hx|].
        destruct (decide (y ∈ path ++ [u])); [by apply elem_of_nil in Hy|].
        apply search_prefix in Hx as [p1 ->].
        apply search_prefix in Hy as [p2 Heq].
        apply app_inv_head in Heq. by injection Heq.
Qed.

Lemma nodes_nonempty edges x :
  x ∈ get_nodes edges →
  nx.number_of_nodes (_initialize_networkx_graph edges) ≠ 0%nat.
Proof.
  intros Hx. destruct (networkx_graph_spec edges) as (_ & _ & Hlen & _).
  rewrite Hlen. destruct (get_nodes edges); [by apply elem_of_nil in Hx|done].
Qed.

End get_simple_paths_more.

(** X11. [get_simple_paths] returns no path twice: each simple path from the
    source to the destination appears once among the paths that the
    returned object yields, also when the edge list repeats an edge. *)
Theorem get_simple_paths_no_repeat (edges : list edge) (self : Graph.t)
    (source_node : Z) (destination_node : option Z) (paths : list (list Z)) :
  __init__ edges = Some self →
  iterate (get_simple_paths self source_node destination_node)
    = nx.Ok paths →
  NoDup paths.
Proof.
  intros [Hedges HG]%init_members Hrun. unfold get_simple_paths in Hrun.
  rewrite HG in Hrun.
  case_decide; [|simpl in Hrun; simplify_eq; apply NoDup_nil_2].
  unfold iterate, nx.iterate in Hrun. simpl in Hrun.
  repeat case_decide; simplify_eq.
  apply search_NoDup. intros u. apply NoDup_successors.
Qed.

(** The edge (0, 1) is listed twice: the path through it is returned
    once. *)
Lemma get_simple_paths_no_repeat_witness :
  ∃ self, __init__ [(0, 1); (0, 1); (1, 2)] = Some self ∧
    iterate (get_simple_paths self 0 (Some 2)) = nx.Ok [[0; 1; 2]] ∧
    NoDup [[0; 1; 2]].
Proof.
  destruct (__init__ [(0, 1); (0, 1); (1, 2)]) as [self|] eqn:Hinit;
    [|vm_compute in Hinit; discriminate].
  exists self. split; [reflexivity|].
  assert (iterate (get_simple_paths self 0 (Some 2)) = nx.Ok [[0; 1; 2]])
    as Hrun.
  { vm_compute in Hinit. injection Hinit as <-. vm_compute. reflexivity. }
  split; [done|].
  exact (get_simple_paths_no_repeat _ self 0 (Some 2) _ Hinit Hrun).
Defined.

(** X12. When the destination searched for is the source itself, a node of
    the graph, [get_simple_paths] returns the path made of that node alone
    and nothing else, as the returned object yields it: no cycle through
    the source is reported. *)
Theorem get_simple_paths_source_is_destination (edges : list edge)
    (self : Graph.t) (source_node : Z) (destination_node : option Z) :
  __init__ edges = Some self →
  source_node ∈ get_nodes edges →
  destination_of self destination_node = source_node →
  iterate (get_simple_paths self source_node destination_node)
    = nx.Ok [[source_node]].
Proof.
  intros [Hedges HG]%init_members Hs Hd. unfold get_simple_paths.
  rewrite Hd, HG. rewrite decide_True by (by eapply nodes_nonempty).
  destruct (networkx_graph_spec edges) as (_ & Hnodes & _ & _).
  unfold iterate, nx.iterate. simpl.
  rewrite !decide_True by (by apply Hnodes).
  f_equal.
  destruct (nx.number_of_nodes _ - 1)%nat as [|room]; simpl;
    rewrite (decide_True (P := source_node = source_node)) by done; [done|].
  by rewrite (decide_False (P := _ ∧ _)) by tauto.
Qed.

(** The cycle 1 -> 2 -> 1: from node 1 to node 1 there is the path [1]. *)
Lemma get_simple_paths_source_is_destination_witness :
  ∃ self, __init__ [(1, 2); (2, 1)] = Some self ∧
    iterate (get_simple_paths self 1 (Some 1)) = nx.Ok [[1]].
Proof.
  destruct (__init__ [(1, 2); (2, 1)]) as [self|] eqn:Hinit;
    [|vm_compute in Hinit; discriminate].
  exists self. split; [reflexivity|].
  apply (get_simple_paths_source_is_destination _ self 1 (Some 1) Hinit).
  - vm_compute. left.
  - reflexivity.
Defined.

(** X13. On a constructed graph the call of [get_simple_paths] raises
    nothing: it returns the empty list when the graph has no edge and the
    generator of networkx otherwise.  Iterating over the returned object
    raises [NodeNotFound] exactly when the graph has an edge and the source,
    or the destination searched for, is not a node.  The destination
    searched for by default is [len(nodes) - 1], which need not be a
    node. *)
Theorem get_simple_paths_fails_iff (edges : list edge) (self : Graph.t)
    (source_node : Z) (destination_node : option Z) :
  __init__ edges = Some self →
  get_simple_paths self source_node destination_node =
    (if decide (edges = []) then paths_list []
     else paths_generator
            (nx.all_simple_paths (networkx_graph self) source_node
               (destination_of self destination_node))) ∧
  (iterate (get_simple_paths self source_node destination_node)
     = nx.NodeNotFound ↔
   edges ≠ [] ∧
   (source_node ∉ get_nodes edges ∨
    destination_of self destination_node ∉ get_nodes edges)).
Proof.
  intros [Hedges HG]%init_members. unfold get_simple_paths. rewrite HG.
  destruct (networkx_graph_spec edges) as (_ & Hnodes & Hlen & _).
  case_decide as Hnonempty.
  - assert (edges ≠ []) as Hne.
    { intros ->. apply Hnonempty. by rewrite Hlen. }
    split; [by rewrite decide_False by done|].
    unfold iterate, nx.iterate. simpl.
    case_decide as Hs; [case_decide as Ht|]; rewrite Hnodes in *.
    + split; [done|]. intros [_ [?|?]]; done.
    + split; [|done]. intros _. split; [done|by right].
    + split; [|done]. intros _. split; [done|by left].
  - assert (edges = []) as Hnil.
    { apply get_nodes_nil_iff, length_zero_iff_nil.
      rewrite <- Hlen. simpl in Hnonempty. lia. }
    split; [by rewrite decide_True by done|].
    split; [done|]. by intros [Hne _].
Qed.

(** The single loop (1, 1): one node, so the default destination is 0,
    which is not a node.  The call from node 1 returns a generator, and the
    iteration over it fails. *)
Lemma get_simple_paths_fails_iff_witness :
  ∃ self, __init__ [(1, 1)] = Some self ∧
    get_simple_paths self 1 None =
      paths_generator (nx.all_simple_paths (networkx_graph self) 1 0) ∧
    iterate (get_simple_paths self 1 None) = nx.NodeNotFound.
Proof.
  destruct (__init__ [(1, 1)]) as [self|] eqn:Hinit;
    [|vm_compute in Hinit; discriminate].
  exists self. split; [reflexivity|].
  destruct (get_simple_paths_fails_iff _ self 1 None Hinit) as [Hcall Hiff].
  pose proof (init_members _ _ Hinit) as [Hedges _].
  split.
  - rewrite Hcall. rewrite decide_False by done.
    unfold destination_of. by rewrite Hedges.
  - apply Hiff. split; [done|]. right.
    unfold destination_of. rewrite Hedges. vm_compute. intros Hin.
    apply elem_of_cons in Hin as [?|Hin]; [discriminate|].
    by apply elem_of_nil in Hin.
Defined.

(** ** More on [get_arbitrary_graph] *)

Section arbitrary_graph_more.

Lemma init_matrix edges self :
  __init__ edges = Some self →
  _initialize_connection_matrix edges = Some (connection_matrix self).
Proof.
  unfold __init__. intros Hinit.
  destruct (_initialize_connection_matrix edges); simpl in Hinit; [|done].
  by injection Hinit as <-.
Qed.

Lemma Sorted_seqZ_nat k : ∀ m, Sorted Z.le (seqZ m (Z.of_nat k)).
Proof.
  induction k as [|k IH]; intros m; [constructor|].
  rewrite seqZ_cons by lia.
  replace (Z.pred (Z.of_nat (S k))) with (Z.of_nat k) by lia.
  constructor; [apply IH|].
  destruct k as [|k]; [constructor|].
  rewrite seqZ_cons by lia. constructor. lia.
Qed.

Lemma Sorted_range lo hi : Sorted Z.le (range lo hi).
Proof.
  unfold range. destruct (decide (hi - lo ≤ 0)) as [Hle|Hgt].
  - rewrite seqZ_nil by done. constructor.
  - rewrite <- (Z2Nat.id (hi - lo)) by lia. apply Sorted_seqZ_nat.
Qed.

(** A round gives the node [i], when it is not node 0, an edge from a
    smaller node: one found in the dictionary, or the one it adds. *)
Lemma arbitrary_round_in n d i tape pos d' pos' :
  Forall (forward n) d → 0 ≤ i ≤ n - 2 → i ≠ 0 →
  arbitrary_round n d i tape pos = Some (d', pos') →
  ∃ k, (k, i) ∈ keys d'.
Proof.
  intros Hd Hi Hi0 Hrun. unfold arbitrary_round in Hrun.
  rewrite decide_True in Hrun by lia.
  destruct (randint_ok 1 (n - i) tape pos) as (N_oe & HN & HNr); [lia|].
  rewrite (bind_ok _ _ _ _ _ _ HN) in Hrun.
  rewrite decide_True in Hrun by lia.
  destruct (choice_ok (range (i + 1) n) N_oe tape (S pos))
    as (delta_o & pos1 & Hch & Hlen & Hsub).
  { unfold range. rewrite length_seqZ. lia. }
  rewrite (bind_ok _ _ _ _ _ _ Hch) in Hrun. cbv zeta in Hrun.
  set (d1 := foldl (λ d j, dict_set d (i, j) (0, 0)) d delta_o) in *.
  destruct (existsb (λ k, dict_mem d1 (k, i)) (range 0 i)) eqn:Hfound;
    simpl in Hrun.
  - unfold rnd.ret in Hrun. injection Hrun as <- <-.
    apply existsb_exists in Hfound as (k & _ & Hk).
    exists k. by apply bool_decide_eq_true in Hk.
  - rewrite bool_decide_eq_true_2 in Hrun by done.
    unfold rnd.bind in Hrun.
    destruct ((if decide (i > 1) then rnd.randint 0 (i - 1) else rnd.ret 0)
                tape pos1) as [[n_in pos2]|]; [|done].
    unfold rnd.ret in Hrun. injection Hrun as <- <-.
    exists n_in. apply keys_dict_set. by right.
Qed.

Lemma arbitrary_rounds_in n nodes : ∀ d tape pos d' pos',
  Forall (forward n) d → Forall (λ i, 0 ≤ i ≤ n - 2) nodes →
  arbitrary_rounds n d nodes tape pos = Some (d', pos') →
  ∀ i, i ∈ nodes → i ≠ 0 → ∃ k, (k, i) ∈ keys d'.
Proof.
  induction nodes as [|i nodes IH]; intros d tape pos d' pos' Hd Hnodes Hrun;
    simpl in Hrun.
  - intros i Hi. by apply elem_of_nil in Hi.
  - apply Forall_cons in Hnodes as [Hi Hnodes].
    destruct (arbitrary_round_ok n d i tape pos Hd Hi)
      as (d1 & pos1 & Hrun1 & Hfw1 & _ & _).
    rewrite (bind_ok _ _ _ _ _ _ Hrun1) in Hrun.
    destruct (arbitrary_rounds_ok n nodes d1 tape pos1 Hfw1 Hnodes)
      as (d2 & pos2 & Hrun2 & _ & Hkeep2 & _).
    rewrite Hrun2 in Hrun. injection Hrun as <- <-.
    intros i' [->|Hi']%elem_of_cons Hi0.
    + destruct (arbitrary_round_in n d i tape pos d1 pos1 Hd Hi Hi0 Hrun1)
        as [k Hk].
      exists k. by apply Hkeep2.
    + by apply (IH d1 tape pos1 d2 pos2 Hfw1 Hnodes Hrun2).
Qed.

(** The dictionary of [get_arbitrary_graph]: forward edges only, an edge
    out of every node but the last and an edge into every node but the
    first. *)
Lemma arbitrary_dict_shape n tape pos :
  2 ≤ n →
  ∃ d pos', arbitrary_dict n tape pos = Some (d, pos') ∧
    Forall (forward n) d ∧
    (∀ i, 0 ≤ i < n - 1 → ∃ j, (i, j) ∈ keys d) ∧
    (∀ i, 1 ≤ i < n → ∃ k, (k, i) ∈ keys d).
Proof.
  intros Hn.
  destruct (arbitrary_dict_ok n tape pos) as (d & pos' & Hrun & Hfw & Hout).
  exists d, pos'. split_and!; [done|done|done|].
  intros i Hi. destruct (decide (i = n - 1)) as [->|Hne].
  - destruct (Hout (n - 2)) as [j Hj]; [lia|].
    pose proof Hj as [v Hin]%elem_of_keys.
    destruct (proj1 (Forall_forall _ _) Hfw _ Hin) as (_ & ? & ? & _).
    simpl in *. assert (j = n - 1) as -> by lia. by exists (n - 2).
  - apply (arbitrary_rounds_in n (range 0 (n - 1)) [] tape pos d pos').
    + constructor.
    + apply Forall_forall. intros i' Hi'%elem_of_range. lia.
    + done.
    + apply elem_of_range. lia.
    + lia.
Qed.

Lemma walk_app edges p x q :
  walk edges (p ++ [x]) → walk edges (x :: q) → walk edges (p ++ x :: q).
Proof.
  induction p as [|y p IH]; intros H1 H2; simpl in *; [done|].
  destruct p as [|z p]; simpl in *.
  - inversion H1; subst. by constructor.
  - inversion H1; subst. constructor; [done|]. by apply IH.
Qed.

Section reach.

Context (edges : list edge) (n : Z).
Hypothesis Hfw : ∀ a b, (a, b) ∈ edges → 0 ≤ a ∧ a < b ∧ b < n.
Hypothesis Hout : ∀ i, 0 ≤ i < n - 1 → ∃ j, (i, j) ∈ edges.
Hypothesis Hin : ∀ i, 1 ≤ i < n → ∃ k, (k, i) ∈ edges.

Lemma reach_from_zero (m : nat) : ∀ v,
  0 ≤ v < n → v ≤ Z.of_nat m →
  ∃ p, walk edges (p ++ [v]) ∧ head (p ++ [v]) = Some 0.
Proof.
  induction m as [|m IH]; intros v Hv Hm.
  - assert (v = 0) as -> by lia. exists []. split; [constructor|done].
  - destruct (decide (v = 0)) as [->|Hne].
    { exists []. split; [constructor|done]. }
    destruct (Hin v) as [k Hk]; [lia|].
    pose proof (Hfw k v Hk) as (? & ? & ?).
    destruct (IH k) as (p & Hwalk & Hhead); [lia|lia|].
    exists (p ++ [k]). split.
    + rewrite <- app_assoc. simpl. apply walk_app; [done|].
      constructor; [done|constructor].
    + rewrite <- app_assoc. by destruct p.
Qed.

Lemma reach_to_last (m : nat) : ∀ v,
  0 ≤ v < n → n - 1 - v ≤ Z.of_nat m →
  ∃ q, walk edges (v :: q) ∧ last (v :: q) = Some (n - 1).
Proof.
  induction m as [|m IH]; intros v Hv Hm.
  - assert (v = n - 1) as -> by lia. exists []. split; [constructor|done].
  - destruct (decide (v = n - 1)) as [->|Hne].
    { exists []. split; [constructor|done]. }
    destruct (Hout v) as [j Hj]; [lia|].
    pose proof (Hfw v j Hj) as (? & ? & ?).
    destruct (IH j) as (q & Hwalk & Hlast); [lia|lia|].
    exists (j :: q). split; [by constructor|done].
Qed.

(** Every node lies on a walk from node 0 to node [n - 1]. *)
Lemma through_every_node v :
  0 ≤ v < n →
  ∃ p, walk edges p ∧ head p = Some 0 ∧ last p = Some (n - 1) ∧ v ∈ p.
Proof.
  intros Hv.
  destruct (reach_from_zero (Z.to_nat v) v) as (p & Hwp & Hhead); [lia..|].
  destruct (reach_to_last (Z.to_nat (n - 1 - v)) v) as (q & Hwq & Hlast);
    [lia..|].
  exists (p ++ v :: q). split_and!.
  - by apply walk_app.
  - by destruct p.
  - by rewrite last_app_cons.
  - apply elem_of_app. right. left.
Qed.

End reach.

End arbitrary_graph_more.

(** X14. [get_arbitrary_graph(n)] with [n <= 1] makes no random draw and
    returns the graph without edges, which has no node at all, not [n]
    nodes; its search for paths returns the empty list. *)
Theorem get_arbitrary_graph_small (n : Z) (tape : nat → nat) (pos : nat) :
  n ≤ 1 →
  get_arbitrary_graph n tape pos = Some (Graph.mk [] [] nx.empty, pos) ∧
  get_nodes (Graph.edges (Graph.mk [] [] nx.empty)) = [] ∧
  ∀ source_node destination_node,
    get_simple_paths (Graph.mk [] [] nx.empty) source_node destination_node
      = paths_list [].
Proof.
  intros Hn. split_and!; [|done|done].
  unfold get_arbitrary_graph, arbitrary_dict, range.
  by rewrite seqZ_nil by lia.
Qed.

Lemma get_arbitrary_graph_small_witness :
  get_arbitrary_graph 1 (λ _, 0%nat) 0%nat
    = Some (Graph.mk [] [] nx.empty, 0%nat) ∧
  nx.number_of_nodes (networkx_graph (Graph.mk [] [] nx.empty)) = 0%nat.
Proof.
  split; [|reflexivity].
  apply (get_arbitrary_graph_small 1 (λ _, 0%nat) 0%nat). lia.
Defined.

(** X15. For [n >= 2] and every stream of draws, the graph of
    [get_arbitrary_graph(n)] has exactly the nodes [0 .. n-1]: its node
    list and the node list of its networkx graph are [range(0, n)], its
    connection matrix is n by n, and the destination that
    [get_simple_paths] searches for by default is the node [n - 1]. *)
Theorem get_arbitrary_graph_nodes (n : Z) (tape : nat → nat) (pos : nat) :
  2 ≤ n →
  ∃ g pos', get_arbitrary_graph n tape pos = Some (g, pos') ∧
    get_nodes (Graph.edges g) = range 0 n ∧
    nx._node (networkx_graph g) = range 0 n ∧
    np.square (Z.to_nat n) (connection_matrix g) ∧
    destination_of g None = n - 1.
Proof.
  intros Hn.
  destruct (arbitrary_dict_shape n tape pos Hn)
    as (d & pos' & Hrun & Hfw & Hout & _).
  destruct (forward_init n d Hn Hfw Hout) as (g & Hinit & Hedges).
  destruct (forward_nodes n d Hn Hfw Hout) as [Hnodes Hlen].
  exists g, pos'.
  assert (get_nodes (Graph.edges g) = range 0 n) as Hrange.
  { rewrite Hedges. apply sorted_members_eq.
    - apply Sorted_get_nodes.
    - apply Sorted_range.
    - apply NoDup_get_nodes.
    - apply NoDup_seqZ.
    - intros x. by rewrite Hnodes, elem_of_range. }
  split_and!.
  - unfold get_arbitrary_graph. rewrite (bind_ok _ _ _ _ _ _ Hrun).
    by rewrite Hinit.
  - done.
  - destruct (init_members _ _ Hinit) as [_ ->].
    destruct (networkx_graph_lists (keys d)) as [-> _]. by rewrite <- Hedges.
  - destruct (connection_matrix_cells _ _ (init_matrix _ _ Hinit)) as [Hsq _].
    by rewrite Hlen in Hsq.
  - unfold destination_of. rewrite Hedges, Hlen. lia.
Qed.

Lemma get_arbitrary_graph_nodes_witness :
  ∃ g pos', get_arbitrary_graph 3 (λ _, 0%nat) 0%nat = Some (g, pos') ∧
    get_nodes (Graph.edges g) = [0; 1; 2] ∧
    nx._node (networkx_graph g) = [0; 1; 2] ∧
    np.square 3 (connection_matrix g) ∧
    destination_of g None = 2.
Proof.
  apply (get_arbitrary_graph_nodes 3 (λ _, 0%nat) 0%nat). lia.
Defined.

(** X16. For [n >= 2] and every stream of draws, every node of the graph of
    [get_arbitrary_graph(n)] lies on a path from node 0 to node [n - 1]:
    [get_simple_paths] from node 0, with the default destination, succeeds
    and returns at least one path, and each node is on one of the paths
    returned, as the returned object yields them. *)
Theorem get_arbitrary_graph_connected (n : Z) (tape : nat → nat) (pos : nat) :
  2 ≤ n →
  ∃ g pos' paths,
    get_arbitrary_graph n tape pos = Some (g, pos') ∧
    iterate (get_simple_paths g 0 None) = nx.Ok paths ∧
    paths ≠ [] ∧
    ∀ v, 0 ≤ v < n → ∃ p, p ∈ paths ∧ v ∈ p.
Proof.
  intros Hn.
  destruct (arbitrary_dict_shape n tape pos Hn)
    as (d & pos' & Hrun & Hfw & Hout & Hin).
  destruct (forward_init n d Hn Hfw Hout) as (g & Hinit & Hedges).
  destruct (forward_nodes n d Hn Hfw Hout) as [Hnodes Hlen].
  assert (∀ a b, (a, b) ∈ keys d → 0 ≤ a ∧ a < b ∧ b < n) as Hkey.
  { intros a b [v Hv]%elem_of_keys.
    destruct (proj1 (Forall_forall _ _) Hfw _ Hv) as (? & ? & ? & _). done. }
  assert (destination_of g None = n - 1) as Hdest.
  { unfold destination_of. rewrite Hedges, Hlen. lia. }
  destruct (init_members _ _ Hinit) as [_ HG].
  assert (∀ v, 0 ≤ v < n → ∃ p, simple_path (keys d) 0 (n - 1) p ∧ v ∈ p)
    as Hsimple.
  { intros v Hv.
    destruct (through_every_node (keys d) n Hkey Hout Hin v Hv)
      as (p & Hwalk & Hhead & Hlast & Hvp).
    exists p. split; [|done]. split_and!; [|done|done| |done].
    - apply (walk_nodes _ _ Hwalk 0 Hhead). apply Hnodes. lia.
    - apply increasing_NoDup, (forward_walk_increasing (keys d)); [|done].
      intros a b Hab. by destruct (Hkey a b Hab) as (_ & ? & _). }
  pose proof (all_simple_paths_spec (keys d) 0 (n - 1)) as Hspec.
  assert (iterate (get_simple_paths g 0 None) =
            nx.iterate (nx.all_simple_paths
                          (_initialize_networkx_graph (keys d)) 0 (n - 1)))
    as Hcall.
  { unfold get_simple_paths. rewrite Hdest, HG.
    rewrite decide_True; [done|]. apply (nodes_nonempty _ 0), Hnodes. lia. }
  destruct (nx.iterate _) as [paths|].
  - exists g, pos', paths.
    assert (∀ v, 0 ≤ v < n → ∃ p, p ∈ paths ∧ v ∈ p) as Hall.
    { intros v Hv. destruct (Hsimple v Hv) as (p & Hp & Hvp).
      exists p. split; [by apply Hspec|done]. }
    split_and!; [|done| |done].
    + unfold get_arbitrary_graph. rewrite (bind_ok _ _ _ _ _ _ Hrun).
      by rewrite Hinit.
    + intros ->. destruct (Hall 0) as (p & Hp & _); [lia|].
      by apply elem_of_nil in Hp.
  - destruct Hspec as [_ Hnone]. destruct (Hsimple 0) as (p & Hp & _); [lia|].
    by destruct (Hnone p).
Qed.

(** Three nodes, every draw equal to 0: the chain 0 -> 1 -> 2. *)
Lemma get_arbitrary_graph_connected_witness :
  ∃ g pos' paths,
    get_arbitrary_graph 3 (λ _, 0%nat) 0%nat = Some (g, pos') ∧
    iterate (get_simple_paths g 0 None) = nx.Ok paths ∧
    paths ≠ [] ∧
    ∀ v, 0 ≤ v < 3 → ∃ p, p ∈ paths ∧ v ∈ p.
Proof.
  apply (get_arbitrary_graph_connected 3 (λ _, 0%nat) 0%nat). lia.
Defined.

(** ** Label stores *)

Import LabelAlgorithm.

Section label_store_facts.

Implicit Types (st : LabelStore) (l : Label) (x y : vector) (ss : stores).

Lemma le_refl x : le x x.
Proof. unfold le. lia. Qed.

Lemma le_trans x y z : le x y → le y z → le x z.
Proof. unfold le. lia. Qed.

Lemma le_antisym x y : le x y → le y x → x = y.
Proof. destruct x, y. unfold le. simpl. intros. f_equal; lia. Qed.

Lemma le_add x y z : le x y → le (add x z) (add y z).
Proof. unfold le, add. simpl. lia. Qed.

Lemma le_add_nonneg x z : 0 ≤ z.1 → 0 ≤ z.2 → le x (add x z).
Proof. unfold le, add. simpl. lia. Qed.

Lemma store_of_insert ss u v st :
  store_of (<[u := st]> ss) v = if decide (u = v) then st else store_of ss v.
Proof.
  unfold store_of. case_decide.
  - subst. by rewrite lookup_insert_eq.
  - by rewrite lookup_insert_ne.
Qed.

Lemma store_of_insert_eq ss u st : store_of (<[u := st]> ss) u = st.
Proof. rewrite store_of_insert. by rewrite decide_True. Qed.

Lemma store_of_insert_ne ss u v st :
  u ≠ v → store_of (<[u := st]> ss) v = store_of ss v.
Proof. intros. rewrite store_of_insert. by rewrite decide_False. Qed.

(** *** markTreated *)

Lemma markTreated_labels st l : label <$> markTreated st l = label <$> st.
Proof.
  unfold markTreated. rewrite <- list_fmap_compose. apply list_fmap_ext.
  intros i e _. simpl. by case_decide.
Qed.

Lemma elem_of_markTreated st l e :
  e ∈ markTreated st l ↔
  (e = mk_entry l true ∧ ∃ e0, e0 ∈ st ∧ label e0 = l) ∨ (e ∈ st ∧ label e ≠ l).
Proof.
  unfold markTreated. rewrite list_elem_of_fmap. split.
  - intros (e0 & -> & He0). case_decide; [left|right]; eauto.
  - intros [[-> (e0 & He0 & Hl)]|[He Hne]].
    + exists e0. by rewrite decide_True.
    + exists e. by rewrite decide_False.
Qed.

(** *** tryInsert *)

Lemma tryInsert_over_budget budget st l :
  budget < weight (resource l) →
  tryInsert budget st l = mk_insertion false [] st.
Proof. intros. unfold tryInsert. by rewrite decide_True. Qed.

Lemma tryInsert_rejected budget st l :
  accepted (tryInsert budget st l) = false → store (tryInsert budget st l) = st.
Proof. unfold tryInsert. repeat case_decide; simpl; done. Qed.

Lemma tryInsert_accepted budget st l :
  accepted (tryInsert budget st l) = true →
  weight (resource l) ≤ budget ∧
  ¬ Exists (λ e, le (resource (label e)) (resource l)) st ∧
  store (tryInsert budget st l) =
    filter (λ e, ¬ dominates (resource l) (resource (label e))) st
      ++ [mk_entry l false].
Proof.
  unfold tryInsert. repeat case_decide; simpl; try done.
  intros _. split_and!; [lia|done|done].
Qed.

Lemma elem_of_tryInsert budget st l e :
  e ∈ store (tryInsert budget st l) →
  e ∈ st ∨ (e = mk_entry l false ∧ accepted (tryInsert budget st l) = true).
Proof.
  destruct (accepted (tryInsert budget st l)) eqn:Hacc.
  - destruct (tryInsert_accepted _ _ _ Hacc) as (_ & _ & ->).
    rewrite elem_of_app, list_elem_of_filter, list_elem_of_singleton.
    intros [[_ ?]| ->]; [by left|by right].
  - rewrite (tryInsert_rejected _ _ _ Hacc). by left.
Qed.

Lemma tryInsert_accepted_elem budget st l :
  accepted (tryInsert budget st l) = true →
  mk_entry l false ∈ store (tryInsert budget st l).
Proof.
  intros Hacc. destruct (tryInsert_accepted _ _ _ Hacc) as (_ & _ & ->).
  apply elem_of_app. right. left.
Qed.

(** What a store covers stays covered after an insertion. *)
Lemma tryInsert_covered budget st l x :
  Exists (λ e, le (resource (label e)) x) st →
  Exists (λ e, le (resource (label e)) x) (store (tryInsert budget st l)).
Proof.
  intros Hcov. destruct (accepted (tryInsert budget st l)) eqn:Hacc.
  - destruct (tryInsert_accepted _ _ _ Hacc) as (_ & _ & ->).
    apply Exists_exists in Hcov as (e & He & Hle).
    apply Exists_exists.
    destruct (decide (dominates (resource l) (resource (label e)))) as [[Hd _]|Hnd].
    + exists (mk_entry l false). split; [apply elem_of_app; right; left|].
      simpl. by eapply le_trans.
    + exists e. split; [|done]. apply elem_of_app. left.
      by apply list_elem_of_filter.
  - by rewrite (tryInsert_rejected _ _ _ Hacc).
Qed.

(** A label within the budget is covered once it went through [tryInsert]. *)
Lemma tryInsert_covers budget st l :
  weight (resource l) ≤ budget →
  Exists (λ e, le (resource (label e)) (resource l)) (store (tryInsert budget st l)).
Proof.
  intros Hw. unfold tryInsert. rewrite decide_False by lia.
  case_decide as Hex; simpl; [done|].
  apply Exists_app. right. constructor. simpl. apply le_refl.
Qed.

Lemma tryInsert_antichain budget st l :
  antichain (resource <$> (label <$> st)) →
  antichain (resource <$> (label <$> store (tryInsert budget st l))).
Proof.
  intros Hanti. destruct (accepted (tryInsert budget st l)) eqn:Hacc.
  2:{ by rewrite (tryInsert_rejected _ _ _ Hacc). }
  destruct (tryInsert_accepted _ _ _ Hacc) as (_ & Hnone & ->).
  assert (∀ x, x ∈ resource <$> (label <$>
              filter (λ e, ¬ dominates (resource l) (resource (label e))) st) →
            x ∈ resource <$> (label <$> st) ∧ ¬ le x (resource l) ∧
            ¬ dominates (resource l) x) as Hkept.
  { intros x (l' & -> & (e & -> & [Hnd He]%list_elem_of_filter)%list_elem_of_fmap)%list_elem_of_fmap.
    split_and!; [|intros Hle; apply Hnone, Exists_exists; eauto|done].
    apply list_elem_of_fmap. exists (label e). split; [done|].
    apply list_elem_of_fmap. eauto. }
  intros x y. rewrite !fmap_app, !elem_of_app. simpl.
  rewrite !list_elem_of_singleton.
  intros [Hx| ->] [Hy| ->] Hle; [|exfalso..|done].
  - apply Hanti; [by apply Hkept..|done].
  - by apply Hkept in Hx as (_ & Hx & _).
  - apply Hkept in Hy as (_ & Hnle & Hnd).
    destruct (decide (resource l = y)) as [Heq|Hne].
    + apply Hnle. rewrite <- Heq. apply le_refl.
    + by apply Hnd.
Qed.

Lemma tryInsert_NoDup budget st l :
  NoDup (resource <$> (label <$> st)) →
  NoDup (resource <$> (label <$> store (tryInsert budget st l))).
Proof.
  intros Hnd. destruct (accepted (tryInsert budget st l)) eqn:Hacc.
  2:{ by rewrite (tryInsert_rejected _ _ _ Hacc). }
  destruct (tryInsert_accepted _ _ _ Hacc) as (_ & Hnone & ->).
  rewrite !fmap_app. simpl. apply NoDup_app. split_and!.
  - eapply sublist_NoDup; [done|].
    apply fmap_sublist, fmap_sublist, sublist_filter.
  - intros x (l' & -> & (e & -> & [_ He]%list_elem_of_filter)%list_elem_of_fmap)%list_elem_of_fmap.
    intros Heq%list_elem_of_singleton. apply Hnone, Exists_exists.
    exists e. split; [done|]. rewrite Heq. apply le_refl.
  - apply NoDup_singleton.
Qed.

Lemma tryInsert_budget_kept budget st l :
  Forall (λ e, weight (resource (label e)) ≤ budget) st →
  Forall (λ e, weight (resource (label e)) ≤ budget) (store (tryInsert budget st l)).
Proof.
  intros Hall. apply Forall_forall. intros e [He|[-> Hacc]]%elem_of_tryInsert.
  - by apply (proj1 (Forall_forall _ _) Hall).
  - simpl. by destruct (tryInsert_accepted _ _ _ Hacc).
Qed.

End label_store_facts.

(** ** Labels and paths *)

Section label_facts.

Context (graph : WCGraph) (source : Z).
Implicit Types (l p : Label) (ss : stores).

Lemma elem_of_outgoingEdges u v vec :
  (v, vec) ∈ outgoingEdges graph u ↔ ((u, v), vec) ∈ graph.
Proof.
  unfold outgoingEdges. rewrite list_elem_of_omap. split.
  - intros ([[a b] w] & Hin & Heq). simpl in Heq. case_decide; simplify_eq. done.
  - intros Hin. exists ((u, v), vec). split; [done|]. simpl.
    by rewrite decide_True.
Qed.

Lemma prefixes_self l : l ∈ prefixes l.
Proof. destruct l; left. Qed.

Lemma back_nodes_prefixes l : back_nodes l = node_of <$> prefixes l.
Proof. induction l as [s|p IH v vec]; simpl; [done|]. by rewrite IH. Qed.

Lemma valid_prefix l p : valid graph source l → p ∈ prefixes l → valid graph source p.
Proof.
  induction l as [s|l IH v vec]; simpl.
  - intros -> ->%list_elem_of_singleton. done.
  - intros [Hl He] [->|Hp]%elem_of_cons; [done|]. by apply IH.
Qed.

Lemma chain_covered_prefix ss l p :
  chain_covered ss l → p ∈ prefixes l → covered ss (node_of p) (resource p).
Proof.
  induction l as [s|l IH v vec]; simpl.
  - intros [Hc _] ->%list_elem_of_singleton. done.
  - intros [Hc Hl] [->|Hp]%elem_of_cons; [done|]. by apply IH.
Qed.

Lemma chain_covered_mono ss ss' l :
  (∀ u x, covered ss u x → covered ss' u x) →
  chain_covered ss l → chain_covered ss' l.
Proof.
  intros Hmono. induction l as [s|l IH v vec]; simpl.
  - intros [Hc _]. split; [|done]. by apply Hmono.
  - intros [Hc Hl]. split; [by apply Hmono|by apply IH].
Qed.

Lemma covered_up ss u x y : covered ss u x → le x y → covered ss u y.
Proof.
  unfold covered. rewrite !Exists_exists. intros (e & He & Hle) Hxy.
  exists e. split; [done|]. by eapply le_trans.
Qed.

(** Without negative resources a prefix carries no more than the label. *)
Lemma prefix_le l p :
  nonnegative graph → valid graph source l → p ∈ prefixes l →
  le (resource p) (resource l).
Proof.
  intros Hnn. induction l as [s|l IH v vec]; simpl.
  - intros _ ->%list_elem_of_singleton. apply le_refl.
  - intros [Hl He] [->|Hp]%elem_of_cons; [apply le_refl|].
    eapply le_trans; [by apply IH|].
    pose proof (proj1 (Forall_forall _ _) Hnn _ He) as [? ?].
    by apply le_add_nonneg.
Qed.

Lemma valid_nodes l :
  source ∈ nodes graph → valid graph source l →
  ∀ u, u ∈ back_nodes l → u ∈ nodes graph.
Proof.
  intros Hs. induction l as [s|l IH v vec]; simpl.
  - intros -> u ->%list_elem_of_singleton. done.
  - intros [Hl He] u [->|Hu]%elem_of_cons; [|by apply IH].
    apply elem_of_get_nodes. exists (node_of l, v). split; [|by right].
    apply list_elem_of_fmap. by exists ((node_of l, v), vec).
Qed.

Lemma node_of_back_nodes l : node_of l ∈ back_nodes l.
Proof. destruct l; left. Qed.

Lemma simple_depth l :
  source ∈ nodes graph → valid graph source l → simple l →
  (length (back_nodes l) ≤ length (nodes graph))%nat.
Proof.
  intros Hs Hl Hsimple. apply submseteq_length, NoDup_submseteq; [done|].
  by apply valid_nodes.
Qed.

Lemma history_NoDup T : history T → NoDup T.
Proof. induction 1; constructor; done. Qed.

Lemma history_pred T p v vec : history T → Extend p v vec ∈ T → p ∈ T.
Proof.
  induction 1 as [|l T HT IH Hpred Hnew]; [intros H; by apply elem_of_nil in H|].
  intros [<-|Hin]%elem_of_cons; right; [done|by apply IH].
Qed.

(** Every simple path from the source is listed. *)
Lemma descend_step room : ∀ l0 p v vec,
  p ∈ l0 :: descend graph room l0 →
  (length (back_nodes p) < length (back_nodes l0) + room)%nat →
  (v, vec) ∈ outgoingEdges graph (node_of p) → v ∉ back_nodes p →
  Extend p v vec ∈ descend graph room l0.
Proof.
  induction room as [|room IH]; intros l0 p v vec Hp Hdepth He Hv.
  - simpl in Hp. apply list_elem_of_singleton in Hp as ->. lia.
  - simpl. apply list_elem_of_In, in_flat_map.
    apply elem_of_cons in Hp as [->|Hp].
    + exists (v, vec). split; [by apply list_elem_of_In|]. simpl.
      rewrite decide_False by done. left. done.
    + simpl in Hp. apply list_elem_of_In, in_flat_map in Hp as (e0 & He0 & Hp).
      exists e0. split; [done|].
      case_decide as Hvis; [done|]. right. apply list_elem_of_In.
      apply list_elem_of_In in Hp. apply IH; [done| |done|done].
      simpl. lia.
Qed.

Lemma simple_labels_complete l :
  source ∈ nodes graph → valid graph source l → simple l →
  l ∈ simple_labels graph source.
Proof.
  intros Hs. unfold simple_labels. induction l as [s|l IH v vec]; simpl.
  - intros -> _. left.
  - intros [Hl He] Hsimple. right.
    apply NoDup_cons in Hsimple as [Hv Hsimple].
    apply descend_step; [by apply IH| |by apply elem_of_outgoingEdges|done].
    pose proof (simple_depth (Extend l v vec) Hs) as Hd. simpl in Hd.
    assert (S (length (back_nodes l)) ≤ length (nodes graph))%nat.
    { apply Hd; [done|]. by apply NoDup_cons. }
    lia.
Qed.

(** The labels treated are simple paths, each treated once: there are no
    more of them than simple paths. *)
Lemma treated_bound T :
  source ∈ nodes graph → history T →
  (∀ l, l ∈ T → valid graph source l ∧ simple l) →
  (length T ≤ length (simple_labels graph source))%nat.
Proof.
  intros Hs Hhist Hall. apply submseteq_length, NoDup_submseteq.
  - by apply history_NoDup.
  - intros l [Hl Hsimple]%Hall. by apply simple_labels_complete.
Qed.

End label_facts.

(** ** One insertion into the stores of a run *)

Section insert_at_facts.

Context (graph : WCGraph) (source budget : Z).
Implicit Types (l c : Label) (ss : stores) (T : list Label).

Lemma insert_at_store ss c u :
  store_of (insert_at budget ss c) u =
    if decide (node_of c = u)
    then store (tryInsert budget (store_of ss u) c)
    else store_of ss u.
Proof.
  unfold insert_at. rewrite store_of_insert. case_decide; by subst.
Qed.

Lemma insert_at_mono ss c u x :
  covered ss u x → covered (insert_at budget ss c) u x.
Proof.
  unfold covered. rewrite insert_at_store. case_decide; [|done].
  apply tryInsert_covered.
Qed.

Lemma insert_at_covers ss c :
  weight (resource c) ≤ budget →
  covered (insert_at budget ss c) (node_of c) (resource c).
Proof.
  intros Hw. unfold covered. rewrite insert_at_store, decide_True by done.
  by apply tryInsert_covers.
Qed.

Lemma insert_at_entries ss c u e :
  e ∈ store_of (insert_at budget ss c) u →
  e ∈ store_of ss u ∨
  (e = mk_entry c false ∧ u = node_of c ∧
   accepted (tryInsert budget (store_of ss (node_of c)) c) = true).
Proof.
  rewrite insert_at_store. case_decide as Hu; [|by left]. subst u.
  intros [?|[-> ?]]%elem_of_tryInsert; [by left|by right].
Qed.

Lemma insert_at_accepted_elem ss c :
  accepted (tryInsert budget (store_of ss (node_of c)) c) = true →
  mk_entry c false ∈ store_of (insert_at budget ss c) (node_of c).
Proof.
  intros Hacc. rewrite insert_at_store, decide_True by done.
  by apply tryInsert_accepted_elem.
Qed.

Lemma insert_at_antichain ss c u :
  antichain (frontier ss u) → antichain (frontier (insert_at budget ss c) u).
Proof.
  unfold frontier, efficientFrontier. rewrite insert_at_store.
  case_decide; [|done]. apply tryInsert_antichain.
Qed.

Lemma insert_at_NoDup ss c u :
  NoDup (frontier ss u) → NoDup (frontier (insert_at budget ss c) u).
Proof.
  unfold frontier, efficientFrontier. rewrite insert_at_store.
  case_decide; [|done]. apply tryInsert_NoDup.
Qed.

Lemma insert_at_closed (l0 : option Label) ss c :
  closed_except graph budget l0 ss →
  closed_except graph budget l0 (insert_at budget ss c).
Proof.
  intros Hclosed u e He Htreated Hne v vec Hedge Hw.
  apply insert_at_mono.
  apply insert_at_entries in He as [He|[-> _]]; [|done].
  by eapply Hclosed.
Qed.

(** The candidate [Extend l v vec], made while [l] is being treated, keeps
    the invariant: when it is accepted its node is not on the path of [l],
    for otherwise a label no greater than the candidate would be retained
    there already. *)
Lemma insert_at_invariant ss T0 l v vec :
  nonnegative graph →
  invariant graph source budget ss (l :: T0) →
  valid graph source l → within budget l → simple l → chain_covered ss l →
  ((node_of l, v), vec) ∈ graph →
  weight (resource (Extend l v vec)) ≤ budget →
  invariant graph source budget (insert_at budget ss (Extend l v vec)) (l :: T0).
Proof.
  intros Hnn [Hgood Hanti Hnd Hhist Htr Hsrc] Hl Hwithin Hsimple Hchain Hedge Hw.
  set (c := Extend l v vec) in *.
  assert (∀ u x, covered ss u x → covered (insert_at budget ss c) u x) as Hmono.
  { intros u x. apply insert_at_mono. }
  constructor; [|by intros; apply insert_at_antichain
                |by intros; apply insert_at_NoDup|done|done|by apply Hmono].
  intros u e [He|(-> & -> & Hacc)]%insert_at_entries.
  - destruct (Hgood u e He) as (? & ? & ? & ? & ? & ? & ?).
    split_and!; [done..| |done|done]. by eapply chain_covered_mono.
  - destruct (tryInsert_accepted _ _ _ Hacc) as (_ & Hnone & _).
    simpl. split_and!.
    + done.
    + done.
    + done.
    + apply NoDup_cons. split; [|done].
      intros Hv. rewrite back_nodes_prefixes in Hv.
      apply list_elem_of_fmap in Hv as (p & Hvp & Hp).
      apply Hnone. change (covered ss v (resource c)).
      rewrite Hvp. eapply covered_up; [by eapply chain_covered_prefix|].
      eapply le_trans; [by eapply prefix_le|].
      pose proof (proj1 (Forall_forall _ _) Hnn _ Hedge) as [? ?].
      by apply le_add_nonneg.
    + split; [by apply insert_at_covers|]. by eapply chain_covered_mono.
    + left.
    + intros _ [Heq|Hin]%elem_of_cons.
      * apply (f_equal (λ x, length (back_nodes x))) in Heq.
        simpl in Heq. lia.
      * inversion Hhist as [|? ? HT0 _ Hnew]; subst.
        apply Hnew. by eapply history_pred.
Qed.

End insert_at_facts.

(** ** Treating a label *)

Section treat_facts.

Context (graph : WCGraph) (source budget : Z).
Hypothesis Hnn : nonnegative graph.
Implicit Types (l c : Label) (ss : stores) (T : list Label).

Lemma relax_unfold l ss acc (e : Z * vector) :
  relax budget l (ss, acc) e =
    if decide (budget < weight (resource (Extend l e.1 e.2))) then (ss, acc)
    else (insert_at budget ss (Extend l e.1 e.2),
          if accepted (tryInsert budget (store_of ss e.1) (Extend l e.1 e.2))
          then acc ++ [Extend l e.1 e.2] else acc).
Proof. reflexivity. Qed.

Lemma mark_store ss l u :
  store_of (<[node_of l := markTreated (store_of ss (node_of l)) l]> ss) u =
    if decide (node_of l = u) then markTreated (store_of ss u) l else store_of ss u.
Proof. rewrite store_of_insert. case_decide; by subst. Qed.

Lemma mark_covered ss l u x :
  covered (<[node_of l := markTreated (store_of ss (node_of l)) l]> ss) u x ↔
  covered ss u x.
Proof.
  unfold covered. rewrite mark_store. case_decide; [|done].
  change (λ e, le (resource (label e)) x)
    with ((λ l', le (resource l') x) ∘ label).
  by rewrite <- !Exists_fmap, markTreated_labels.
Qed.

Lemma mark_frontier ss l u :
  frontier (<[node_of l := markTreated (store_of ss (node_of l)) l]> ss) u =
  frontier ss u.
Proof.
  unfold frontier, efficientFrontier. rewrite mark_store.
  case_decide; [|done]. by rewrite markTreated_labels.
Qed.

Lemma mark_entries ss l u e :
  (∀ u e, e ∈ store_of ss u → node_of (label e) = u) →
  e ∈ store_of (<[node_of l := markTreated (store_of ss (node_of l)) l]> ss) u →
  (e ∈ store_of ss u ∧ label e ≠ l) ∨
  (e = mk_entry l true ∧ ∃ e0, e0 ∈ store_of ss u ∧ label e0 = l).
Proof.
  intros Hnode. rewrite mark_store. case_decide as Hu.
  - rewrite elem_of_markTreated. tauto.
  - intros He. left. split; [done|].
    intros Hl. apply Hu. rewrite <- Hl. by apply Hnode.
Qed.

(** Marking [l] as treated, which enters the history. *)
Lemma mark_invariant ss T0 l :
  invariant graph source budget ss T0 → closed_except graph budget None ss →
  valid graph source l → simple l → pred_in T0 l → l ∉ T0 →
  let ss1 := <[node_of l := markTreated (store_of ss (node_of l)) l]> ss in
  invariant graph source budget ss1 (l :: T0) ∧
  closed_except graph budget (Some l) ss1.
Proof.
  intros [Hgood Hanti Hnd Hhist Htr Hsrc] Hclosed Hl Hsimple Hpred Hnew ss1.
  assert (∀ u e, e ∈ store_of ss u → node_of (label e) = u) as Hnode.
  { intros u e He. by destruct (Hgood u e He) as (_ & ? & _). }
  assert (∀ u x, covered ss u x → covered ss1 u x) as Hmono.
  { intros u x Hux. by apply mark_covered. }
  assert (∀ T l', pred_in T l' → pred_in (l :: T) l') as Hweak.
  { intros T [s|p v vec]; simpl; [done|]. by right. }
  split.
  - constructor.
    + intros u e Hm.
      apply mark_entries in Hm as [[He Hne]|[-> (e0 & He0 & Hl0)]]; [| |done].
      * destruct (Hgood u e He) as (? & ? & ? & ? & ? & ? & Hun).
        split_and!; [done..|by eapply chain_covered_mono|by apply Hweak|].
        intros Hf [?|?]%elem_of_cons; [done|]. by apply Hun.
      * destruct (Hgood u e0 He0) as (? & ? & ? & ? & ? & ? & _).
        subst l. simpl.
        split_and!; [done..|by eapply chain_covered_mono|by apply Hweak|done].
    + intros u. unfold ss1. by rewrite mark_frontier.
    + intros u. unfold ss1. by rewrite mark_frontier.
    + by constructor.
    + intros l' [->|Hin]%elem_of_cons; [done|by apply Htr].
    + by apply Hmono.
  - intros u e Hm Htreated Hne0 v vec Hedge Hw.
    apply mark_entries in Hm as [[He Hne]|[-> _]]; [|by simpl in Hne0|done].
    apply Hmono. by eapply Hclosed.
Qed.

(** The extensions of [l] across a list of its outgoing edges. *)
Lemma extend_fold l T0 es : ∀ ss acc,
  invariant graph source budget ss (l :: T0) →
  closed_except graph budget (Some l) ss →
  valid graph source l → within budget l → simple l → chain_covered ss l →
  (∀ e : Z * vector, e ∈ es → ((node_of l, e.1), e.2) ∈ graph) →
  let r := foldl (relax budget l) (ss, acc) es in
  invariant graph source budget r.1 (l :: T0) ∧
  closed_except graph budget (Some l) r.1 ∧
  (∀ u x, covered ss u x → covered r.1 u x) ∧
  (∀ e : Z * vector, e ∈ es → weight (add (resource l) e.2) ≤ budget →
     covered r.1 e.1 (add (resource l) e.2)) ∧
  (∀ u e', e' ∈ store_of r.1 u →
     e' ∈ store_of ss u ∨ (treated e' = false ∧ label e' ∈ r.2)) ∧
  (∀ c, c ∈ r.2 → c ∈ acc ∨ ∃ e : Z * vector, e ∈ es ∧ c = Extend l e.1 e.2) ∧
  (∀ c, c ∈ acc → c ∈ r.2).
Proof.
  induction es as [|e es IH]; intros ss acc Hinv Hclosed Hl Hwithin Hsimple Hchain Hes.
  - simpl. split_and!; try done; [|by left|by left].
    intros e He. by apply elem_of_nil in He.
  - simpl. rewrite relax_unfold. case_decide as Hover.
    + destruct (IH ss acc) as (Hinv' & Hclosed' & Hmono & Hcov & Hent & Hacc & Hsub);
        [done..| |].
      { intros e' He'. apply Hes. by right. }
      split_and!; [done|done|done| |done| |done].
      * intros e' [->|He']%elem_of_cons Hw; [|by apply Hcov].
        simpl in Hover. unfold weight in *. lia.
      * intros c [?|(e' & He' & ->)]%Hacc; [by left|].
        right. exists e'. split; [by right|done].
    + set (c := Extend l e.1 e.2) in *.
      assert (weight (resource c) ≤ budget) as Hw by lia.
      assert (((node_of l, e.1), e.2) ∈ graph) as Hedge by (apply Hes; left).
      set (acc1 := if accepted (tryInsert budget (store_of ss e.1) c)
                   then acc ++ [c] else acc).
      destruct (IH (insert_at budget ss c) acc1)
        as (Hinv' & Hclosed' & Hmono & Hcov & Hent & Hacc & Hsub).
      { by apply insert_at_invariant. }
      { by apply insert_at_closed. }
      { done. } { done. } { done. }
      { eapply chain_covered_mono; [|done]. intros u x. apply insert_at_mono. }
      { intros e' He'. apply Hes. by right. }
      split_and!; [done|done| | | | |].
      * intros u x Hux. by apply Hmono, insert_at_mono.
      * intros e' [->|He']%elem_of_cons Hw'; [|by apply Hcov].
        apply Hmono. by apply (insert_at_covers budget ss c).
      * intros u e' [He'|?]%Hent; [|by right].
        apply insert_at_entries in He' as [?|(-> & -> & Haccepted)]; [by left|].
        right. split; [done|]. apply Hsub. unfold acc1.
        change (node_of c) with e.1 in Haccepted. rewrite Haccepted.
        apply elem_of_app. right. left.
      * intros c' [Hc'|(e' & He' & ->)]%Hacc.
        -- unfold acc1 in Hc'. destruct (accepted _); [|by left].
           apply elem_of_app in Hc' as [?|Hc']; [by left|].
           apply list_elem_of_singleton in Hc' as ->.
           right. exists e. split; [left|done].
        -- right. exists e'. split; [by right|done].
      * intros c' Hc'. apply Hsub. unfold acc1. destruct (accepted _); [|done].
        apply elem_of_app. by left.
Qed.

(** A label is treated: it is marked, it enters the history, and the
    accepted candidates are the only new untreated labels. *)
Lemma treat_spec ss T0 l :
  invariant graph source budget ss T0 → closed_except graph budget None ss →
  valid graph source l → within budget l → simple l → chain_covered ss l →
  pred_in T0 l → l ∉ T0 →
  let r := treat graph budget ss l in
  invariant graph source budget r.1 (l :: T0) ∧
  closed_except graph budget None r.1 ∧
  (∀ u x, covered ss u x → covered r.1 u x) ∧
  (∀ u e, e ∈ store_of r.1 u → treated e = false →
     (e ∈ store_of ss u ∧ label e ≠ l) ∨ label e ∈ r.2) ∧
  (∀ c, c ∈ r.2 → node_of c ∈ nodes graph).
Proof.
  intros Hinv Hclosed Hl Hwithin Hsimple Hchain Hpred Hnew r.
  destruct (mark_invariant ss T0 l Hinv Hclosed Hl Hsimple Hpred Hnew)
    as [Hinv1 Hclosed1].
  set (ss1 := <[node_of l := markTreated (store_of ss (node_of l)) l]> ss) in *.
  assert (∀ u e, e ∈ store_of ss u → node_of (label e) = u) as Hnode.
  { intros u e He. by destruct (inv_good _ _ _ _ _ Hinv u e He) as (_ & ? & _). }
  destruct (extend_fold l T0 (outgoingEdges graph (node_of l)) ss1 [])
    as (Hinv' & Hclosed' & Hmono & Hcov & Hent & Hacc & _); [done..| | |].
  { eapply chain_covered_mono; [|done]. intros u x Hux. by apply mark_covered. }
  { intros [v vec] He. by apply elem_of_outgoingEdges. }
  fold (extend graph budget ss1 l) in Hinv', Hclosed', Hmono, Hcov, Hent, Hacc.
  change (extend graph budget ss1 l) with r in *.
  split_and!.
  - done.
  - intros u e He Htreated _ v vec Hedge Hw.
    destruct (decide (label e = l)) as [Heq|Hne].
    + destruct (inv_good _ _ _ _ _ Hinv' u e He) as (_ & Hu & _).
      rewrite Heq in *. subst u. by apply (Hcov (v, vec)).
    + eapply Hclosed'; [done..| |done|done]. congruence.
  - intros u x Hux. apply Hmono. by apply mark_covered.
  - intros u e [He|[_ ?]]%Hent Huntreated; [|by right].
    apply mark_entries in He as [?|[-> _]]; [by left|done|done].
  - intros c [Hc|(e & He & ->)]%Hacc; [by apply elem_of_nil in Hc|].
    simpl. apply elem_of_get_nodes. destruct e as [v vec].
    apply elem_of_outgoingEdges in He.
    exists (node_of l, v). split; [|by right].
    apply list_elem_of_fmap. by exists ((node_of l, v), vec).
Qed.

End treat_facts.

(** ** What a closed set of stores holds *)

Section efficient_facts.

Context (graph : WCGraph) (source budget : Z).
Implicit Types (l : Label) (ss : stores) (T : list Label).

Lemma covered_frontier ss u x :
  covered ss u x ↔ ∃ y, y ∈ frontier ss u ∧ le y x.
Proof.
  unfold covered, frontier, efficientFrontier. rewrite Exists_exists. split.
  - intros (e & He & Hle). exists (resource (label e)). split; [|done].
    apply list_elem_of_fmap. exists (label e). split; [done|].
    apply list_elem_of_fmap. eauto.
  - intros (y & (l & -> & (e & -> & He)%list_elem_of_fmap)%list_elem_of_fmap & Hle).
    eauto.
Qed.

(** Two sets of stores that are both efficient have the same frontiers. *)
Lemma efficient_unique ss1 ss2 u x :
  efficient graph source budget ss1 → efficient graph source budget ss2 →
  x ∈ frontier ss1 u → x ∈ frontier ss2 u.
Proof.
  intros H1 H2 Hx.
  destruct (H1 u) as (Hanti1 & Hsound1 & Hcomplete1).
  destruct (H2 u) as (Hanti2 & Hsound2 & Hcomplete2).
  destruct (proj1 (covered_frontier ss2 u x) (Hcomplete2 x (Hsound1 x Hx)))
    as (y & Hy & Hyx).
  destruct (proj1 (covered_frontier ss1 u y) (Hcomplete1 y (Hsound2 y Hy)))
    as (z & Hz & Hzy).
  assert (z = x) as -> by (apply Hanti1; [done..|by eapply le_trans]).
  by rewrite (le_antisym x y).
Qed.

(** Once every retained label is treated, every walk from the source that
    respects the budget is covered at its end. *)
Lemma closed_covers ss l :
  closed_except graph budget None ss →
  (∀ u e, e ∈ store_of ss u → treated e = true) →
  covered ss source (0, 0) →
  valid graph source l → within budget l →
  covered ss (node_of l) (resource l).
Proof.
  intros Hclosed Hall Hsrc. induction l as [s|l IH v vec]; simpl.
  - by intros -> _.
  - intros [Hl Hedge] [Hw Hwithin].
    specialize (IH Hl Hwithin). unfold covered in IH.
    apply Exists_exists in IH as (e & He & Hle).
    eapply covered_up; [|by apply le_add].
    apply (Hclosed (node_of l) e He (Hall _ _ He));
      [done|by apply elem_of_outgoingEdges|].
    pose proof (le_add _ _ vec Hle) as [Hle1 _].
    unfold weight, add in *. simpl in *. lia.
Qed.

Lemma invariant_efficient ss T :
  invariant graph source budget ss T →
  closed_except graph budget None ss →
  (∀ u e, e ∈ store_of ss u → treated e = true) →
  efficient graph source budget ss.
Proof.
  intros Hinv Hclosed Hall u. split_and!.
  - apply Hinv.
  - intros x (l & -> & (e & -> & He)%list_elem_of_fmap)%list_elem_of_fmap.
    destruct (inv_good _ _ _ _ _ Hinv u e He) as (? & ? & ? & ? & _).
    by exists (label e).
  - intros x (l & Hl & _ & Hwithin & <- & <-).
    apply closed_covers; [done|done|apply Hinv|done|done].
Qed.

End efficient_facts.

(** ** The stores before propagation *)

Section initial_facts.

Context (source : Z).

Lemma store_of_initial u :
  store_of (initial source) u =
    if decide (source = u) then [mk_entry (Zero source) false] else [].
Proof.
  unfold store_of, initial. case_decide.
  - subst. by rewrite lookup_singleton_eq.
  - by rewrite lookup_singleton_ne.
Qed.

Lemma initial_entries u e :
  e ∈ store_of (initial source) u → u = source ∧ e = mk_entry (Zero source) false.
Proof.
  rewrite store_of_initial. case_decide; [|by intros ?%elem_of_nil].
  by intros ->%list_elem_of_singleton.
Qed.

Lemma initial_covered : covered (initial source) source (0, 0).
Proof.
  unfold covered. rewrite store_of_initial, decide_True by done.
  constructor. simpl. apply le_refl.
Qed.

Lemma initial_frontier u :
  frontier (initial source) u = if decide (source = u) then [(0, 0)] else [].
Proof.
  unfold frontier, efficientFrontier. rewrite store_of_initial.
  by case_decide.
Qed.

Lemma initial_dirty_listed : dirty_listed (initial source) [source].
Proof. intros u e [-> ->]%initial_entries _. left. Qed.

End initial_facts.

(** ** The setting and the correcting loops *)

Section loop_facts.

Context (graph : WCGraph) (source budget : Z).
Hypothesis Hnn : nonnegative graph.
Hypothesis Hsource : source ∈ nodes graph.
Hypothesis Hbudget : 0 ≤ budget.
Implicit Types (l : Label) (ss : stores) (T : list Label).

Lemma initial_invariant : invariant graph source budget (initial source) [].
Proof.
  constructor.
  - intros u e [-> ->]%initial_entries. simpl.
    split_and!; try done.
    + apply NoDup_singleton.
    + split; [apply initial_covered|done].
    + intros _ H. by apply elem_of_nil in H.
  - intros u x y. rewrite initial_frontier. case_decide.
    + by intros ->%list_elem_of_singleton ->%list_elem_of_singleton.
    + by intros ?%elem_of_nil.
  - intros u. rewrite initial_frontier. case_decide; [apply NoDup_singleton|constructor].
  - constructor.
  - intros l H. by apply elem_of_nil in H.
  - apply initial_covered.
Qed.

Lemma initial_closed : closed_except graph budget None (initial source).
Proof. by intros u e [-> ->]%initial_entries. Qed.

Lemma entry_node ss T u e :
  invariant graph source budget ss T → e ∈ store_of ss u → u ∈ nodes graph.
Proof.
  intros Hinv He.
  destruct (inv_good _ _ _ _ _ Hinv u e He) as (Hvalid & <- & _).
  eapply valid_nodes; [done..|]. apply node_of_back_nodes.
Qed.

Lemma elem_of_untreatedLabels (st : LabelStore) l :
  l ∈ untreatedLabels st ↔ ∃ e, e ∈ st ∧ treated e = false ∧ label e = l.
Proof.
  unfold untreatedLabels. rewrite list_elem_of_fmap. split.
  - intros (e & -> & [? ?]%list_elem_of_filter). by exists e.
  - intros (e & ? & ? & <-). exists e. split; [done|]. by apply list_elem_of_filter.
Qed.

Lemma untreatedLabels_NoDup ss T u :
  invariant graph source budget ss T → NoDup (untreatedLabels (store_of ss u)).
Proof.
  intros Hinv. unfold untreatedLabels.
  eapply sublist_NoDup; [|apply fmap_sublist, sublist_filter].
  eapply NoDup_fmap_1. apply (inv_NoDup _ _ _ _ _ Hinv u).
Qed.

Lemma elem_of_untreated_all ss l :
  l ∈ untreated_all graph ss ↔
  ∃ u e, u ∈ nodes graph ∧ e ∈ store_of ss u ∧ treated e = false ∧ label e = l.
Proof.
  unfold untreated_all. rewrite list_elem_of_In, in_flat_map. split.
  - intros (u & Hu%list_elem_of_In & (e & ? & ? & ?)%list_elem_of_In%elem_of_untreatedLabels).
    by exists u, e.
  - intros (u & e & Hu & He & Htr & Hl). exists u. split; [by apply list_elem_of_In|].
    apply list_elem_of_In, elem_of_untreatedLabels. by exists e.
Qed.

Lemma extract_min_elem ls l : extract_min ls = Some l → l ∈ ls.
Proof.
  revert l. induction ls as [|l0 ls IH]; intros l; simpl; [done|].
  destruct (extract_min ls) as [m|].
  - case_decide; intros [= <-]; [right; by apply IH|left].
  - intros [= <-]. left.
Qed.

Lemma extract_min_None ls : extract_min ls = None → ls = [].
Proof.
  destruct ls as [|l0 ls]; simpl; [done|].
  destruct (extract_min ls); [case_decide|]; done.
Qed.

(** What is known of an untreated retained label: it may be treated. *)
Lemma untreated_ready ss T u e :
  invariant graph source budget ss T → e ∈ store_of ss u → treated e = false →
  valid graph source (label e) ∧ within budget (label e) ∧ simple (label e) ∧
  chain_covered ss (label e) ∧ pred_in T (label e) ∧ label e ∉ T.
Proof.
  intros Hinv He Hun.
  destruct (inv_good _ _ _ _ _ Hinv u e He) as (? & ? & ? & ? & ? & ? & Hnew).
  split_and!; try done. by apply Hnew.
Qed.

Lemma setting_loop_unfold fuel ss :
  setting_loop graph budget fuel ss =
    match setting_step graph budget ss with
    | None => Some ss
    | Some ss' =>
        match fuel with
        | O => None
        | S fuel' => setting_loop graph budget fuel' ss'
        end
    end.
Proof. by destruct fuel. Qed.

(** One round of the setting strategy treats one more label, or finds
    every retained label treated. *)
Lemma setting_step_spec ss T :
  invariant graph source budget ss T → closed_except graph budget None ss →
  match setting_step graph budget ss with
  | None => ∀ u e, e ∈ store_of ss u → treated e = true
  | Some ss' =>
      ∃ l, invariant graph source budget ss' (l :: T) ∧
           closed_except graph budget None ss'
  end.
Proof.
  intros Hinv Hclosed. unfold setting_step.
  destruct (extract_min (untreated_all graph ss)) as [l|] eqn:Hmin.
  - apply extract_min_elem, elem_of_untreated_all in Hmin
      as (u & e & Hu & He & Hun & <-).
    destruct (untreated_ready ss T u e Hinv He Hun)
      as (Hl & Hwithin & Hsimple & Hchain & Hpred & Hnew).
    destruct (treat_spec graph source budget Hnn ss T (label e)
                Hinv Hclosed Hl Hwithin Hsimple Hchain Hpred Hnew)
      as (Hinv' & Hclosed' & _).
    by exists (label e).
  - apply extract_min_None in Hmin. intros u e He.
    destruct (treated e) eqn:Hun; [done|].
    assert (label e ∈ untreated_all graph ss) as Hin.
    { apply elem_of_untreated_all. exists u, e.
      split_and!; [by eapply entry_node|done..]. }
    rewrite Hmin in Hin. by apply elem_of_nil in Hin.
Qed.

(** The setting loop ends within as many rounds as there are simple paths
    not yet treated, with every retained label treated. *)
Lemma setting_loop_ends fuel : ∀ ss T,
  invariant graph source budget ss T → closed_except graph budget None ss →
  (length (simple_labels graph source) - length T ≤ fuel)%nat →
  ∃ ss' T', setting_loop graph budget fuel ss = Some ss' ∧
    invariant graph source budget ss' T' ∧
    closed_except graph budget None ss' ∧
    (∀ u e, e ∈ store_of ss' u → treated e = true).
Proof.
  induction fuel as [|fuel IH]; intros ss T Hinv Hclosed Hfuel.
  all: rewrite setting_loop_unfold.
  all: pose proof (setting_step_spec ss T Hinv Hclosed) as Hstep.
  all: destruct (setting_step graph budget ss) as [ss1|]; [|by exists ss, T].
  all: destruct Hstep as (l & Hinv' & Hclosed').
  all: pose proof (treated_bound graph source (l :: T) Hsource
                     (inv_history _ _ _ _ _ Hinv')
                     (inv_treated _ _ _ _ _ Hinv')) as Hbound.
  all: change (length (l :: T)) with (S (length T)) in Hbound.
  - lia.
  - apply (IH ss1 (l :: T)); [done..|].
    change (length (l :: T)) with (S (length T)). lia.
Qed.

(** *** The worklist *)

Lemma elem_of_enqueue wl u x : x ∈ enqueue wl u ↔ x ∈ wl ∨ x = u.
Proof.
  unfold enqueue. case_decide.
  - split; [by left|]. by intros [?| ->].
  - by rewrite elem_of_app, list_elem_of_singleton.
Qed.

Lemma enqueue_NoDup wl u : NoDup wl → NoDup (enqueue wl u).
Proof.
  intros Hnd. unfold enqueue. case_decide; [done|].
  apply NoDup_app. split_and!; [done| |apply NoDup_singleton].
  intros x Hx ->%list_elem_of_singleton. done.
Qed.

Lemma elem_of_foldl_enqueue us : ∀ wl x,
  x ∈ foldl enqueue wl us ↔ x ∈ wl ∨ x ∈ us.
Proof.
  induction us as [|u us IH]; intros wl x; simpl.
  - rewrite elem_of_nil. tauto.
  - rewrite IH, elem_of_enqueue, elem_of_cons. tauto.
Qed.

Lemma foldl_enqueue_NoDup us : ∀ wl, NoDup wl → NoDup (foldl enqueue wl us).
Proof.
  induction us as [|u us IH]; intros wl Hnd; simpl; [done|].
  by apply IH, enqueue_NoDup.
Qed.

(** *** One round of the correcting strategy *)

Lemma ready_later ss ss' T l l' :
  (∀ u x, covered ss u x → covered ss' u x) → l' ≠ l →
  ready graph source budget ss T l' →
  ready graph source budget ss' (l :: T) l'.
Proof.
  intros Hmono Hne (? & ? & ? & ? & Hpred & Hnew).
  split_and!; [done..|by eapply chain_covered_mono| |].
  - destruct l'; simpl in *; [done|by right].
  - intros [?|?]%elem_of_cons; done.
Qed.

Lemma treat_all_fold ls : ∀ ss T acc,
  invariant graph source budget ss T → closed_except graph budget None ss →
  NoDup ls → (∀ l, l ∈ ls → ready graph source budget ss T l) →
  let r := foldl (λ (acc : stores * list Label) l,
                    let r := treat graph budget acc.1 l in (r.1, acc.2 ++ r.2))
                 (ss, acc) ls in
  ∃ T', invariant graph source budget r.1 T' ∧
    closed_except graph budget None r.1 ∧
    length T' = (length T + length ls)%nat ∧
    (∀ u e, e ∈ store_of r.1 u → treated e = false →
       (e ∈ store_of ss u ∧ label e ∉ ls) ∨ label e ∈ r.2) ∧
    (∀ c, c ∈ r.2 → c ∈ acc ∨ node_of c ∈ nodes graph) ∧
    (∀ c, c ∈ acc → c ∈ r.2).
Proof.
  induction ls as [|l ls IH]; intros ss T acc Hinv Hclosed Hnd Hready.
  - simpl. exists T. split_and!; [done|done|lia| |by left|done].
    intros u e He _. left. split; [done|]. by intros ?%elem_of_nil.
  - simpl. apply NoDup_cons in Hnd as [Hl Hnd].
    destruct (Hready l) as (Hvalid & Hwithin & Hsimple & Hchain & Hpred & Hnew);
      [left|].
    destruct (treat_spec graph source budget Hnn ss T l
                Hinv Hclosed Hvalid Hwithin Hsimple Hchain Hpred Hnew)
      as (Hinv1 & Hclosed1 & Hmono1 & Hent1 & Hacc1).
    destruct (IH (treat graph budget ss l).1 (l :: T)
                 (acc ++ (treat graph budget ss l).2))
      as (T' & Hinv' & Hclosed' & Hlen & Hent & Hacc & Hsub); [done..| |].
    { intros l' Hl'. eapply ready_later; [done| |apply Hready; by right].
      by intros ->. }
    exists T'. split_and!; [done|done|simpl in Hlen; simpl; lia| | |].
    + intros u e He Hun.
      destruct (Hent u e He Hun) as [[He1 Hne]|?]; [|by right].
      destruct (Hent1 u e He1 Hun) as [[He0 Hne1]|Hin].
      * left. split; [done|]. by intros [?|?]%elem_of_cons.
      * right. apply Hsub, elem_of_app. by right.
    + intros c [[?|?]%elem_of_app|?]%Hacc; [by left|right; by apply Hacc1|by right].
    + intros c Hc. apply Hsub, elem_of_app. by left.
Qed.

Lemma correcting_loop_unfold fuel (state : stores * list Z) :
  correcting_loop graph budget fuel state =
    match correcting_step graph budget state with
    | None => Some state.1
    | Some state' =>
        match fuel with
        | O => None
        | S fuel' => correcting_loop graph budget fuel' state'
        end
    end.
Proof. by destruct fuel. Qed.

Lemma potential_less N n t k w w' :
  (t + k ≤ N)%nat → (w' ≤ n)%nat →
  (k = 0 → w' ≤ w)%nat →
  (potential N n (t + k) w' < potential N n t (S w))%nat.
Proof.
  intros Ht Hw' Hk. unfold potential.
  destruct k as [|k].
  - rewrite Nat.add_0_r. specialize (Hk eq_refl). lia.
  - replace (N - t)%nat with (S (N - (t + S k)) + k)%nat by lia.
    nia.
Qed.

(** A round keeps the invariants and lowers the potential. *)
Lemma correcting_step_spec ss wl T :
  invariant graph source budget ss T → closed_except graph budget None ss →
  dirty_listed ss wl → NoDup wl → (∀ u, u ∈ wl → u ∈ nodes graph) →
  match correcting_step graph budget (ss, wl) with
  | None => wl = []
  | Some state' =>
      ∃ T', invariant graph source budget state'.1 T' ∧
        closed_except graph budget None state'.1 ∧
        dirty_listed state'.1 state'.2 ∧ NoDup state'.2 ∧
        (∀ u, u ∈ state'.2 → u ∈ nodes graph) ∧
        (potential (length (simple_labels graph source)) (length (nodes graph))
                   (length T') (length state'.2)
         < potential (length (simple_labels graph source)) (length (nodes graph))
                     (length T) (length wl))%nat
  end.
Proof.
  intros Hinv Hclosed Hdirty Hnd Hnodes. unfold correcting_step. simpl.
  destruct wl as [|u wl]; [done|].
  apply NoDup_cons in Hnd as [Hu Hnd].
  destruct (treat_all_fold (untreatedLabels (store_of ss u)) ss T [])
    as (T' & Hinv' & Hclosed' & Hlen & Hent & Hacc & _); [done|done| | |].
  { by eapply untreatedLabels_NoDup. }
  { intros l (e & He & Hun & <-)%elem_of_untreatedLabels.
    by eapply untreated_ready. }
  fold (treat_all graph budget ss (untreatedLabels (store_of ss u)))
    in Hinv', Hclosed', Hent, Hacc.
  set (r := treat_all graph budget ss (untreatedLabels (store_of ss u))) in *.
  assert (NoDup (foldl enqueue wl (node_of <$> r.2))) as Hnd'
    by (by apply foldl_enqueue_NoDup).
  assert (∀ v, v ∈ foldl enqueue wl (node_of <$> r.2) → v ∈ nodes graph) as Hnodes'.
  { intros v [Hv|Hv]%elem_of_foldl_enqueue.
    - apply Hnodes. by right.
    - apply list_elem_of_fmap in Hv as (c & -> & Hc).
      apply Hacc in Hc as [Hc|?]; [by apply elem_of_nil in Hc|done]. }
  exists T'. simpl. split_and!; [done|done| |done|done|].
  - intros v e He Hun. apply elem_of_foldl_enqueue.
    destruct (Hent v e He Hun) as [[He0 Hnot]|Hin].
    + left. pose proof (Hdirty v e He0 Hun) as Hv.
      apply elem_of_cons in Hv as [->|?]; [|done].
      exfalso. apply Hnot, elem_of_untreatedLabels. by exists e.
    + right. apply list_elem_of_fmap. exists (label e). split; [|done].
      by destruct (inv_good _ _ _ _ _ Hinv' v e He) as (_ & -> & _).
  - rewrite Hlen. apply potential_less.
    + rewrite <- Hlen.
      apply (treated_bound graph source T' Hsource); apply Hinv'.
    + apply submseteq_length, NoDup_submseteq; done.
    + intros Hk. apply length_zero_iff_nil in Hk.
      unfold r. rewrite Hk. simpl. lia.
Qed.

(** The correcting loop ends within the potential of its state, with every
    retained label treated. *)
Lemma correcting_loop_ends fuel : ∀ ss wl T,
  invariant graph source budget ss T → closed_except graph budget None ss →
  dirty_listed ss wl → NoDup wl → (∀ u, u ∈ wl → u ∈ nodes graph) →
  (potential (length (simple_labels graph source)) (length (nodes graph))
             (length T) (length wl) ≤ fuel)%nat →
  ∃ ss' T', correcting_loop graph budget fuel (ss, wl) = Some ss' ∧
    invariant graph source budget ss' T' ∧
    closed_except graph budget None ss' ∧
    (∀ u e, e ∈ store_of ss' u → treated e = true).
Proof.
  induction fuel as [|fuel IH]; intros ss wl T Hinv Hclosed Hdirty Hnd Hnodes Hfuel.
  all: rewrite correcting_loop_unfold.
  all: pose proof (correcting_step_spec ss wl T Hinv Hclosed Hdirty Hnd Hnodes)
         as Hstep.
  all: destruct (correcting_step graph budget (ss, wl)) as [[ss1 wl1]|].
  all: try (subst wl; exists ss, T; split_and!; [done..|];
            intros u e He; destruct (treated e) eqn:Hun; [done|];
            by apply (Hdirty u e He), elem_of_nil in Hun).
  all: destruct Hstep as (T' & Hinv' & Hclosed' & Hdirty' & Hnd' & Hnodes' & Hless).
  all: simpl in *.
  - lia.
  - apply (IH ss1 wl1 T'); [done..|]. lia.
Qed.

End loop_facts.

(** ** The exhaustive enumeration *)

Section explore_facts.

Context (graph : WCGraph) (source budget : Z).
Hypothesis Hsource : source ∈ nodes graph.
Hypothesis Hbudget : 0 ≤ budget.
Implicit Types (l d p c : Label) (ss : stores).

Lemma within_prefix d p : within budget d → p ∈ prefixes d → within budget p.
Proof.
  induction d as [s|d IH v vec]; simpl.
  - by intros ? ->%list_elem_of_singleton.
  - intros [Hw Hd] [->|Hp]%elem_of_cons; [done|by apply IH].
Qed.

Lemma simple_prefix d p : simple d → p ∈ prefixes d → simple p.
Proof.
  unfold simple. induction d as [s|d IH v vec]; simpl.
  - by intros ? ->%list_elem_of_singleton.
  - intros [Hv Hd]%NoDup_cons [->|Hp]%elem_of_cons; [by apply NoDup_cons|by apply IH].
Qed.

Lemma prefix_depth d p :
  p ∈ prefixes d → (length (back_nodes p) ≤ length (back_nodes d))%nat.
Proof.
  induction d as [s|d IH v vec]; simpl.
  - by intros ->%list_elem_of_singleton.
  - intros [->|Hp]%elem_of_cons; [done|]. apply IH in Hp. lia.
Qed.

(** Below a proper prefix [l] of [d], the chain of [d] goes through an
    extension of [l]. *)
Lemma prefix_child d l :
  l ∈ prefixes d → d ≠ l → ∃ v vec, Extend l v vec ∈ prefixes d.
Proof.
  induction d as [s|d IH v vec]; simpl.
  - by intros ->%list_elem_of_singleton.
  - intros [->|Hl]%elem_of_cons Hne; [done|].
    destruct (decide (d = l)) as [->|Hdl].
    + exists v, vec. left.
    + destruct (IH Hl Hdl) as (v' & vec' & Hin). exists v', vec'. by right.
Qed.

Lemma valid_zero_prefix d : valid graph source d → Zero source ∈ prefixes d.
Proof.
  induction d as [s|d IH v vec]; simpl.
  - intros ->. left.
  - intros [Hd _]. right. by apply IH.
Qed.

Lemma initial_sound : sound graph source budget (initial source).
Proof.
  destruct (initial_invariant graph source budget Hbudget)
    as [Hgood Hanti _ _ _ Hsrc].
  split_and!; [|done|done].
  intros u e He. by destruct (Hgood u e He) as (? & ? & ? & ? & _).
Qed.

Lemma insert_at_sound ss c :
  sound graph source budget ss →
  valid graph source c → within budget c → simple c →
  sound graph source budget (insert_at budget ss c).
Proof.
  intros (Hgood & Hanti & Hsrc) Hc Hwithin Hsimple. split_and!.
  - intros u e [He|(-> & -> & _)]%insert_at_entries; [by apply Hgood|done].
  - intros u. by apply insert_at_antichain.
  - by apply insert_at_mono.
Qed.

(** The enumeration below [l] inserts, or finds covered, every simple path
    within the budget that extends [l] by at most [room] edges. *)
Lemma explore_spec room : ∀ l ss,
  sound graph source budget ss →
  valid graph source l → within budget l → simple l →
  let ss' := explore graph budget room (back_nodes l) l ss in
  sound graph source budget ss' ∧
  (∀ u x, covered ss u x → covered ss' u x) ∧
  (∀ d v vec, Extend l v vec ∈ prefixes d →
     valid graph source d → simple d → within budget d →
     (length (back_nodes d) ≤ length (back_nodes l) + room)%nat →
     covered ss' (node_of d) (resource d)).
Proof.
  induction room as [|room IH]; intros l ss Hsound Hl Hwithin Hsimple.
  - simpl. split_and!; [done|done|].
    intros d v vec Hc%prefix_depth _ _ _ Hdepth. simpl in Hc. lia.
  - simpl.
    set (F := λ (ss : stores) (e : Z * vector),
      if decide (e.1 ∈ back_nodes l) then ss
      else if decide (budget < weight (resource (Extend l e.1 e.2))) then ss
      else explore graph budget room (e.1 :: back_nodes l) (Extend l e.1 e.2)
             (<[e.1 := store (tryInsert budget (store_of ss e.1)
                                (Extend l e.1 e.2))]> ss)).
    assert (∀ es ss,
      sound graph source budget ss →
      (∀ e : Z * vector, e ∈ es → ((node_of l, e.1), e.2) ∈ graph) →
      sound graph source budget (foldl F ss es) ∧
      (∀ u x, covered ss u x → covered (foldl F ss es) u x) ∧
      (∀ d v vec, (v, vec) ∈ es → Extend l v vec ∈ prefixes d →
         valid graph source d → simple d → within budget d →
         (length (back_nodes d) ≤ length (back_nodes l) + S room)%nat →
         covered (foldl F ss es) (node_of d) (resource d))) as Hfold.
    { clear ss Hsound. induction es as [|e es IHes]; intros ss Hsound Hes.
      - simpl. split_and!; [done|done|]. intros d v vec Hin. by apply elem_of_nil in Hin.
      - simpl.
        assert (∀ e' : Z * vector, e' ∈ es → ((node_of l, e'.1), e'.2) ∈ graph)
          as Hes' by (intros e' He'; apply Hes; by right).
        destruct e as [v0 vec0].
        set (c := Extend l v0 vec0).
        assert (sound graph source budget (F ss (v0, vec0)) ∧
                (∀ u x, covered ss u x → covered (F ss (v0, vec0)) u x) ∧
                (∀ d, c ∈ prefixes d →
                   valid graph source d → simple d → within budget d →
                   (length (back_nodes d) ≤ length (back_nodes l) + S room)%nat →
                   covered (F ss (v0, vec0)) (node_of d) (resource d)))
          as (Hsound1 & Hmono1 & Hcov1).
        { unfold F. simpl. fold c.
          case_decide as Hvis; [|case_decide as Hover].
          - split_and!; [done|done|].
            intros d Hc _ Hd _ _. exfalso.
            pose proof (simple_prefix d c Hd Hc) as Hcs.
            unfold simple in Hcs. simpl in Hcs.
            by apply NoDup_cons in Hcs as [? _].
          - split_and!; [done|done|].
            intros d Hc _ _ Hd _. exfalso.
            destruct (within_prefix d c Hd Hc) as [Hw _].
            unfold weight in Hw. simpl in Hw. lia.
          - assert (valid graph source c) as Hcv.
            { split; [done|]. apply (Hes (v0, vec0)). left. }
            assert (within budget c) as Hcw
              by (split; [unfold weight in *; simpl in *; lia|done]).
            assert (simple c) as Hcs by (by apply NoDup_cons).
            change (<[v0 := store (tryInsert budget (store_of ss v0) c)]> ss)
              with (insert_at budget ss c).
            destruct (IH c (insert_at budget ss c)) as (Hs & Hm & Hc);
              [by apply insert_at_sound|done..|].
            change (back_nodes c) with (v0 :: back_nodes l) in Hs, Hm, Hc.
            split_and!; [done| |].
            + intros u x Hux. by apply Hm, insert_at_mono.
            + intros d Hcd Hdv Hds Hdw Hdepth.
              destruct (decide (d = c)) as [->|Hne].
              * apply Hm. apply insert_at_covers. by destruct Hcw.
              * destruct (prefix_child d c Hcd Hne) as (v' & vec' & Hin).
                apply (Hc d v' vec'); [done..|]. simpl. lia. }
        destruct (IHes (F ss (v0, vec0)) Hsound1 Hes') as (Hsound2 & Hmono2 & Hcov2).
        split_and!; [done| |].
        + intros u x Hux. by apply Hmono2, Hmono1.
        + intros d v vec [[= -> ->]|Hin]%elem_of_cons Hcd Hdv Hds Hdw Hdepth.
          * apply Hmono2. by apply Hcov1.
          * by apply (Hcov2 d v vec). }
    destruct (Hfold (outgoingEdges graph (node_of l)) ss Hsound)
      as (Hsound' & Hmono' & Hcov').
    { intros [v vec] He. by apply elem_of_outgoingEdges. }
    split_and!; [done|done|].
    intros d v vec Hcd Hdv Hds Hdw Hdepth.
    apply (Hcov' d v vec); [|done..].
    apply elem_of_outgoingEdges.
    pose proof (valid_prefix graph source d _ Hdv Hcd) as [_ Hedge]. done.
Qed.

(** The exhaustive strategy computes the efficient frontiers. *)
Lemma explore_efficient :
  efficient graph source budget
    (explore graph budget (length (nodes graph)) [source] (Zero source)
       (initial source)).
Proof.
  destruct (explore_spec (length (nodes graph)) (Zero source) (initial source))
    as ((Hgood & Hanti & Hsrc) & Hmono & Hcov); [apply initial_sound|done| |apply NoDup_singleton|].
  { split; [|done]. unfold weight. simpl. lia. }
  simpl in Hgood, Hanti, Hsrc, Hmono, Hcov.
  intros u. split_and!.
  - apply Hanti.
  - intros x (l & -> & (e & -> & He)%list_elem_of_fmap)%list_elem_of_fmap.
    destruct (Hgood u e He) as (? & ? & ? & ?). by exists (label e).
  - intros x (d & Hdv & Hds & Hdw & <- & <-).
    destruct (decide (d = Zero source)) as [->|Hne]; [done|].
    destruct (prefix_child d (Zero source)) as (v & vec & Hin);
      [by apply valid_zero_prefix|done|].
    apply (Hcov d v vec); [done..|].
    pose proof (simple_depth graph source d Hsource Hdv Hds). lia.
Qed.

End explore_facts.

(** ** What every strategy keeps, on any graph *)

Section store_wise.

Context (graph : WCGraph) (budget : Z) (Q : LabelStore → Prop).
Hypothesis Q_insert : ∀ st l, Q st → Q (store (tryInsert budget st l)).
Hypothesis Q_mark : ∀ st l, Q st → Q (markTreated st l).

Lemma foldl_keeps {A B} (P : A → Prop) (f : A → B → A) (bs : list B) : ∀ a,
  (∀ a b, P a → P (f a b)) → P a → P (foldl f a bs).
Proof.
  induction bs as [|b bs IH]; intros a Hf Ha; simpl; [done|].
  apply IH; [done|]. by apply Hf.
Qed.

Lemma insert_at_keeps ss c :
  everywhere Q ss → everywhere Q (insert_at budget ss c).
Proof.
  intros Hss u. rewrite insert_at_store. case_decide; [|done]. by apply Q_insert.
Qed.

Lemma treat_keeps ss l : everywhere Q ss → everywhere Q (treat graph budget ss l).1.
Proof.
  intros Hss. unfold treat, extend.
  apply (foldl_keeps (λ acc : stores * list Label, everywhere Q acc.1)).
  - intros [ss' acc] e Hacc. rewrite relax_unfold.
    case_decide; [done|]. simpl. by apply insert_at_keeps.
  - simpl. intros u. rewrite mark_store. case_decide; [|done]. by apply Q_mark.
Qed.

Lemma correcting_step_keeps state state' :
  everywhere Q state.1 → correcting_step graph budget state = Some state' →
  everywhere Q state'.1.
Proof.
  unfold correcting_step. destruct state.2 as [|u wl]; [done|].
  intros Hss [= <-]. simpl. unfold treat_all.
  apply (foldl_keeps (λ acc : stores * list Label, everywhere Q acc.1)); [|done].
  intros [ss' acc] l Hacc. simpl. by apply treat_keeps.
Qed.

Lemma correcting_loop_keeps fuel : ∀ state ss',
  everywhere Q state.1 → correcting_loop graph budget fuel state = Some ss' →
  everywhere Q ss'.
Proof.
  induction fuel as [|fuel IH]; intros state ss' Hss; simpl.
  all: destruct (correcting_step graph budget state) as [state'|] eqn:Hstep.
  all: try (by intros [= <-]).
  apply IH. by eapply correcting_step_keeps.
Qed.

Lemma setting_loop_keeps fuel : ∀ ss ss',
  everywhere Q ss → setting_loop graph budget fuel ss = Some ss' →
  everywhere Q ss'.
Proof.
  induction fuel as [|fuel IH]; intros ss ss' Hss; simpl.
  all: destruct (setting_step graph budget ss) as [ss1|] eqn:Hstep.
  all: try (by intros [= <-]).
  apply IH. unfold setting_step in Hstep.
  destruct (extract_min _); simplify_eq. by apply treat_keeps.
Qed.

Lemma explore_keeps room : ∀ visited l ss,
  everywhere Q ss → everywhere Q (explore graph budget room visited l ss).
Proof.
  induction room as [|room IH]; intros visited l ss Hss; simpl; [done|].
  apply (foldl_keeps (everywhere Q)); [|done].
  intros ss' e Hss'. repeat case_decide; [done..|].
  apply IH. apply (insert_at_keeps ss' (Extend l e.1 e.2) Hss').
Qed.

(** Whatever the strategy, the stores of a completed propagation have the
    property when the initial ones have it. *)
Lemma propagate_keeps strat source fuel ss :
  everywhere Q (initial source) →
  propagate strat graph source budget fuel = Some ss → everywhere Q ss.
Proof.
  intros Hinit. destruct strat; simpl.
  - by apply correcting_loop_keeps.
  - by apply setting_loop_keeps.
  - intros [= <-]. by apply explore_keeps.
Qed.

End store_wise.

(** ** Runs *)

Section run_facts.

Implicit Types (self r : LabelAlgorithm.t) (graph : WCGraph).

Lemma check_passed graph source budget :
  check graph source budget = None → 0 ≤ budget ∧ source ∈ nodes graph.
Proof. unfold check. repeat case_decide; try done. intros _. split; [lia|done]. Qed.

Lemma run_completed self strat graph source budget fuel r :
  run self strat graph source budget fuel = inr r →
  0 ≤ budget ∧ source ∈ nodes graph ∧
  propagate strat graph source budget fuel = Some (node_labels r).
Proof.
  unfold run. destruct (check graph source budget) eqn:Hcheck; [done|].
  apply check_passed in Hcheck as [? ?].
  destruct (propagate strat graph source budget fuel); [|done].
  by intros [= <-].
Qed.

(** More rounds than needed do not change the outcome of a loop. *)
Lemma correcting_loop_fuel graph budget fuel1 : ∀ fuel2 state ss1 ss2,
  correcting_loop graph budget fuel1 state = Some ss1 →
  correcting_loop graph budget fuel2 state = Some ss2 → ss1 = ss2.
Proof.
  induction fuel1 as [|fuel1 IH]; intros fuel2 state ss1 ss2 H1 H2;
    rewrite correcting_loop_unfold in H1, H2;
    destruct (correcting_step graph budget state) as [state'|];
    try congruence.
  destruct fuel2 as [|fuel2]; [done|]. by eapply IH.
Qed.

Lemma setting_loop_fuel graph budget fuel1 : ∀ fuel2 ss ss1 ss2,
  setting_loop graph budget fuel1 ss = Some ss1 →
  setting_loop graph budget fuel2 ss = Some ss2 → ss1 = ss2.
Proof.
  induction fuel1 as [|fuel1 IH]; intros fuel2 ss ss1 ss2 H1 H2;
    rewrite setting_loop_unfold in H1, H2;
    destruct (setting_step graph budget ss) as [ss'|];
    try congruence.
  destruct fuel2 as [|fuel2]; [done|]. by eapply IH.
Qed.

Lemma propagate_fuel strat graph source budget fuel1 fuel2 ss1 ss2 :
  propagate strat graph source budget fuel1 = Some ss1 →
  propagate strat graph source budget fuel2 = Some ss2 → ss1 = ss2.
Proof.
  destruct strat; simpl.
  - apply correcting_loop_fuel.
  - apply setting_loop_fuel.
  - congruence.
Qed.

(** With enough rounds each strategy completes, with efficient stores. *)
Lemma propagate_efficient strat graph source budget fuel :
  nonnegative graph → 0 ≤ budget → source ∈ nodes graph →
  (potential (length (simple_labels graph source)) (length (nodes graph)) 0 1
     ≤ fuel)%nat →
  ∃ ss, propagate strat graph source budget fuel = Some ss ∧
        efficient graph source budget ss.
Proof.
  intros Hnn Hbudget Hsource Hfuel. destruct strat; simpl.
  - destruct (correcting_loop_ends graph source budget Hnn Hsource fuel
                (initial source) [source] [])
      as (ss & T & Hrun & Hinv & Hclosed & Hall).
    + by apply initial_invariant.
    + by apply initial_closed.
    + apply initial_dirty_listed.
    + apply NoDup_singleton.
    + by intros u ->%list_elem_of_singleton.
    + done.
    + exists ss. split; [done|]. by eapply invariant_efficient.
  - destruct (setting_loop_ends graph source budget Hnn Hsource fuel
                (initial source) [])
      as (ss & T & Hrun & Hinv & Hclosed & Hall).
    + by apply initial_invariant.
    + by apply initial_closed.
    + unfold potential in Hfuel. simpl in *. nia.
    + exists ss. split; [done|]. by eapply invariant_efficient.
  - eexists. split; [done|]. by apply explore_efficient.
Qed.

End run_facts.

(** ** The properties of the engine *)

(** C1. On a graph without negative resources, for a given source and a
    given budget, the correcting strategy ([run_algorithm_v1]), the setting
    strategy ([run_algorithm_v2]) and the exhaustive strategy
    ([gen_all_possible_labels]) all complete once the loops are allowed
    enough rounds, and at every node their frontiers hold the same
    (weight, cost) pairs.  When the budget is negative or the source is not
    a node, the three fail alike. *)
Theorem strategies_agree (self1 self2 self3 : LabelAlgorithm.t)
    (graph : WCGraph) (source budget : Z) :
  nonnegative graph →
  ∃ fuel0 : nat, ∀ fuel : nat, (fuel0 ≤ fuel)%nat →
    match run_algorithm_v1 self1 graph source budget fuel,
          run_algorithm_v2 self2 graph source budget fuel,
          gen_all_possible_labels self3 graph source budget fuel with
    | inr r1, inr r2, inr r3 =>
        ∀ u x,
          (x ∈ frontier (node_labels r1) u ↔ x ∈ frontier (node_labels r2) u) ∧
          (x ∈ frontier (node_labels r2) u ↔ x ∈ frontier (node_labels r3) u)
    | inl f1, inl f2, inl f3 => f1 = f2 ∧ f2 = f3 ∧ f1 ≠ OutOfFuel
    | _, _, _ => False
    end.
Proof.
  intros Hnn.
  exists (potential (length (simple_labels graph source))
                    (length (nodes graph)) 0 1).
  intros fuel Hfuel.
  unfold run_algorithm_v1, run_algorithm_v2, gen_all_possible_labels, run.
  destruct (check graph source budget) as [f|] eqn:Hcheck.
  - split_and!; [done|done|]. unfold check in Hcheck.
    repeat case_decide; by simplify_eq.
  - apply check_passed in Hcheck as [Hbudget Hsource].
    destruct (propagate_efficient Correcting graph source budget fuel)
      as (ss1 & -> & H1); [done..|].
    destruct (propagate_efficient Setting graph source budget fuel)
      as (ss2 & -> & H2); [done..|].
    destruct (propagate_efficient Exhaustive graph source budget fuel)
      as (ss3 & -> & H3); [done..|].
    intros u x. simpl.
    split; split; by apply (efficient_unique graph source budget).
Qed.

(** The first graph of the tests, from node 0 with the budget 6: with 100
    rounds the three strategies end with the frontier (4, 5) at node 6. *)
Lemma strategies_agree_witness :
  let graph : WCGraph :=
    [((0, 1), (1, 1)); ((1, 2), (2, 5)); ((0, 3), (1, 1)); ((1, 3), (2, 2));
     ((1, 4), (2, 8)); ((2, 4), (7, 2)); ((3, 4), (6, 2)); ((0, 2), (0, 1));
     ((2, 3), (1, 1)); ((3, 5), (2, 3)); ((5, 6), (1, 1))] in
  nonnegative graph ∧
  (∃ r1 r2 r3,
     run_algorithm_v1 (mk ∅) graph 0 6 100 = inr r1 ∧
     run_algorithm_v2 (mk ∅) graph 0 6 100 = inr r2 ∧
     gen_all_possible_labels (mk ∅) graph 0 6 100 = inr r3 ∧
     frontier (node_labels r1) 6 = [(4, 5)] ∧
     frontier (node_labels r2) 6 = [(4, 5)] ∧
     frontier (node_labels r3) 6 = [(4, 5)]) ∧
  ∃ fuel0 : nat, ∀ fuel : nat, (fuel0 ≤ fuel)%nat →
    match run_algorithm_v1 (mk ∅) graph 0 6 fuel,
          run_algorithm_v2 (mk ∅) graph 0 6 fuel,
          gen_all_possible_labels (mk ∅) graph 0 6 fuel with
    | inr r1, inr r2, inr r3 =>
        ∀ u x,
          (x ∈ frontier (node_labels r1) u ↔ x ∈ frontier (node_labels r2) u) ∧
          (x ∈ frontier (node_labels r2) u ↔ x ∈ frontier (node_labels r3) u)
    | inl f1, inl f2, inl f3 => f1 = f2 ∧ f2 = f3 ∧ f1 ≠ OutOfFuel
    | _, _, _ => False
    end.
Proof.
  intros graph.
  assert (nonnegative graph) as Hnn.
  { unfold nonnegative, graph. repeat (apply Forall_cons; split; [by split|]).
    constructor. }
  split; [done|]. split.
  - destruct (run_algorithm_v1 (mk ∅) graph 0 6 100) as [f|r1] eqn:H1;
      [vm_compute in H1; discriminate|].
    destruct (run_algorithm_v2 (mk ∅) graph 0 6 100) as [f|r2] eqn:H2;
      [vm_compute in H2; discriminate|].
    destruct (gen_all_possible_labels (mk ∅) graph 0 6 100) as [f|r3] eqn:H3;
      [vm_compute in H3; discriminate|].
    exists r1, r2, r3. split_and!; [done..| | |].
    + vm_compute in H1. injection H1 as <-. vm_compute. reflexivity.
    + vm_compute in H2. injection H2 as <-. vm_compute. reflexivity.
    + vm_compute in H3. injection H3 as <-. vm_compute. reflexivity.
  - apply (strategies_agree (mk ∅) (mk ∅) (mk ∅) graph 0 6 Hnn).
Defined.

(** C2. After a run that completes, whatever the strategy and the graph, no
    label of the frontier of a node dominates another one. *)
Theorem frontier_antichain (self r : LabelAlgorithm.t) (strat : strategy)
    (graph : WCGraph) (source budget : Z) (fuel : nat) :
  run self strat graph source budget fuel = inr r →
  ∀ u x y,
    x ∈ frontier (node_labels r) u → y ∈ frontier (node_labels r) u →
    ¬ dominates x y.
Proof.
  intros (Hbudget & Hsource & Hrun)%run_completed u x y Hx Hy [Hle Hne].
  apply Hne.
  refine (propagate_keeps graph budget
            (λ st, antichain (resource <$> (label <$> st)))
            _ _ strat source fuel (node_labels r) _ Hrun u x y Hx Hy Hle).
  - intros st l. apply tryInsert_antichain.
  - intros st l. by rewrite markTreated_labels.
  - intros v. change (antichain (frontier (initial source) v)).
    intros a b. rewrite initial_frontier. case_decide.
    + by intros ->%list_elem_of_singleton ->%list_elem_of_singleton.
    + by intros ?%elem_of_nil.
Qed.

(** A graph with a negative edge: the setting run completes with the two
    incomparable vectors (2, 0) and (1, 3) at node 2. *)
Lemma frontier_antichain_witness :
  let graph : WCGraph :=
    [((0, 1), (1, 1)); ((1, 2), (1, -1)); ((0, 2), (1, 3))] in
  ∃ r, run (mk ∅) Setting graph 0 3 10 = inr r ∧
    frontier (node_labels r) 2 = [(1, 3); (2, 0)] ∧
    ¬ dominates (1, 3) (2, 0) ∧ ¬ dominates (2, 0) (1, 3).
Proof.
  intros graph.
  destruct (run (mk ∅) Setting graph 0 3 10) as [f|r] eqn:Hrun;
    [vm_compute in Hrun; discriminate|].
  exists r. split; [done|].
  assert (frontier (node_labels r) 2 = [(1, 3); (2, 0)]) as Hfr.
  { vm_compute in Hrun. injection Hrun as <-. vm_compute. reflexivity. }
  split; [done|].
  split; apply (frontier_antichain (mk ∅) r Setting graph 0 3 10 Hrun 2);
    rewrite Hfr; repeat (first [left | right]).
Defined.

(** C3. After a run that completes with the budget [budget], every label
    retained at any node, hence every entry of a frontier, has a weight of
    at most [budget]; and [tryInsert] rejects a label whose weight exceeds
    the budget whatever the store holds: nothing is accepted, nothing is
    evicted and the store is unchanged. *)
Theorem budget_respected (budget : Z) :
  (∀ (self r : LabelAlgorithm.t) strat graph source fuel,
     run self strat graph source budget fuel = inr r →
     ∀ u,
       (∀ e, e ∈ store_of (node_labels r) u →
          weight (resource (label e)) ≤ budget) ∧
       (∀ x, x ∈ frontier (node_labels r) u → weight x ≤ budget)) ∧
  (∀ (st : LabelStore) l,
     budget < weight (resource l) →
     tryInsert budget st l = mk_insertion false [] st).
Proof.
  split; [|intros st l; apply tryInsert_over_budget].
  intros self r strat graph source fuel (Hbudget & Hsource & Hrun)%run_completed u.
  assert (Forall (λ e, weight (resource (label e)) ≤ budget)
                 (store_of (node_labels r) u)) as Hall.
  { refine (propagate_keeps graph budget
              (Forall (λ e, weight (resource (label e)) ≤ budget))
              _ _ strat source fuel (node_labels r) _ Hrun u).
    - intros st l. apply tryInsert_budget_kept.
    - intros st l Hst. apply Forall_forall.
      rewrite Forall_forall in Hst.
      intros e [[-> (e0 & He0 & <-)]|[He _]]%elem_of_markTreated.
      + simpl. by apply Hst.
      + by apply Hst.
    - intros v. apply Forall_forall.
      intros e [-> ->]%initial_entries. unfold weight. simpl. lia. }
  rewrite Forall_forall in Hall. split; [done|].
  intros x (l & -> & (e & -> & He)%list_elem_of_fmap)%list_elem_of_fmap.
  by apply Hall.
Qed.

(** Scenario A of the specification with the budget 1: the label (3, 6) of
    the path 0, 1, 2 is over the budget and is rejected by an empty store;
    the run keeps (0, 1) at node 2. *)
Lemma budget_respected_witness :
  let graph : WCGraph :=
    [((0, 1), (1, 1)); ((0, 2), (0, 1)); ((1, 2), (2, 5)); ((2, 1), (1, 1))] in
  ∃ r, run (mk ∅) Correcting graph 0 1 20 = inr r ∧
    frontier (node_labels r) 2 = [(0, 1)] ∧
    weight (0, 1) ≤ 1 ∧
    tryInsert 1 [] (Extend (Extend (Zero 0) 1 (1, 1)) 2 (2, 5)) =
      mk_insertion false [] [].
Proof.
  intros graph.
  destruct (run (mk ∅) Correcting graph 0 1 20) as [f|r] eqn:Hrun;
    [vm_compute in Hrun; discriminate|].
  exists r. split; [done|].
  assert (frontier (node_labels r) 2 = [(0, 1)]) as Hfr.
  { vm_compute in Hrun. injection Hrun as <-. vm_compute. reflexivity. }
  destruct (budget_respected 1) as [Hkept Hreject].
  split_and!.
  - done.
  - apply (Hkept (mk ∅) r Correcting graph 0 20%nat Hrun 2). rewrite Hfr. left.
  - apply Hreject. unfold weight. simpl. lia.
Defined.
